(** * simple_json_parser: a shallow embedding of [simple_json_parser.py]

    The Python module decodes a JSON document with one recursive-descent
    function per grammar rule.  Every function takes the whole input and a
    start offset and returns the decoded object together with the offset of
    the last character it consumed.

    Modelling conventions.
    - A Python [str] is a sequence of code points: [list N].
    - An offset is a [nat]: the entry point starts at a non-negative offset
      and offsets only grow.
    - Exceptions are explicit: a computation yields [Ret], [Raise] or, for
      the functions defined by recursion on a step budget, [OutOfFuel].
    - Python's [int] is [Z]; a Python [float] is an IEEE 754 binary64 value,
      given as a [spec_float] of the Standard Library.
    - Two limits of the interpreter are part of the model.  [int] converts
      at most [int_max_str_digits] digits and raises [ValueError] beyond.
      The call stack is finite: the dispatcher and the entry point take the
      number of nested containers the stack still has room for, and a
      container opened beyond it raises [RecursionError]. *)

From Stdlib Require Import ZArith NArith List String Ascii Bool Lia.
From Stdlib Require Import Floats.SpecFloat.
From stdpp Require Import base decidable list numbers.

Local Open Scope N_scope.
Local Open Scope nat_scope.

(** ** Strings *)

(** A character is its code point; [str] is a sequence of them. *)
Abbreviation char := N (only parsing).
Abbreviation str := (list N) (only parsing).

(** [chr a] is the code point of an ASCII character. *)
Definition chr (a : ascii) : char := N_of_ascii a.

(** The double quote, written by its code. *)
Definition QUOTE : char := chr "034".
Arguments chr : simpl never.
Arguments QUOTE : simpl never.

(** [py s] is the Python string written [s], where an apostrophe of [s]
    stands for a double quote: [py "{'a': 1}"] is the text [{"a": 1}]. *)
Definition py (s : string) : str :=
  map (fun a => if Ascii.eqb a "'" then QUOTE else chr a) (list_ascii_of_string s).

(** [c in "..."] for a one-character string [c]. *)
Definition char_in (c : char) (s : string) : bool :=
  existsb (N.eqb c) (map chr (list_ascii_of_string s)).

Definition str_eqb (a b : str) : bool := bool_decide (a = b).

(** ** Objects the decoder builds *)

#[warnings="-register-all"]
Inductive value :=
| VNone
| VBool (b : bool)
| VInt (n : Z)
| VFloat (f : spec_float)
| VStr (s : str)
| VList (items : list value)
| VDict (members : list (str * value)).

(** A [dict] keeps its keys in insertion order; [d[k] = v] replaces the
    value of a key that is present and appends the pair otherwise. *)
Fixpoint dict_setitem (d : list (str * value)) (k : str) (v : value)
  : list (str * value) :=
  match d with
  | [] => [(k, v)]
  | (k', v') :: d' =>
      if str_eqb k' k then (k', v) :: d' else (k', v') :: dict_setitem d' k v
  end.

Fixpoint dict_getitem (d : list (str * value)) (k : str) : option value :=
  match d with
  | [] => None
  | (k', v') :: d' => if str_eqb k' k then Some v' else dict_getitem d' k
  end.

(** ** Exceptions *)

(** The failure situations the specification names.  The Python exception
    carries only a message; the situation is a label of the model that
    records which [raise] statement fired. *)
Inductive situation :=
| UnexpectedToken
| UnterminatedString
| InvalidNumber
| InvalidLiteral
| ExpectedColon
| ExpectedCommaOrBracket
| TrailingComma
| EmptyInput
| InvalidRoot
| TrailingContent
| UnexpectedEndOfInput.

Inductive exn :=
| InvalidJSONError (site : situation) (msg : str)
| IndexError
| ValueError
| UnicodeEncodeError
| UnicodeDecodeError
| RecursionError.

Inductive outcome (A : Type) :=
| Ret (a : A)
| Raise (e : exn)
| OutOfFuel.
Arguments Ret {A} a.
Arguments Raise {A} e.
Arguments OutOfFuel {A}.

Definition bind {A B} (m : outcome A) (k : A -> outcome B) : outcome B :=
  match m with
  | Ret a => k a
  | Raise e => Raise e
  | OutOfFuel => OutOfFuel
  end.

Notation "'let*' x := m 'in' k" := (bind m (fun x => k))
  (at level 10, x pattern, m at level 100, k at level 200,
   format "'[v' 'let*'  x  :=  m  'in' '/' k ']'").

(** [inp[index]]: an index past the end raises [IndexError]. *)
Definition char_at (inp : str) (index : nat) : outcome char :=
  match inp !! index with
  | Some c => Ret c
  | None => Raise IndexError
  end.

(** [inp[a:b]]: a slice never raises. *)
Definition slice (inp : str) (a b : nat) : str := take (b - a) (drop a inp).

(** ** Cursor utilities *)

(** The characters matched by [\s] in a pattern over [str]. *)
Definition is_space (c : char) : bool :=
  ((9 <=? c) && (c <=? 13) || (28 <=? c) && (c <=? 32)
   || (c =? 133) || (c =? 160) || (c =? 5760)
   || (8192 <=? c) && (c <=? 8202) || (c =? 8232) || (c =? 8233)
   || (c =? 8239) || (c =? 8287) || (c =? 12288))%N.

(** [rest] is [inp[i:]]; the result is the offset of its first character
    that is not white space, or the length of the input. *)
Fixpoint skip_spaces (rest : str) (i : nat) : nat :=
  match rest with
  | c :: rest' => if is_space c then skip_spaces rest' (S i) else i
  | [] => i
  end.

(** [re.compile(r"\s*").match(inp, start_index).end()]; a start offset past
    the end is clamped to the length of the input. *)
Definition skip_whitespace (inp : str) (start_index : nat) : nat :=
  let start := Nat.min start_index (length inp) in
  skip_spaces (drop start inp) start.

(** [str(n)] for a non-negative integer: its decimal digits. *)
Fixpoint digits_acc (fuel : nat) (n : N) (acc : str) : str :=
  match fuel with
  | O => acc
  | S fuel' =>
      let acc' := (48 + n mod 10)%N :: acc in
      if (n / 10 =? 0)%N then acc' else digits_acc fuel' (n / 10)%N acc'
  end.

Definition str_of_N (n : N) : str := digits_acc (S (N.to_nat (N.log2 n))) n [].

(** The default message of [raise_invalid_json_error], formatted. *)
Definition unexpected_token_message (inp : str) (index : nat) : str :=
  py "Unexpected token at char(" ++ str_of_N (N.of_nat index) ++ py "):"
  ++ [10%N] ++ inp ++ [10%N] ++ repeat 32%N index ++ [chr "^"].

(** No caller passes the optional [message] argument, so every call formats
    the default message. *)
Definition raise_invalid_json_error {A} (site : situation) (inp : str) (index : nat)
  : outcome A :=
  Raise (InvalidJSONError site (unexpected_token_message inp index)).

(** ** Literal parsers *)

Definition parse_true (inp : str) (index : nat) : outcome (bool * nat) :=
  let* c := char_at inp index in
  if negb (c =? chr "t")%N then raise_invalid_json_error InvalidLiteral inp index
  else if negb (str_eqb (slice inp index (index + 4)) (py "true"))
  then raise_invalid_json_error InvalidLiteral inp index
  else Ret (true, index + 3).

(** The slice of five characters is compared with the four characters
    [true], as in the source. *)
Definition parse_false (inp : str) (index : nat) : outcome (bool * nat) :=
  let* c := char_at inp index in
  if negb (c =? chr "f")%N then raise_invalid_json_error InvalidLiteral inp index
  else if negb (str_eqb (slice inp index (index + 5)) (py "true"))
  then raise_invalid_json_error InvalidLiteral inp index
  else Ret (false, index + 4).

Definition parse_null (inp : str) (index : nat) : outcome (unit * nat) :=
  let* c := char_at inp index in
  if negb (c =? chr "n")%N then raise_invalid_json_error InvalidLiteral inp index
  else if negb (str_eqb (slice inp index (index + 4)) (py "null"))
  then raise_invalid_json_error InvalidLiteral inp index
  else Ret (tt, index + 3).


(** ** String parser *)

(** [bytes(s, "utf-8")]: a surrogate code point cannot be encoded. *)
Definition utf8_encode_char (c : char) : outcome (list N) :=
  (if c <? 128 then Ret [c]
   else if c <? 2048 then Ret [192 + c / 64; 128 + c mod 64]
   else if (55296 <=? c) && (c <=? 57343) then Raise UnicodeEncodeError
   else if c <? 65536 then
     Ret [224 + c / 4096; 128 + (c / 64) mod 64; 128 + c mod 64]
   else
     Ret [240 + c / 262144; 128 + (c / 4096) mod 64;
          128 + (c / 64) mod 64; 128 + c mod 64])%N.

Fixpoint utf8_encode (s : str) : outcome (list N) :=
  match s with
  | [] => Ret []
  | c :: s' =>
      let* b := utf8_encode_char c in
      let* bs := utf8_encode s' in
      Ret (b ++ bs)
  end.

Definition hex_digit (c : N) : option N :=
  (if (48 <=? c) && (c <=? 57) then Some (c - 48)
   else if (97 <=? c) && (c <=? 102) then Some (c - 87)
   else if (65 <=? c) && (c <=? 70) then Some (c - 55)
   else None)%N.

Fixpoint hex_value (ds : list N) (acc : N) : option N :=
  match ds with
  | [] => Some acc
  | d :: ds' =>
      match hex_digit d with
      | Some h => hex_value ds' (acc * 16 + h)%N
      | None => None
      end
  end.

Definition is_octal (c : N) : bool := ((48 <=? c) && (c <=? 55))%N.

Definition push (c : char) (r : outcome str) : outcome str :=
  let* s := r in Ret (c :: s).

Definition hex_escape (ds : list N) (r : outcome str) : outcome str :=
  match hex_value ds 0 with
  | Some ch => if (1114111 <? ch)%N then Raise UnicodeDecodeError else push ch r
  | None => Raise UnicodeDecodeError
  end.

(** ** Number parser *)

Definition is_digit (c : char) : bool := char_in c "0123456789".

(** The value of a string of decimal digits. *)
Definition digits_value (s : str) : N :=
  fold_left (fun acc c => acc * 10 + (c - 48))%N s 0%N.

(** [sys.int_info.default_max_str_digits]: the number of digits beyond
    which the conversions between [int] and [str] raise [ValueError]. *)
Definition int_max_str_digits : nat := 4300.

(** [int(s)] on the strings the number parser builds: a non-empty string
    of at most [int_max_str_digits] ASCII digits (leading zeros count) is
    converted exactly, anything else is a [ValueError]. *)
Definition py_int (s : str) : outcome Z :=
  if forallb is_digit s && negb (str_eqb s [])
     && (length s <=? int_max_str_digits)
  then Ret (Z.of_N (digits_value s))
  else Raise ValueError.

(** The binary64 value nearest to [m / d] (ties to even). *)
Definition SF_of_N (n : N) : spec_float :=
  match n with
  | N0 => S754_zero false
  | Npos p => S754_finite false p 0
  end.

Definition float_of_ratio (m d : N) : spec_float :=
  SFdiv 53 1024 (SF_of_N m) (SF_of_N d).

(** The text before the first [.] and, when there is one, the text after. *)
Fixpoint split_dot (s : str) : str * option str :=
  match s with
  | [] => ([], None)
  | c :: s' =>
      if (c =? chr ".")%N then ([], Some s')
      else let '(a, b) := split_dot s' in (c :: a, b)
  end.

(** [float(s)] on the strings the number parser builds: digits with one
    [.] among them denote a decimal fraction, which is rounded to the
    nearest binary64 value. *)
Definition py_float (s : str) : outcome spec_float :=
  let '(int_part, frac) := split_dot s in
  let frac_part := default [] frac in
  if forallb is_digit int_part && forallb is_digit frac_part
     && negb (str_eqb (int_part ++ frac_part) [])
  then Ret (float_of_ratio (digits_value (int_part ++ frac_part))
                           (10 ^ N.of_nat (length frac_part)))
  else Raise ValueError.

(** The loop of [parse_number]: [rest] is [inp[index:]]. It yields the
    lexeme, the number of dots and the offset of the character that stopped
    the loop. *)
Fixpoint number_loop (inp rest : str) (index : nat) (result_string : str)
    (dot_count : nat) : outcome (str * nat * nat) :=
  match rest with
  | [] => Raise IndexError
  | c :: rest' =>
    if char_in c "0123456789." then
      let result_string := result_string ++ [c] in
      if (c =? chr ".")%N then
        let dot_count := dot_count + 1 in
        if 1 <? dot_count then raise_invalid_json_error InvalidNumber inp index else
        match rest' with
        | [] => Raise IndexError
        | c' :: _ =>
          if negb (char_in c' "0123456789")
          then raise_invalid_json_error InvalidNumber inp index
          else number_loop inp rest' (index + 1) result_string dot_count
        end
      else number_loop inp rest' (index + 1) result_string dot_count
    else Ret (result_string, dot_count, index)
  end.

(** [except ValueError]: the handler of [parse_number]. *)
Definition except_ValueError {A} (m : outcome A) (handler : outcome A) : outcome A :=
  match m with
  | Raise ValueError => handler
  | _ => m
  end.

(** [int(inp[index])] succeeds on a decimal digit.  On a decimal digit that
    is not one of [0123456789] the loop consumes nothing and [int] of the
    empty string raises the [ValueError] that [int] of any other character raises, at the
    same offset; so the test is on the ASCII digits. *)
Definition parse_number (inp : str) (index : nat) : outcome (value * nat) :=
  let* c := char_at inp index in
  if negb (is_digit c) then raise_invalid_json_error InvalidNumber inp index else
  let* (result_string, dot_count, index) := number_loop inp (drop index inp) index [] 0 in
  except_ValueError
    (if 0 <? dot_count
     then let* f := py_float result_string in Ret (VFloat f, index - 1)
     else let* n := py_int result_string in Ret (VInt n, index - 1))
    (raise_invalid_json_error InvalidNumber inp index).

Section Decoder.

(** The table of character names of the interpreter's [unicodedata] module,
    consulted for [\N{...}] escapes; it is not part of the repository. *)
Variable ucnhash_getcode : list N -> option char.

(** The escape [\N{name}] after its opening brace: [t] is the text that
    follows, [name] the characters of the name read so far, and [decode]
    the codec for what follows the closing brace.  An empty or unknown
    name, or a missing brace, is an error. *)
Fixpoint name_escape (decode : list N -> outcome str) (t : list N) (name : list N)
  : outcome str :=
  match t with
  | [] => Raise UnicodeDecodeError
  | e :: t' =>
    if (e =? chr "}")%N then
      match name with
      | [] => Raise UnicodeDecodeError
      | _ =>
        match ucnhash_getcode name with
        | Some ch => push ch (decode t')
        | None => Raise UnicodeDecodeError
        end
      end
    else name_escape decode t' (name ++ [e])
  end.

(** [bytes.decode("unicode_escape")] with strict error handling: a byte
    outside an escape is the code point of the same number, the escapes are
    those of a Python string literal, and an escape that is not recognised
    is kept with its backslash. *)
Fixpoint unicode_escape_decode (s : list N) : outcome str :=
  match s with
  | [] => Ret []
  | c :: s1 =>
    if negb (c =? chr "\")%N then push c (unicode_escape_decode s1) else
    match s1 with
    | [] => Raise UnicodeDecodeError
    | c :: s2 =>
      if (c =? 10)%N then unicode_escape_decode s2
      else if (c =? chr "\")%N then push (chr "\") (unicode_escape_decode s2)
      else if (c =? chr "'")%N then push (chr "'") (unicode_escape_decode s2)
      else if (c =? QUOTE)%N then push QUOTE (unicode_escape_decode s2)
      else if (c =? chr "b")%N then push 8%N (unicode_escape_decode s2)
      else if (c =? chr "f")%N then push 12%N (unicode_escape_decode s2)
      else if (c =? chr "t")%N then push 9%N (unicode_escape_decode s2)
      else if (c =? chr "n")%N then push 10%N (unicode_escape_decode s2)
      else if (c =? chr "r")%N then push 13%N (unicode_escape_decode s2)
      else if (c =? chr "v")%N then push 11%N (unicode_escape_decode s2)
      else if (c =? chr "a")%N then push 7%N (unicode_escape_decode s2)
      else if is_octal c then
        match s2 with
        | d2 :: s3 =>
          if is_octal d2 then
            match s3 with
            | d3 :: s4 =>
              if is_octal d3
              then push (((c - 48) * 8 + (d2 - 48)) * 8 + (d3 - 48))%N
                        (unicode_escape_decode s4)
              else push ((c - 48) * 8 + (d2 - 48))%N (unicode_escape_decode s3)
            | [] => push ((c - 48) * 8 + (d2 - 48))%N (unicode_escape_decode s3)
            end
          else push (c - 48)%N (unicode_escape_decode s2)
        | [] => push (c - 48)%N (unicode_escape_decode s2)
        end
      else if (c =? chr "x")%N then
        match s2 with
        | h1 :: h2 :: s3 => hex_escape [h1; h2] (unicode_escape_decode s3)
        | _ => Raise UnicodeDecodeError
        end
      else if (c =? chr "u")%N then
        match s2 with
        | h1 :: h2 :: h3 :: h4 :: s3 =>
            hex_escape [h1; h2; h3; h4] (unicode_escape_decode s3)
        | _ => Raise UnicodeDecodeError
        end
      else if (c =? chr "U")%N then
        match s2 with
        | h1 :: h2 :: h3 :: h4 :: h5 :: h6 :: h7 :: h8 :: s3 =>
            hex_escape [h1; h2; h3; h4; h5; h6; h7; h8] (unicode_escape_decode s3)
        | _ => Raise UnicodeDecodeError
        end
      else if (c =? chr "N")%N then
        match s2 with
        | b :: s3 =>
          if negb (b =? chr "{")%N then Raise UnicodeDecodeError else
          name_escape unicode_escape_decode s3 []
        | [] => Raise UnicodeDecodeError
        end
      else push (chr "\") (push c (unicode_escape_decode s2))
    end
  end.

(** The scan of [parse_string]: [rest] is [inp[end_index:]], so reading
    [inp[end_index]] raises [IndexError] exactly when [rest] is empty. *)
Fixpoint find_closing_quote (rest : str) (end_index : nat) : outcome nat :=
  match rest with
  | [] => Raise IndexError
  | c :: rest' =>
    if (c =? QUOTE)%N then Ret end_index
    else if (c =? chr "\")%N then
      match rest' with
      | [] => Raise IndexError
      | _ :: rest'' => find_closing_quote rest'' (end_index + 2)
      end
    else find_closing_quote rest' (end_index + 1)
  end.

Definition parse_string (inp : str) (index : nat) : outcome (str * nat) :=
  let* c := char_at inp index in
  if negb (c =? QUOTE)%N then raise_invalid_json_error UnexpectedToken inp index else
  let start_index := index + 1 in
  let* end_index := find_closing_quote (drop start_index inp) start_index in
  let* raw := utf8_encode (slice inp start_index end_index) in
  let* result := unicode_escape_decode raw in
  Ret (result, end_index).

(** ** Object and array parsers *)

Section Containers.

(** The reference to [_parse_json] from inside the two loops. *)
Variable parse_value : str -> nat -> outcome (value * nat).

(** The [while] loop of [parse_object], one iteration per unit of [fuel]. *)
Fixpoint object_loop (fuel : nat) (inp : str) (index : nat)
    (result : list (str * value)) : outcome (list (str * value) * nat) :=
  match fuel with
  | O => OutOfFuel
  | S fuel' =>
    let* c := char_at inp index in
    if (c =? chr "}")%N then Ret (result, index) else
    let key_start_index := skip_whitespace inp (index + 1) in
    let* (key, key_end_index) := parse_string inp key_start_index in
    let colon_index := skip_whitespace inp (key_end_index + 1) in
    let* c := char_at inp colon_index in
    if negb (c =? chr ":")%N then raise_invalid_json_error ExpectedColon inp index else
    let value_start_index := skip_whitespace inp (colon_index + 1) in
    let* (value, value_end_index) := parse_value inp value_start_index in
    let result := dict_setitem result key value in
    let next_character_index := skip_whitespace inp (value_end_index + 1) in
    let* c := char_at inp next_character_index in
    if (c =? chr ",")%N then
      let* c' := char_at inp (skip_whitespace inp (next_character_index + 1)) in
      if (c' =? chr "}")%N
      then raise_invalid_json_error TrailingComma inp (next_character_index + 1)
      else object_loop fuel' inp next_character_index result
    else
      if negb (c =? chr "}")%N
      then raise_invalid_json_error ExpectedCommaOrBracket inp next_character_index
      else object_loop fuel' inp next_character_index result
  end.

Definition parse_object (fuel : nat) (inp : str) (index : nat)
  : outcome (list (str * value) * nat) :=
  let* c := char_at inp index in
  if negb (c =? chr "{")%N then raise_invalid_json_error UnexpectedToken inp index else
  object_loop fuel inp index [].

(** The [while] loop of [parse_array]. *)
Fixpoint array_loop (fuel : nat) (inp : str) (index : nat)
    (result : list value) : outcome (list value * nat) :=
  match fuel with
  | O => OutOfFuel
  | S fuel' =>
    let* c := char_at inp index in
    if (c =? chr "]")%N then Ret (result, index) else
    let value_start_index := skip_whitespace inp (index + 1) in
    let* (value, value_end_index) := parse_value inp value_start_index in
    let result := result ++ [value] in
    let next_character_index := skip_whitespace inp (value_end_index + 1) in
    let* c := char_at inp next_character_index in
    if (c =? chr ",")%N then
      let* c' := char_at inp (skip_whitespace inp (next_character_index + 1)) in
      if (c' =? chr "]")%N
      then raise_invalid_json_error TrailingComma inp (next_character_index + 1)
      else array_loop fuel' inp next_character_index result
    else
      if negb (c =? chr "]")%N
      then raise_invalid_json_error ExpectedCommaOrBracket inp next_character_index
      else array_loop fuel' inp next_character_index result
  end.

Definition parse_array (fuel : nat) (inp : str) (index : nat)
  : outcome (list value * nat) :=
  let* c := char_at inp index in
  if negb (c =? chr "[")%N then raise_invalid_json_error UnexpectedToken inp index else
  array_loop fuel inp index [].

End Containers.

(** ** Dispatcher and entry point *)

(** [fuel] bounds the calls and the iterations of the loops; it is a
    device of the model.  [depth] is the number of nested containers the
    call stack of the interpreter still has room for.  A container takes
    two frames, for the dispatcher and for its parser, and the first
    statement of its loop three more, for [skip_whitespace], [re.compile]
    and the function that [re.compile] calls; no call made for a scalar
    goes deeper than that.  So the stack runs out only where a container is
    opened, before its loop reads anything, and [RecursionError], which no
    handler of the module catches, is raised there. *)
Fixpoint _parse_json (fuel depth : nat) (inp : str) (index : nat)
  : outcome (value * nat) :=
  match fuel with
  | O => OutOfFuel
  | S fuel' =>
    let* first_char := char_at inp index in
    if (first_char =? chr "{")%N then
      match depth with
      | O => Raise RecursionError
      | S depth' =>
        let* (d, e) := parse_object (_parse_json fuel' depth') fuel' inp index in
        Ret (VDict d, e)
      end
    else if (first_char =? chr "[")%N then
      match depth with
      | O => Raise RecursionError
      | S depth' =>
        let* (l, e) := parse_array (_parse_json fuel' depth') fuel' inp index in
        Ret (VList l, e)
      end
    else if (first_char =? QUOTE)%N then
      let* (s, e) := parse_string inp index in Ret (VStr s, e)
    else if (first_char =? chr "t")%N then
      let* (b, e) := parse_true inp index in Ret (VBool b, e)
    else if (first_char =? chr "f")%N then
      let* (b, e) := parse_false inp index in Ret (VBool b, e)
    else if (first_char =? chr "n")%N then
      let* (_, e) := parse_null inp index in Ret (VNone, e)
    else parse_number inp index
  end.

(** [except IndexError]: the handler of [parse_json]. *)
Definition except_IndexError {A} (m : outcome A) (handler : outcome A) : outcome A :=
  match m with
  | Raise IndexError => handler
  | _ => m
  end.

(** Every call and every iteration moves the offset forward, so a budget of
    one more than the length of the input is never used up (see
    [parse_json_total]).  [stack] is the number of nested containers the
    call stack has room for when the entry point is called. *)
Definition parse_json (stack : nat) (json_string : str) : outcome value :=
  let start_index := skip_whitespace json_string 0 in
  if length json_string <=? start_index
  then raise_invalid_json_error EmptyInput json_string start_index else
  let* first_char := char_at json_string start_index in
  if negb (char_in first_char "{[")
  then raise_invalid_json_error InvalidRoot json_string start_index else
  except_IndexError
    (let* (result, index) :=
       _parse_json (S (length json_string)) stack json_string start_index in
     let index := skip_whitespace json_string (index + 1) in
     if index <? length json_string
     then raise_invalid_json_error TrailingContent json_string index
     else Ret result)
    (raise_invalid_json_error UnexpectedEndOfInput json_string (length json_string)).

End Decoder.

(** The interpreter whose name table has no entry, for closed examples. *)
Definition empty_name_table : list N -> option char := fun _ => None.

(** * Vocabulary of the properties *)

(** ** Number lexemes *)

(** The number of dots of [s]. *)
Fixpoint dot_count (s : str) : nat :=
  match s with
  | [] => 0
  | c :: s' => (if (c =? chr ".")%N then 1 else 0) + dot_count s'
  end.

(** Every [.] of [s] has a digit after it. *)
Fixpoint dots_followed_by_digit (s : str) : bool :=
  match s with
  | [] => true
  | c :: s' =>
      (if (c =? chr ".")%N
       then match s' with c' :: _ => is_digit c' | [] => false end
       else true)
      && dots_followed_by_digit s'
  end.

(** The characters the loop of the number parser consumes. *)
Definition is_number_char (c : char) : bool := char_in c "0123456789.".

(** ** Results of the parsers *)

(** [sound inp index r] says of a result [r] obtained at offset [index]:
    a returned end offset lies between [index] and the last character; a
    parse error carries the default message for the input and some offset;
    no [ValueError] is left unhandled. *)
Definition sound {A} (inp : str) (index : nat) (r : outcome (A * nat)) : Prop :=
  match r with
  | Ret (_, e) => index <= e < length inp
  | Raise (InvalidJSONError _ msg) => exists i, msg = unexpected_token_message inp i
  | Raise ValueError => False
  | Raise _ => True
  | OutOfFuel => True
  end.

(** The codec returns a string or raises [UnicodeDecodeError]. *)
Definition decoded (r : outcome (list N)) : Prop :=
  (exists s, r = Ret s) \/ r = Raise UnicodeDecodeError.

(** ** String literals *)

(** The content of a JSON string literal: characters and escapes. *)
Inductive json_escape :=
| EscQuote
| EscBackslash
| EscSlash
| EscB
| EscF
| EscN
| EscR
| EscT
| EscU (h1 h2 h3 h4 : char).

Inductive piece :=
| Plain (c : char)
| Escaped (e : json_escape).

(** The text of an escape in the document. *)
Definition escape_source (e : json_escape) : str :=
  match e with
  | EscQuote => [chr "\"; QUOTE]
  | EscBackslash => [chr "\"; chr "\"]
  | EscSlash => [chr "\"; chr "/"]
  | EscB => [chr "\"; chr "b"]
  | EscF => [chr "\"; chr "f"]
  | EscN => [chr "\"; chr "n"]
  | EscR => [chr "\"; chr "r"]
  | EscT => [chr "\"; chr "t"]
  | EscU h1 h2 h3 h4 => [chr "\"; chr "u"; h1; h2; h3; h4]
  end.

(** The character a JSON escape denotes. *)
Definition escape_char (e : json_escape) : char :=
  match e with
  | EscQuote => QUOTE
  | EscBackslash => chr "\"
  | EscSlash => chr "/"
  | EscB => 8%N
  | EscF => 12%N
  | EscN => 10%N
  | EscR => 13%N
  | EscT => 9%N
  | EscU h1 h2 h3 h4 => default 0%N (hex_value [h1; h2; h3; h4] 0)
  end.

Definition piece_source (p : piece) : str :=
  match p with
  | Plain c => [c]
  | Escaped e => escape_source e
  end.

Definition piece_char (p : piece) : char :=
  match p with
  | Plain c => c
  | Escaped e => escape_char e
  end.

Definition literal_source (ps : list piece) : str := concat (map piece_source ps).
Definition literal_value (ps : list piece) : str := map piece_char ps.

Definition is_hex (c : char) : bool :=
  match hex_digit c with Some _ => true | None => false end.

(** A well-formed piece: a character other than the quote and the
    backslash, or an escape whose [\u] has four hexadecimal digits. *)
Definition piece_wf (p : piece) : bool :=
  match p with
  | Plain c => negb (c =? QUOTE)%N && negb (c =? chr "\")%N
  | Escaped (EscU h1 h2 h3 h4) => is_hex h1 && is_hex h2 && is_hex h3 && is_hex h4
  | Escaped _ => true
  end.

(** The pieces the string parser resolves as JSON does: ASCII characters
    and every escape but [\/]. *)
Definition piece_supported (p : piece) : bool :=
  piece_wf p &&
  match p with
  | Plain c => (c <? 128)%N
  | Escaped EscSlash => false
  | Escaped _ => true
  end.

Definition is_ascii (c : char) : bool := (c <? 128)%N.

(** ** Pairs of an object *)

(** The value of the last pair of [ms] whose key is [k]. *)
Fixpoint last_binding (ms : list (str * value)) (k : str) : option value :=
  match ms with
  | [] => None
  | (k', v) :: ms' =>
      match last_binding ms' k with
      | Some v' => Some v'
      | None => if str_eqb k' k then Some v else None
      end
  end.

(** The stores [result[key] = value] of the pairs [ms], in order. *)
Definition store_all (ms : list (str * value)) (result : list (str * value))
  : list (str * value) :=
  fold_left (fun d kv => dict_setitem d kv.1 kv.2) ms result.

(** [object_members names pv inp i ms e]: the text after offset [i] (the
    opening brace, or the comma after a pair) reads the pairs [ms], each a
    key parsed by [parse_string], a colon and a value parsed by [pv],
    separated by commas, up to the closing brace at offset [e]. *)
Inductive object_members (names : list N -> option char)
    (pv : str -> nat -> outcome (value * nat)) (inp : str)
  : nat -> list (str * value) -> nat -> Prop :=
| members_last (i : nat) (key : str) (ke : nat) (v : value) (e : nat) :
    parse_string names inp (skip_whitespace inp (i + 1)) = Ret (key, ke) ->
    char_at inp (skip_whitespace inp (ke + 1)) = Ret (chr ":") ->
    pv inp (skip_whitespace inp (skip_whitespace inp (ke + 1) + 1)) = Ret (v, e) ->
    char_at inp (skip_whitespace inp (e + 1)) = Ret (chr "}") ->
    object_members names pv inp i [(key, v)] (skip_whitespace inp (e + 1))
| members_more (i : nat) (key : str) (ke : nat) (v : value) (e : nat) (c' : char)
    (ms : list (str * value)) (e' : nat) :
    parse_string names inp (skip_whitespace inp (i + 1)) = Ret (key, ke) ->
    char_at inp (skip_whitespace inp (ke + 1)) = Ret (chr ":") ->
    pv inp (skip_whitespace inp (skip_whitespace inp (ke + 1) + 1)) = Ret (v, e) ->
    char_at inp (skip_whitespace inp (e + 1)) = Ret (chr ",") ->
    char_at inp (skip_whitespace inp (skip_whitespace inp (e + 1) + 1)) = Ret c' ->
    c' <> chr "}" ->
    object_members names pv inp (skip_whitespace inp (e + 1)) ms e' ->
    object_members names pv inp i ((key, v) :: ms) e'.

(** ** The reference encoder *)

(** [", ".join(parts)] *)
Fixpoint join_comma (parts : list str) : str :=
  match parts with
  | [] => []
  | [x] => x
  | x :: rest => x ++ py ", " ++ join_comma rest
  end.

Definition hex_char (d : N) : char := (if d <? 10 then 48 + d else 87 + d)%N.

(** The four lower-case hexadecimal digits of a code point below 65536. *)
Definition hex4 (c : N) : str :=
  [hex_char (c / 4096); hex_char (c / 256 mod 16);
   hex_char (c / 16 mod 16); hex_char (c mod 16)]%N.

(** One character of a string, as [json.dumps] writes it with its default
    [ensure_ascii]: the short escapes, the printable ASCII characters as
    they are, [\uXXXX] for the rest, a surrogate pair above the basic
    plane. *)
Definition encode_char (c : char) : str :=
  if (c =? QUOTE)%N then [chr "\"; QUOTE]
  else if (c =? chr "\")%N then [chr "\"; chr "\"]
  else if (c =? 10)%N then [chr "\"; chr "n"]
  else if (c =? 13)%N then [chr "\"; chr "r"]
  else if (c =? 9)%N then [chr "\"; chr "t"]
  else if (c =? 12)%N then [chr "\"; chr "f"]
  else if (c =? 8)%N then [chr "\"; chr "b"]
  else if ((32 <=? c) && (c <=? 126))%N then [c]
  else if (c <? 65536)%N then chr "\" :: chr "u" :: hex4 c
  else
    let n := (c - 65536)%N in
    (chr "\" :: chr "u" :: hex4 (55296 + n / 1024))
    ++ (chr "\" :: chr "u" :: hex4 (56320 + n mod 1024)).

Definition encode_basestring_ascii (s : str) : str :=
  QUOTE :: flat_map encode_char s ++ [QUOTE].

(** A number must be followed by a character that ends its lexeme. *)
Definition needs_stop (v : value) : bool :=
  match v with
  | VInt _ | VFloat _ => true
  | _ => false
  end.

Definition stops (rest : str) : Prop :=
  exists c r, rest = c :: r /\ is_number_char c = false.

Section Encoder.

(** [float.__repr__] on finite floats, the shortest decimal text that
    reads back as the same float; it belongs to the interpreter, not to the
    repository. *)
Variable float_repr : spec_float -> str.

(** The text of a float: the encoder has names of its own for the values
    that are not finite and calls [float.__repr__] on the others. *)
Definition float_text (f : spec_float) : str :=
  match f with
  | S754_nan => py "NaN"
  | S754_infinity false => py "Infinity"
  | S754_infinity true => py "-Infinity"
  | _ => float_repr f
  end.

(** The text that [json.dumps(v)] writes, with its default separators,
    when it writes one (see [json_dumps]). *)
Fixpoint json_text (v : value) : str :=
  match v with
  | VNone => py "null"
  | VBool true => py "true"
  | VBool false => py "false"
  | VInt n => (if (n <? 0)%Z then [chr "-"] else []) ++ str_of_N (Z.abs_N n)
  | VFloat f => float_text f
  | VStr s => encode_basestring_ascii s
  | VList items => chr "[" :: join_comma (map json_text items) ++ [chr "]"]
  | VDict members =>
      chr "{"
      :: join_comma
           (map (fun kv => encode_basestring_ascii kv.1 ++ py ": " ++ json_text kv.2)
                members)
      ++ [chr "}"]
  end.

(** The first fault of a list of results, if any. *)
Fixpoint first_fault (faults : list (option exn)) : option exn :=
  match faults with
  | [] => None
  | Some x :: _ => Some x
  | None :: faults' => first_fault faults'
  end.

(** The exception that stops the encoder, if any, the first it meets in the
    order in which it writes.  An integer of more digits than
    [int_max_str_digits] cannot be converted to text, and the encoder
    guards every list and dict it enters with a recursion check: [levels]
    is the number of nested containers that check still allows. *)
Fixpoint encoder_fault (levels : nat) (v : value) : option exn :=
  match v with
  | VInt n =>
      if int_max_str_digits <? length (str_of_N (Z.abs_N n))
      then Some ValueError else None
  | VList items =>
      match levels with
      | O => Some RecursionError
      | S levels' => first_fault (map (encoder_fault levels') items)
      end
  | VDict members =>
      match levels with
      | O => Some RecursionError
      | S levels' => first_fault (map (fun kv => encoder_fault levels' kv.2) members)
      end
  | _ => None
  end.

(** [json.dumps(v)]: the text, or the exception that stopped the encoder. *)
Definition json_dumps (levels : nat) (v : value) : outcome str :=
  match encoder_fault levels v with
  | Some x => Raise x
  | None => Ret (json_text v)
  end.

(** The number of containers nested in one another in [v]. *)
Fixpoint nesting (v : value) : nat :=
  match v with
  | VList items => S (list_max (map nesting items))
  | VDict members => S (list_max (map (fun kv => nesting kv.2) members))
  | _ => 0
  end.

(** A decimal with digits on both sides of its one dot, as [12.5]. *)
Definition plain_decimal (s : str) : bool :=
  match s with
  | d :: lexeme =>
      is_digit d && forallb is_number_char lexeme
      && (dot_count s =? 1) && dots_followed_by_digit s
  | [] => false
  end.

Definition float_same (a b : spec_float) : bool :=
  match a, b with
  | S754_zero s, S754_zero s' => Bool.eqb s s'
  | S754_infinity s, S754_infinity s' => Bool.eqb s s'
  | S754_nan, S754_nan => true
  | S754_finite s m e, S754_finite s' m' e' =>
      Bool.eqb s s' && (m =? m')%positive && (e =? e')%Z
  | _, _ => false
  end.

Definition is_bmp (c : char) : bool := (c <? 65536)%N.

(** The value trees that the decoder reads back from the encoder's text:
    no [false], no negative integer and none of more digits than [int]
    converts, floats printed as plain decimals that read back as
    themselves, strings and keys within the basic plane, no empty list or
    dict, no key twice in a dict. *)
Fixpoint supported (v : value) : bool :=
  match v with
  | VNone => true
  | VBool b => b
  | VInt n => (0 <=? n)%Z && (length (str_of_N (Z.abs_N n)) <=? int_max_str_digits)
  | VFloat f =>
      plain_decimal (float_text f)
      && match py_float (float_text f) with
         | Ret f' => float_same f' f
         | _ => false
         end
  | VStr s => forallb is_bmp s
  | VList items =>
      match items with [] => false | _ => forallb supported items end
  | VDict members =>
      match members with
      | [] => false
      | _ =>
          forallb (fun kv => forallb is_bmp kv.1 && supported kv.2) members
          && bool_decide (NoDup (map fst members))
      end
  end.

(** The root of a document is a list or a dict. *)
Definition is_container (v : value) : bool :=
  match v with
  | VList _ | VDict _ => true
  | _ => false
  end.

(** The text of one pair of a dict. *)
Definition member_text (kv : str * value) : str :=
  encode_basestring_ascii kv.1 ++ [chr ":"; chr " "] ++ json_text kv.2.

(** [pv] reads the value [x] back from its text, anywhere after [index0]
    in [inp]. *)
Definition reads_back (pv : str -> nat -> outcome (value * nat)) (inp : str)
    (index0 : nat) (x : value) : Prop :=
  forall (index : nat) (rest : str),
    index0 < index ->
    drop index inp = json_text x ++ rest ->
    stops rest ->
    pv inp index = Ret (x, index + length (json_text x) - 1).

End Encoder.

(** The floats [3.5], [0.1] and [1e-07]. *)
Definition float_3_5 : spec_float := S754_finite false 7881299347898368 (-51).
Definition float_0_1 : spec_float := S754_finite false 7205759403792794 (-56).
Definition float_1e_07 : spec_float := S754_finite false 7555786372591432 (-76).

(** A few entries of [float.__repr__], for closed examples. *)
Definition repr_table (f : spec_float) : str :=
  if float_same f float_3_5 then py "3.5"
  else if float_same f float_0_1 then py "0.1"
  else if float_same f float_1e_07 then py "1e-07"
  else py "nan".

(** A value tree with every supported kind of leaf, for closed examples. *)
Definition sample_tree : value :=
  VDict [(py "a", VList [VInt 12; VNone; VBool true;
                         VStr [233; 10; 34; 127; 65535]%N]);
         (py "b c", VDict [(py "'", VFloat float_3_5)])].

(** The piece of a string literal that [encode_char] writes for a character
    of the basic plane. *)
Definition piece_of_char (c : char) : piece :=
  if (c =? QUOTE)%N then Escaped EscQuote
  else if (c =? chr "\")%N then Escaped EscBackslash
  else if (c =? 10)%N then Escaped EscN
  else if (c =? 13)%N then Escaped EscR
  else if (c =? 9)%N then Escaped EscT
  else if (c =? 12)%N then Escaped EscF
  else if (c =? 8)%N then Escaped EscB
  else if ((32 <=? c) && (c <=? 126))%N then Plain c
  else Escaped (EscU (hex_char (c / 4096)) (hex_char (c / 256 mod 16))
                     (hex_char (c / 16 mod 16)) (hex_char (c mod 16)))%N.

(** ** Elements of an array *)

(** [array_elements pv inp i vs e]: the text after offset [i] (the opening
    bracket, or the comma after an element) reads the values [vs], each
    parsed by [pv], separated by commas, up to the closing bracket at
    offset [e]. *)
Inductive array_elements (pv : str -> nat -> outcome (value * nat)) (inp : str)
  : nat -> list value -> nat -> Prop :=
| elements_last (i : nat) (v : value) (e : nat) :
    pv inp (skip_whitespace inp (i + 1)) = Ret (v, e) ->
    char_at inp (skip_whitespace inp (e + 1)) = Ret (chr "]") ->
    array_elements pv inp i [v] (skip_whitespace inp (e + 1))
| elements_more (i : nat) (v : value) (e : nat) (c' : char) (vs : list value) (e' : nat) :
    pv inp (skip_whitespace inp (i + 1)) = Ret (v, e) ->
    char_at inp (skip_whitespace inp (e + 1)) = Ret (chr ",") ->
    char_at inp (skip_whitespace inp (skip_whitespace inp (e + 1) + 1)) = Ret c' ->
    c' <> chr "]" ->
    array_elements pv inp (skip_whitespace inp (e + 1)) vs e' ->
    array_elements pv inp i (v :: vs) e'.

(** ** Shape of the decoded values *)

(** The character at which the text of a value of the kind of [v] starts. *)
Definition opens_with (v : value) (c : char) : bool :=
  match v with
  | VDict _ => (c =? chr "{")%N
  | VList _ => (c =? chr "[")%N
  | VStr _ => (c =? QUOTE)%N
  | VBool b => if b then (c =? chr "t")%N else (c =? chr "f")%N
  | VNone => (c =? chr "n")%N
  | VInt _ | VFloat _ => is_digit c
  end.

(** The last character of the text of a value of the kind of [v]. *)
Definition closes_with (v : value) (c : char) : bool :=
  match v with
  | VDict _ => (c =? chr "}")%N
  | VList _ => (c =? chr "]")%N
  | VStr _ => (c =? QUOTE)%N
  | VBool _ => (c =? chr "e")%N
  | VNone => (c =? chr "l")%N
  | VInt _ | VFloat _ => is_digit c
  end.

(** The value trees the decoder can build: no [False], no negative
    integer, no empty list or dict, no key twice in a dict. *)
Fixpoint produced (v : value) : bool :=
  match v with
  | VBool b => b
  | VInt n => (0 <=? n)%Z
  | VList items =>
      match items with [] => false | _ => forallb produced items end
  | VDict members =>
      match members with
      | [] => false
      | _ =>
          forallb (fun kv => produced kv.2) members
          && bool_decide (NoDup (map fst members))
      end
  | _ => true
  end.

(** ** Exceptions that leave the decoder *)

(** The code points that UTF-8 does not encode. *)
Definition is_surrogate (c : char) : bool := ((55296 <=? c) && (c <=? 57343))%N.

(** The number of opening braces and brackets of [s]. *)
Fixpoint openers (s : str) : nat :=
  match s with
  | [] => 0
  | c :: s' => (if char_in c "{[" then 1 else 0) + openers s'
  end.

(** [escapes stack inp x]: what the exception [x] says of the document
    [inp] it was raised for, when the entry point was called with room for
    [stack] nested containers.  A codec error of the string parser points
    at a character of the document, and the stack runs out only on a
    document that opens more containers than it has room for;
    [IndexError] and the [ValueError] of [int] and [float] are handled
    inside. *)
Definition escapes (stack : nat) (inp : str) (x : exn) : Prop :=
  match x with
  | InvalidJSONError _ _ => True
  | UnicodeEncodeError => exists c, c ∈ inp /\ is_surrogate c = true
  | UnicodeDecodeError => chr "\" ∈ inp
  | RecursionError => stack < openers inp
  | IndexError | ValueError => False
  end.

(** Inside the [try] block of the entry point an [IndexError] may still be
    on its way to the handler, and a call made at offset [index] with room
    for [depth] containers runs out of stack only when more than [depth]
    containers are opened from that offset on. *)
Definition traced {A} (depth : nat) (inp : str) (index : nat) (r : outcome A) : Prop :=
  forall x, r = Raise x ->
    match x with
    | IndexError => True
    | RecursionError => depth < openers (drop index inp)
    | _ => escapes depth inp x
    end.

(** * Properties *)

(** ** The exception monad *)

Lemma bind_Ret_inv {A B} (m : outcome A) (k : A -> outcome B) (b : B) :
  bind m k = Ret b -> exists a, m = Ret a /\ k a = Ret b.
Proof. destruct m as [a| |]; simpl; intros H; [eauto | discriminate..]. Qed.

Lemma bind_Raise_inv {A B} (m : outcome A) (k : A -> outcome B) (e : exn) :
  bind m k = Raise e -> m = Raise e \/ exists a, m = Ret a /\ k a = Raise e.
Proof. destruct m as [a| |]; simpl; intros H; [eauto | left; congruence | discriminate]. Qed.

Lemma bind_OutOfFuel_inv {A B} (m : outcome A) (k : A -> outcome B) :
  bind m k = OutOfFuel -> m = OutOfFuel \/ exists a, m = Ret a /\ k a = OutOfFuel.
Proof. destruct m as [a| |]; simpl; intros H; [eauto | discriminate | by left]. Qed.

(** Closes an equation between two results that differ in their offsets. *)
Ltac eq_ret :=
  repeat match goal with
    | |- Ret _ = Ret _ => f_equal
    | |- (_, _) = (_, _) => f_equal
    | |- @eq nat _ _ => lia
    end.

(** Linear arithmetic after naming the quotients and remainders. *)
Ltac lia_divmod :=
  repeat match goal with
    | |- context [(?a mod ?b)%N] =>
        let r := fresh "r" in set (r := (a mod b)%N) in *; clearbody r
    | H : context [(?a mod ?b)%N] |- _ =>
        let r := fresh "r" in set (r := (a mod b)%N) in *; clearbody r
    | |- context [(?a / ?b)%N] =>
        let q := fresh "q" in set (q := (a / b)%N) in *; clearbody q
    | H : context [(?a / ?b)%N] |- _ =>
        let q := fresh "q" in set (q := (a / b)%N) in *; clearbody q
    end;
  lia.

(** ** Reading the input *)

Lemma char_at_Ret (inp : str) (i : nat) (c : char) :
  char_at inp i = Ret c <-> inp !! i = Some c.
Proof. unfold char_at. destruct (inp !! i); split; congruence. Qed.

Lemma char_at_lt (inp : str) (i : nat) (c : char) :
  char_at inp i = Ret c -> i < length inp.
Proof. rewrite char_at_Ret. apply lookup_lt_Some. Qed.

Lemma char_at_drop (inp : str) (i : nat) (c : char) (r : str) :
  drop i inp = c :: r -> char_at inp i = Ret c.
Proof.
  intros H. apply char_at_Ret.
  rewrite <- (Nat.add_0_r i), <- lookup_drop, H. done.
Qed.

Lemma drop_char_at (inp : str) (i : nat) (c : char) :
  char_at inp i = Ret c -> drop i inp = c :: drop (S i) inp.
Proof. rewrite char_at_Ret. apply drop_S. Qed.

Lemma drop_next (inp : str) (i : nat) (c : char) (r : str) :
  drop i inp = c :: r -> drop (i + 1) inp = r.
Proof.
  intros H. rewrite <- drop_drop, H. done.
Qed.

Lemma drop_skip (inp : str) (i : nat) (a r : str) :
  drop i inp = a ++ r -> drop (i + length a) inp = r.
Proof.
  intros H. rewrite <- drop_drop, H. apply drop_app_length.
Qed.

(** ** C1: the literal parsers *)

Lemma parse_false_never_returns (inp : str) (index : nat) (r : bool * nat) :
  parse_false inp index <> Ret r.
Proof.
  unfold parse_false. intros H.
  apply bind_Ret_inv in H as (c & Hc & H).
  destruct (c =? chr "f")%N eqn:Hf; simpl in H; [|discriminate].
  apply N.eqb_eq in Hf. subst c.
  apply drop_char_at in Hc. unfold slice in H. rewrite Hc in H.
  replace (index + 5 - index) with 5 in H by lia. simpl in H.
  discriminate.
Qed.

(** C1: the false-literal parser compares the five characters at the offset
    with the keyword [true], so it returns at no input and no offset; the
    document [[1, 2, 3.5, "x", true, false, null]] is rejected at the
    offset of [false], whenever the stack has room for its one level. *)
Theorem parse_false_rejects_false (names : list N -> option char) (stack : nat) :
  (forall inp index r, parse_false inp index <> Ret r)
  /\ parse_false (py "false") 0
     = Raise (InvalidJSONError InvalidLiteral (unexpected_token_message (py "false") 0))
  /\ parse_json names (S stack) (py "[1, 2, 3.5, 'x', true, false, null]")
     = Raise (InvalidJSONError InvalidLiteral
                (unexpected_token_message (py "[1, 2, 3.5, 'x', true, false, null]") 23)).
Proof.
  split; [apply parse_false_never_returns|].
  split; vm_compute; reflexivity.
Qed.

(** ** C2: empty containers *)

(** C2: on the documents [{}] and [[]] the loops do not terminate on the
    closing bracket: the first iteration starts at the opening bracket and
    parses a key, or a value, at the closing one, which fails. *)
Theorem empty_containers_rejected (names : list N -> option char) (stack : nat) :
  parse_json names (S stack) (py "{}")
  = Raise (InvalidJSONError UnexpectedToken (unexpected_token_message (py "{}") 1))
  /\ parse_json names (S stack) (py "[]")
     = Raise (InvalidJSONError InvalidNumber (unexpected_token_message (py "[]") 1)).
Proof. split; vm_compute; reflexivity. Qed.

(** The document of the module's own test is decoded. *)
Example main_block_document (names : list N -> option char) (stack : nat) :
  parse_json names (S (S (S stack)))
    (py "{'hello': 'world\nworld\thi there', 'hi': 123, 'how': 56.8, 'are': [1, 2, 3, 5.7, 'x', 'y', 'zed', {'a': 1, 'b': 2, 'c': 3}], 'you': {'a': 56, 'bee': 'hen', 'cee': 90}}")
  = Ret (VDict
           [(py "hello", VStr (py "world" ++ [10%N] ++ py "world" ++ [9%N] ++ py "hi there"));
            (py "hi", VInt 123);
            (py "how", VFloat (float_of_ratio 568 10));
            (py "are",
             VList [VInt 1; VInt 2; VInt 3; VFloat (float_of_ratio 57 10);
                    VStr (py "x"); VStr (py "y"); VStr (py "zed");
                    VDict [(py "a", VInt 1); (py "b", VInt 2); (py "c", VInt 3)]]);
            (py "you",
             VDict [(py "a", VInt 56); (py "bee", VStr (py "hen")); (py "cee", VInt 90)])]).
Proof. vm_compute. reflexivity. Qed.

(** ** C9: exceptions that escape the entry point *)

(** C9: a truncated [\u] escape in a string literal makes the codec raise
    [UnicodeDecodeError], and a lone surrogate in a string literal makes
    the UTF-8 encoder raise [UnicodeEncodeError]; no handler converts
    them. *)
Theorem malformed_escape_escapes (names : list N -> option char) (stack : nat) :
  parse_json names (S stack) (py "['\u12']") = Raise UnicodeDecodeError
  /\ parse_json names (S stack) [chr "["; QUOTE; 55296%N; QUOTE; chr "]"]
     = Raise UnicodeEncodeError.
Proof. split; vm_compute; reflexivity. Qed.

(** ** C6, C10: the number parser *)

Lemma is_number_char_cases (c : char) :
  is_number_char c = is_digit c || (c =? chr ".")%N.
Proof.
  unfold is_number_char, is_digit, char_in. simpl.
  repeat (destruct (N.eqb c _); [reflexivity|]). reflexivity.
Qed.

Lemma is_digit_not_dot (c : char) : is_digit c = true -> (c =? chr ".")%N = false.
Proof.
  unfold is_digit, char_in. simpl. intros H.
  destruct (c =? chr ".")%N eqn:E; [|done].
  apply N.eqb_eq in E. subst c. discriminate.
Qed.

Lemma number_loop_accepts (inp : str) (stop : char) (rest : str) (lex : str) :
  forall (rs : str) (dc index : nat),
    forallb is_number_char lex = true ->
    is_number_char stop = false ->
    dc + dot_count lex <= 1 ->
    dots_followed_by_digit (lex ++ [stop]) = true ->
    number_loop inp (lex ++ stop :: rest) index rs dc
    = Ret (rs ++ lex, dc + dot_count lex, index + length lex).
Proof.
  induction lex as [|c lex IH]; intros rs dc index Hall Hstop Hdc Hok.
  - simpl. fold (is_number_char stop). rewrite Hstop.
    rewrite app_nil_r, !Nat.add_0_r. reflexivity.
  - simpl in Hall. apply andb_prop in Hall as [Hc Hall].
    cbn [dot_count] in Hdc.
    cbn [dots_followed_by_digit app] in Hok. apply andb_prop in Hok as [Hdot Hok].
    cbn [app number_loop]. fold (is_number_char c). rewrite Hc.
    cbn [dot_count length].
    destruct (c =? chr ".")%N eqn:E.
    + assert (dc = 0) by lia. subst dc.
      replace (1 <? 0 + 1) with false by reflexivity.
      destruct lex as [|c' lex].
      * simpl in Hdot. rewrite is_number_char_cases, Hdot in Hstop. discriminate.
      * cbn [app] in *.
        change (char_in c' "0123456789") with (is_digit c'). rewrite Hdot.
        cbn [negb].
        rewrite (IH _ _ _ Hall Hstop) by (cbn [dot_count] in *; first [lia | done]).
        rewrite <- app_assoc. simpl. eq_ret.
    + rewrite (IH _ _ _ Hall Hstop) by (first [lia | done]).
      rewrite <- app_assoc. simpl. eq_ret.
Qed.

Lemma number_loop_rejects (inp : str) (stop : char) (rest : str) (lex : str) :
  forall (rs : str) (dc index : nat),
    forallb is_number_char lex = true ->
    is_number_char stop = false ->
    dc <= 1 ->
    2 <= dc + dot_count lex \/ dots_followed_by_digit (lex ++ [stop]) = false ->
    exists i, number_loop inp (lex ++ stop :: rest) index rs dc
              = raise_invalid_json_error InvalidNumber inp i.
Proof.
  induction lex as [|c lex IH]; intros rs dc index Hall Hstop Hdc Hbad.
  - exfalso. destruct Hbad as [Hbad|Hbad]; [simpl in Hbad; lia|].
    rewrite is_number_char_cases in Hstop. apply orb_false_elim in Hstop as [_ Hstop].
    simpl in Hbad. rewrite Hstop in Hbad. discriminate.
  - simpl in Hall. apply andb_prop in Hall as [Hc Hall].
    cbn [dot_count] in Hbad. cbn [dots_followed_by_digit app] in Hbad.
    cbn [app number_loop]. fold (is_number_char c). rewrite Hc.
    destruct (c =? chr ".")%N eqn:E.
    + destruct (1 <? dc + 1) eqn:Hlt; [eauto|].
      apply Nat.ltb_ge in Hlt. assert (dc = 0) by lia. subst dc.
      destruct lex as [|c' lex]; cbn [app] in *.
      * change (char_in stop "0123456789") with (is_digit stop).
        rewrite is_number_char_cases in Hstop.
        apply orb_false_elim in Hstop as [Hstop _]. rewrite Hstop. cbn [negb]. eauto.
      * change (char_in c' "0123456789") with (is_digit c').
        destruct (is_digit c') eqn:Hd; cbn [negb]; [|eauto].
        apply IH; [done..|lia|].
        destruct Hbad as [Hbad|Hbad]; [left; lia|right].
        simpl in Hbad. exact Hbad.
    + apply IH; [done..|].
      destruct Hbad as [Hbad|Hbad]; [left; lia|right].
      simpl in Hbad. exact Hbad.
Qed.

Lemma digits_only (s : str) :
  forallb is_number_char s = true -> dot_count s = 0 -> forallb is_digit s = true.
Proof.
  induction s as [|c s IH]; [done|]. simpl. intros Hall Hdc.
  apply andb_prop in Hall as [Hc Hall].
  destruct (c =? chr ".")%N eqn:E; [lia|].
  rewrite is_number_char_cases, E, orb_false_r in Hc. rewrite Hc. simpl.
  apply IH; [done|lia].
Qed.

Lemma py_int_digits (s : str) :
  forallb is_digit s = true -> s <> [] ->
  length s <= int_max_str_digits ->
  py_int s = Ret (Z.of_N (digits_value s)).
Proof.
  intros Hall Hne Hlen. unfold py_int. rewrite Hall.
  unfold str_eqb. rewrite bool_decide_eq_false_2 by done.
  apply Nat.leb_le in Hlen. rewrite Hlen. reflexivity.
Qed.

Lemma py_int_long (s : str) :
  int_max_str_digits < length s -> py_int s = Raise ValueError.
Proof.
  intros Hlen. unfold py_int. apply Nat.leb_gt in Hlen. rewrite Hlen.
  by rewrite andb_false_r.
Qed.

Lemma split_dot_digits (s : str) :
  forallb is_number_char s = true -> dot_count s <= 1 ->
  forallb is_digit (split_dot s).1 = true
  /\ forallb is_digit (default [] (split_dot s).2) = true.
Proof.
  induction s as [|c s IH]; [done|]. simpl. intros Hall Hdc.
  apply andb_prop in Hall as [Hc Hall].
  destruct (c =? chr ".")%N eqn:E.
  - simpl. split; [done|]. apply digits_only; [done|lia].
  - destruct (split_dot s) as [a b] eqn:Hs. simpl in *.
    rewrite is_number_char_cases, E, orb_false_r in Hc. rewrite Hc. simpl.
    apply IH; [done|lia].
Qed.

Lemma py_float_decimal (d : char) (s : str) :
  is_digit d = true ->
  forallb is_number_char s = true -> dot_count s <= 1 ->
  exists f, py_float (d :: s) = Ret f.
Proof.
  intros Hd Hall Hdc. unfold py_float. simpl.
  rewrite (is_digit_not_dot d Hd).
  destruct (split_dot_digits s Hall Hdc) as [Ha Hb].
  destruct (split_dot s) as [a b]. simpl in *.
  rewrite Hd, Ha, Hb. simpl. eauto.
Qed.

Lemma is_digit_range (c : char) : is_digit c = true <-> (48 <= c <= 57)%N.
Proof.
  unfold is_digit, char_in. simpl. split.
  - intros H.
    repeat match type of H with
      | ((c =? ?a)%N || _) = true =>
          let E := fresh "E" in
          destruct (c =? a)%N eqn:E;
          [apply N.eqb_eq in E; subst c; vm_compute; split; discriminate
          | cbn [orb] in H; clear E]
      end.
    discriminate.
  - intros [H1 H2].
    assert (Hc : (c = 48 \/ c = 49 \/ c = 50 \/ c = 51 \/ c = 52 \/ c = 53 \/ c = 54
                  \/ c = 55 \/ c = 56 \/ c = 57)%N) by lia.
    repeat destruct Hc as [->|Hc]; try subst c; reflexivity.
Qed.

Lemma skip_whitespace_end (inp : str) (i : nat) :
  length inp <= i -> skip_whitespace inp i = length inp.
Proof.
  intros H. unfold skip_whitespace. rewrite Nat.min_r by done.
  rewrite drop_ge by done. reflexivity.
Qed.

Lemma skip_spaces_bounds (rest : str) (i : nat) :
  i <= skip_spaces rest i <= i + length rest.
Proof.
  revert i. induction rest as [|c rest IH]; intros i; simpl; [lia|].
  destruct (is_space c); [|lia]. specialize (IH (S i)). lia.
Qed.

Lemma skip_whitespace_bounds (inp : str) (i : nat) :
  Nat.min i (length inp) <= skip_whitespace inp i <= length inp.
Proof.
  unfold skip_whitespace.
  pose proof (skip_spaces_bounds (drop (Nat.min i (length inp)) inp) (Nat.min i (length inp))) as H.
  rewrite length_drop in H. lia.
Qed.

Lemma skip_whitespace_spaces (inp : str) (i : nat) (ws : str) (c : char) (r : str) :
  drop i inp = ws ++ c :: r ->
  forallb is_space ws = true -> is_space c = false ->
  skip_whitespace inp i = i + length ws.
Proof.
  intros H Hws Hc. unfold skip_whitespace.
  assert (i < length inp).
  { apply (f_equal length) in H. rewrite length_drop, length_app in H. simpl in H. lia. }
  rewrite Nat.min_l by lia. rewrite H. clear H.
  generalize i. induction ws as [|w ws IH]; intros j; simpl.
  - rewrite Hc. lia.
  - simpl in Hws. apply andb_prop in Hws as [Hw Hws]. rewrite Hw, IH by done. lia.
Qed.

Lemma skip_whitespace_stay (inp : str) (i : nat) (c : char) (r : str) :
  drop i inp = c :: r -> is_space c = false -> skip_whitespace inp i = i.
Proof.
  intros H Hc. rewrite (skip_whitespace_spaces inp i [] c r) by done. simpl. lia.
Qed.

(** The loops, one iteration at a time. *)
Section LoopRules.

Variable names : list N -> option char.
Variable pv : str -> nat -> outcome (value * nat).

Lemma array_loop_close (fuel : nat) (inp : str) (i : nat) (result : list value) :
  char_at inp i = Ret (chr "]") ->
  array_loop pv (S fuel) inp i result = Ret (result, i).
Proof. intros H. simpl. rewrite H. reflexivity. Qed.

Lemma array_loop_last (fuel : nat) (inp : str) (i : nat) (result : list value)
    (c : char) (v : value) (e : nat) :
  char_at inp i = Ret c -> c <> chr "]" ->
  pv inp (skip_whitespace inp (i + 1)) = Ret (v, e) ->
  char_at inp (skip_whitespace inp (e + 1)) = Ret (chr "]") ->
  array_loop pv (S (S fuel)) inp i result
  = Ret (result ++ [v], skip_whitespace inp (e + 1)).
Proof.
  intros Hc Hne Hv Hclose. cbn [array_loop]. rewrite Hc. cbn [bind].
  apply N.eqb_neq in Hne. rewrite Hne, Hv. cbn [bind]. rewrite Hclose. reflexivity.
Qed.

Lemma array_loop_more (fuel : nat) (inp : str) (i : nat) (result : list value)
    (c c' : char) (v : value) (e : nat) :
  char_at inp i = Ret c -> c <> chr "]" ->
  pv inp (skip_whitespace inp (i + 1)) = Ret (v, e) ->
  char_at inp (skip_whitespace inp (e + 1)) = Ret (chr ",") ->
  char_at inp (skip_whitespace inp (skip_whitespace inp (e + 1) + 1)) = Ret c' ->
  c' <> chr "]" ->
  array_loop pv (S fuel) inp i result
  = array_loop pv fuel inp (skip_whitespace inp (e + 1)) (result ++ [v]).
Proof.
  intros Hc Hne Hv Hcomma Hc' Hne'. cbn [array_loop]. rewrite Hc. cbn [bind].
  apply N.eqb_neq in Hne, Hne'. rewrite Hne, Hv. cbn [bind].
  rewrite Hcomma. cbn [bind]. rewrite Hc'. cbn [bind]. rewrite Hne'.
  reflexivity.
Qed.

Lemma object_loop_close (fuel : nat) (inp : str) (i : nat) (result : list (str * value)) :
  char_at inp i = Ret (chr "}") ->
  object_loop names pv (S fuel) inp i result = Ret (result, i).
Proof. intros H. simpl. rewrite H. reflexivity. Qed.

Lemma object_loop_last (fuel : nat) (inp : str) (i : nat) (result : list (str * value))
    (c : char) (key : str) (ke : nat) (v : value) (e : nat) :
  char_at inp i = Ret c -> c <> chr "}" ->
  parse_string names inp (skip_whitespace inp (i + 1)) = Ret (key, ke) ->
  char_at inp (skip_whitespace inp (ke + 1)) = Ret (chr ":") ->
  pv inp (skip_whitespace inp (skip_whitespace inp (ke + 1) + 1)) = Ret (v, e) ->
  char_at inp (skip_whitespace inp (e + 1)) = Ret (chr "}") ->
  object_loop names pv (S (S fuel)) inp i result
  = Ret (dict_setitem result key v, skip_whitespace inp (e + 1)).
Proof.
  intros Hc Hne Hk Hcolon Hv Hclose. cbn [object_loop]. rewrite Hc. cbn [bind].
  apply N.eqb_neq in Hne. rewrite Hne, Hk. cbn [bind]. rewrite Hcolon. cbn [bind].
  rewrite N.eqb_refl. cbn [negb]. rewrite Hv. cbn [bind]. rewrite Hclose.
  reflexivity.
Qed.

Lemma object_loop_more (fuel : nat) (inp : str) (i : nat) (result : list (str * value))
    (c c' : char) (key : str) (ke : nat) (v : value) (e : nat) :
  char_at inp i = Ret c -> c <> chr "}" ->
  parse_string names inp (skip_whitespace inp (i + 1)) = Ret (key, ke) ->
  char_at inp (skip_whitespace inp (ke + 1)) = Ret (chr ":") ->
  pv inp (skip_whitespace inp (skip_whitespace inp (ke + 1) + 1)) = Ret (v, e) ->
  char_at inp (skip_whitespace inp (e + 1)) = Ret (chr ",") ->
  char_at inp (skip_whitespace inp (skip_whitespace inp (e + 1) + 1)) = Ret c' ->
  c' <> chr "}" ->
  object_loop names pv (S fuel) inp i result
  = object_loop names pv fuel inp (skip_whitespace inp (e + 1)) (dict_setitem result key v).
Proof.
  intros Hc Hne Hk Hcolon Hv Hcomma Hc' Hne'. cbn [object_loop]. rewrite Hc. cbn [bind].
  apply N.eqb_neq in Hne, Hne'. rewrite Hne, Hk. cbn [bind]. rewrite Hcolon. cbn [bind].
  rewrite N.eqb_refl. cbn [negb]. rewrite Hv. cbn [bind].
  rewrite Hcomma. cbn [bind]. rewrite Hc'. cbn [bind]. rewrite Hne'.
  reflexivity.
Qed.

End LoopRules.

Lemma no_dots_followed (stop : char) (lex : str) :
  dot_count lex = 0 -> is_number_char stop = false ->
  dots_followed_by_digit (lex ++ [stop]) = true.
Proof.
  intros Hdc Hstop. rewrite is_number_char_cases in Hstop.
  apply orb_false_elim in Hstop as [_ Hstop].
  induction lex as [|c lex IH]; simpl in *.
  - rewrite Hstop. reflexivity.
  - destruct (c =? chr ".")%N; [lia|]. simpl. apply IH. lia.
Qed.

Lemma parse_number_loop (inp : str) (index : nat) (d : char) (lexeme : str)
    (stop : char) (rest : str) :
  drop index inp = (d :: lexeme) ++ stop :: rest ->
  is_digit d = true ->
  parse_number inp index
  = let* (result_string, dot_count, index) :=
      number_loop inp ((d :: lexeme) ++ stop :: rest) index [] 0 in
    except_ValueError
      (if 0 <? dot_count
       then let* f := py_float result_string in Ret (VFloat f, index - 1)
       else let* n := py_int result_string in Ret (VInt n, index - 1))
      (raise_invalid_json_error InvalidNumber inp index).
Proof.
  intros Hdrop Hd. unfold parse_number.
  rewrite (char_at_drop _ _ _ _ Hdrop). cbn [bind]. rewrite Hd. cbn [negb].
  rewrite Hdrop. reflexivity.
Qed.

(** A run of digits: the loop consumes it, and [int] converts it or
    refuses it. *)
Lemma parse_number_digits (inp : str) (index : nat) (d : char) (lexeme : str)
    (stop : char) (rest : str) :
  drop index inp = (d :: lexeme) ++ stop :: rest ->
  is_digit d = true ->
  forallb is_digit lexeme = true ->
  is_number_char stop = false ->
  parse_number inp index
  = except_ValueError
      (let* n := py_int (d :: lexeme) in Ret (VInt n, index + length lexeme))
      (raise_invalid_json_error InvalidNumber inp (index + length (d :: lexeme))).
Proof.
  intros Hdrop Hd Hall Hstop.
  assert (Hlex : forallb is_digit (d :: lexeme) = true) by (simpl; by rewrite Hd, Hall).
  assert (Hnum : forallb is_number_char (d :: lexeme) = true).
  { clear -Hlex. induction (d :: lexeme) as [|c l IH]; [done|]. simpl in *.
    apply andb_prop in Hlex as [Hc Hl].
    rewrite is_number_char_cases, Hc. simpl. by apply IH. }
  assert (Hdots : dot_count (d :: lexeme) = 0).
  { clear -Hlex. induction (d :: lexeme) as [|c l IH]; [done|]. simpl in *.
    apply andb_prop in Hlex as [Hc Hl].
    rewrite (is_digit_not_dot c Hc). simpl. by apply IH. }
  rewrite (parse_number_loop _ _ _ _ _ _ Hdrop Hd).
  rewrite (number_loop_accepts inp stop rest (d :: lexeme) [] 0 index Hnum Hstop)
    by (first [lia | by apply no_dots_followed]).
  cbn [bind app]. rewrite Hdots. cbn [Nat.add Nat.ltb Nat.leb].
  replace (index + length (d :: lexeme) - 1) with (index + length lexeme)
    by (cbn [length]; lia).
  reflexivity.
Qed.

Lemma parse_number_int (inp : str) (index : nat) (d : char) (lexeme : str)
    (stop : char) (rest : str) :
  drop index inp = (d :: lexeme) ++ stop :: rest ->
  is_digit d = true ->
  forallb is_digit lexeme = true ->
  is_number_char stop = false ->
  length (d :: lexeme) <= int_max_str_digits ->
  parse_number inp index
  = Ret (VInt (Z.of_N (digits_value (d :: lexeme))), index + length lexeme).
Proof.
  intros Hdrop Hd Hall Hstop Hlen.
  rewrite (parse_number_digits _ _ _ _ _ _ Hdrop Hd Hall Hstop).
  rewrite py_int_digits; [reflexivity| |done|done].
  simpl. by rewrite Hd, Hall.
Qed.

Lemma parse_number_long (inp : str) (index : nat) (d : char) (lexeme : str)
    (stop : char) (rest : str) :
  drop index inp = (d :: lexeme) ++ stop :: rest ->
  is_digit d = true ->
  forallb is_digit lexeme = true ->
  is_number_char stop = false ->
  int_max_str_digits < length (d :: lexeme) ->
  parse_number inp index
  = Raise (InvalidJSONError InvalidNumber
             (unexpected_token_message inp (index + length (d :: lexeme)))).
Proof.
  intros Hdrop Hd Hall Hstop Hlen.
  rewrite (parse_number_digits _ _ _ _ _ _ Hdrop Hd Hall Hstop).
  by rewrite py_int_long.
Qed.

Lemma parse_number_not_digit (inp : str) (index : nat) (c : char) :
  char_at inp index = Ret c -> is_digit c = false ->
  parse_number inp index
  = Raise (InvalidJSONError InvalidNumber (unexpected_token_message inp index)).
Proof.
  intros Hc Hd. unfold parse_number. rewrite Hc. cbn [bind]. rewrite Hd. reflexivity.
Qed.

(** C6, as amended: at an offset where the input reads a digit, a run
    [lexeme] of digits and dots, and then a character [stop] that is
    neither, the number parser returns the integer of the digits when the
    run has no dot and no more digits than [int] converts, returns the
    float of the decimal when it has one dot and every dot is followed by a
    digit, and raises the parse error when a second dot appears, when a dot
    is followed by something else, or when a run without dot has more
    digits than [int] converts; the offset returned is that of the last
    character of the run.  At an offset that holds a character that is not
    a digit it raises the parse error. *)
Theorem parse_number_spec :
  (forall (inp : str) (index : nat) (d : char) (lexeme : str) (stop : char) (rest : str),
      drop index inp = (d :: lexeme) ++ stop :: rest ->
      is_digit d = true ->
      forallb is_number_char lexeme = true ->
      is_number_char stop = false ->
      (dot_count (d :: lexeme) = 0 ->
       length (d :: lexeme) <= int_max_str_digits ->
       parse_number inp index
       = Ret (VInt (Z.of_N (digits_value (d :: lexeme))), index + length lexeme))
      /\ (dot_count (d :: lexeme) = 0 ->
          int_max_str_digits < length (d :: lexeme) ->
          parse_number inp index
          = Raise (InvalidJSONError InvalidNumber
                     (unexpected_token_message inp (index + length (d :: lexeme)))))
      /\ (dot_count (d :: lexeme) = 1 ->
          dots_followed_by_digit ((d :: lexeme) ++ [stop]) = true ->
          exists f, py_float (d :: lexeme) = Ret f
                    /\ parse_number inp index = Ret (VFloat f, index + length lexeme))
      /\ (2 <= dot_count (d :: lexeme)
          \/ dots_followed_by_digit ((d :: lexeme) ++ [stop]) = false ->
          exists i, parse_number inp index
                    = Raise (InvalidJSONError InvalidNumber (unexpected_token_message inp i))))
  /\ (forall (inp : str) (index : nat) (c : char),
        char_at inp index = Ret c -> is_digit c = false ->
        parse_number inp index
        = Raise (InvalidJSONError InvalidNumber (unexpected_token_message inp index))).
Proof.
  split; [|apply parse_number_not_digit].
  intros inp index d lexeme stop rest Hdrop Hd Hall Hstop.
  assert (Hnum : forallb is_number_char (d :: lexeme) = true).
  { simpl. rewrite is_number_char_cases, Hd, Hall. reflexivity. }
  assert (Hdigits : dot_count (d :: lexeme) = 0 -> forallb is_digit lexeme = true).
  { intros Hdots. cbn [dot_count] in Hdots. apply digits_only; [done|lia]. }
  split; [|split; [|split]].
  - intros Hdots Hlen. apply (parse_number_int _ _ _ _ stop rest); auto.
  - intros Hdots Hlen. apply (parse_number_long _ _ _ _ stop rest); auto.
  - intros Hdots Hok.
    destruct (py_float_decimal d lexeme Hd Hall) as [f Hf].
    { cbn [dot_count] in Hdots. lia. }
    exists f. split; [done|].
    rewrite (parse_number_loop _ _ _ _ _ _ Hdrop Hd).
    rewrite (number_loop_accepts inp stop rest (d :: lexeme) [] 0 index Hnum Hstop)
      by (first [lia | done]).
    cbn [bind app]. rewrite Hdots. cbn [Nat.add Nat.ltb Nat.leb].
    rewrite Hf. cbn [bind except_ValueError length]. eq_ret.
  - intros Hbad.
    rewrite (parse_number_loop _ _ _ _ _ _ Hdrop Hd).
    destruct (number_loop_rejects inp stop rest (d :: lexeme) [] 0 index Hnum Hstop)
      as [i Hi]; [lia|done|].
    exists i. rewrite Hi. reflexivity.
Qed.

(** C6, the claim as stated, fails where the run of digits ends the input:
    the loop reads past the end and the parser raises [IndexError]; and it
    fails on a run of 4301 digits, which [int] refuses: the parser raises
    the parse error at the offset of the comma that follows the run. *)
Lemma parse_number_at_end_of_input :
  (parse_number (py "12") 0 = Raise IndexError
   /\ parse_number (py "12") 0 <> Ret (VInt 12, 1))
  /\ (parse_number (repeat (chr "1") 4301 ++ [chr ","]) 0
      = Raise (InvalidJSONError InvalidNumber
                 (unexpected_token_message (repeat (chr "1") 4301 ++ [chr ","]) 4301))
      /\ forall n, parse_number (repeat (chr "1") 4301 ++ [chr ","]) 0
                   <> Ret (VInt n, 4300)).
Proof.
  split; [split; [vm_compute; reflexivity | discriminate]|].
  assert (H : parse_number (repeat (chr "1") 4301 ++ [chr ","]) 0
              = Raise (InvalidJSONError InvalidNumber
                         (unexpected_token_message (repeat (chr "1") 4301 ++ [chr ","])
                            4301))).
  { vm_compute. reflexivity. }
  split; [exact H|]. intros n. rewrite H. discriminate.
Qed.

Lemma parse_number_spec_witness :
  parse_number (py "[12.5, 7]") 1
  = Ret (VFloat (float_of_ratio 125 10), 4).
Proof.
  destruct parse_number_spec as [H _].
  destruct (H (py "[12.5, 7]") 1 (chr "1") (py "2.5") (chr ",") (py " 7]"))
    as (_ & _ & Hfloat & _); [reflexivity..|].
  destruct Hfloat as (f & Hf & Hp); [reflexivity..|].
  rewrite Hp. vm_compute in Hf. injection Hf as <-. reflexivity.
Defined.

Lemma is_digit_not_space (c : char) : is_digit c = true -> is_space c = false.
Proof.
  rewrite is_digit_range. intros [H1 H2]. unfold is_space.
  repeat match goal with
    | |- context [(?a <=? ?b)%N] => destruct (N.leb_spec a b); try lia
    | |- context [(?a =? ?b)%N] => destruct (N.eqb_spec a b); try lia
    end.
  all: reflexivity.
Qed.

(** The dispatcher, unfolded once. *)
Lemma _parse_json_S (names : list N -> option char) (fuel depth : nat)
    (inp : str) (index : nat) :
  _parse_json names (S fuel) depth inp index
  = let* first_char := char_at inp index in
    if (first_char =? chr "{")%N then
      match depth with
      | O => Raise RecursionError
      | S depth' =>
        let* (d, e) :=
          parse_object names (_parse_json names fuel depth') fuel inp index in
        Ret (VDict d, e)
      end
    else if (first_char =? chr "[")%N then
      match depth with
      | O => Raise RecursionError
      | S depth' =>
        let* (l, e) := parse_array (_parse_json names fuel depth') fuel inp index in
        Ret (VList l, e)
      end
    else if (first_char =? QUOTE)%N then
      let* (s, e) := parse_string names inp index in Ret (VStr s, e)
    else if (first_char =? chr "t")%N then
      let* (b, e) := parse_true inp index in Ret (VBool b, e)
    else if (first_char =? chr "f")%N then
      let* (b, e) := parse_false inp index in Ret (VBool b, e)
    else if (first_char =? chr "n")%N then
      let* (_, e) := parse_null inp index in Ret (VNone, e)
    else parse_number inp index.
Proof. reflexivity. Qed.

(** The dispatcher sends a digit to the number parser. *)
Lemma _parse_json_digit (names : list N -> option char) (fuel depth : nat)
    (inp : str) (i : nat) (c : char) :
  char_at inp i = Ret c -> is_digit c = true ->
  _parse_json names (S fuel) depth inp i = parse_number inp i.
Proof.
  intros Hc Hd. rewrite _parse_json_S, Hc. cbn [bind].
  apply is_digit_range in Hd.
  repeat match goal with
    | |- context [(c =? ?b)%N] =>
        let E := fresh in
        destruct (N.eqb_spec c b) as [E|_]; [vm_compute in E; lia|]
    end.
  reflexivity.
Qed.

Lemma parse_json_returns (names : list N -> option char) (stack : nat) (inp : str)
    (c : char) (v : value) (e : nat) :
  char_at inp (skip_whitespace inp 0) = Ret c ->
  char_in c "{[" = true ->
  _parse_json names (S (length inp)) stack inp (skip_whitespace inp 0) = Ret (v, e) ->
  length inp <= skip_whitespace inp (e + 1) ->
  parse_json names stack inp = Ret v.
Proof.
  intros Hc Hroot Hv Hend. unfold parse_json.
  pose proof (char_at_lt _ _ _ Hc) as Hlt.
  destruct (Nat.leb_spec (length inp) (skip_whitespace inp 0)); [lia|].
  rewrite Hc. cbn [bind]. rewrite Hroot. cbn [negb]. rewrite Hv. cbn [bind].
  destruct (Nat.ltb_spec (skip_whitespace inp (e + 1)) (length inp)); [lia|].
  reflexivity.
Qed.

Lemma digits_value_app (a b : str) :
  digits_value (a ++ b)
  = fold_left (fun acc c => acc * 10 + (c - 48))%N b (digits_value a).
Proof. unfold digits_value. apply fold_left_app. Qed.

Lemma digits_value_zeros (k : nat) : digits_value (repeat (chr "0") k) = 0%N.
Proof.
  induction k as [|k IH]; [done|].
  change (repeat (chr "0") (S k)) with ([chr "0"] ++ repeat (chr "0") k).
  rewrite digits_value_app. exact IH.
Qed.

Lemma decode_digit_run (names : list N -> option char) (stack : nat)
    (d : char) (lexeme : str) :
  is_digit d = true -> forallb is_digit lexeme = true ->
  length (d :: lexeme) <= int_max_str_digits ->
  parse_json names (S stack) (chr "[" :: (d :: lexeme) ++ [chr "]"])
  = Ret (VList [VInt (Z.of_N (digits_value (d :: lexeme)))]).
Proof.
  intros Hd Hall Hmax.
  set (inp := chr "[" :: (d :: lexeme) ++ [chr "]"]).
  assert (Hlen : length inp = S (S (S (length lexeme)))).
  { unfold inp. simpl. rewrite length_app. simpl. lia. }
  assert (H0 : skip_whitespace inp 0 = 0).
  { by apply (skip_whitespace_stay inp 0 (chr "[") ((d :: lexeme) ++ [chr "]"])). }
  assert (H1 : skip_whitespace inp (0 + 1) = 1).
  { apply (skip_whitespace_stay inp 1 d (lexeme ++ [chr "]"])); [done|].
    by apply is_digit_not_space. }
  assert (Hnum : parse_number inp 1
                 = Ret (VInt (Z.of_N (digits_value (d :: lexeme))), 1 + length lexeme)).
  { by apply (parse_number_int inp 1 d lexeme (chr "]") []). }
  assert (Hclose : drop (1 + length lexeme + 1) inp = [chr "]"]).
  { unfold inp. replace (1 + length lexeme + 1) with (S (length (d :: lexeme))) by (simpl; lia).
    cbn [drop]. apply drop_app_length. }
  assert (H2 : skip_whitespace inp (1 + length lexeme + 1) = 1 + length lexeme + 1).
  { by apply (skip_whitespace_stay inp _ (chr "]") []). }
  apply (parse_json_returns names _ inp (chr "[") _ (1 + length lexeme + 1)).
  - rewrite H0. reflexivity.
  - reflexivity.
  - rewrite H0, Hlen, _parse_json_S.
    change (char_at inp 0) with (@Ret N (chr "[")). cbn [bind].
    change (chr "[" =? chr "{")%N with false. rewrite N.eqb_refl.
    unfold parse_array.
    change (char_at inp 0) with (@Ret N (chr "[")). cbn [bind].
    rewrite N.eqb_refl. cbn [negb].
    rewrite (array_loop_last _ _ inp 0 [] (chr "[")
               (VInt (Z.of_N (digits_value (d :: lexeme)))) (1 + length lexeme)).
    + rewrite H2. reflexivity.
    + reflexivity.
    + discriminate.
    + rewrite H1. rewrite (_parse_json_digit names _ _ inp 1 d); [done|reflexivity|done].
    + rewrite H2. by apply (char_at_drop _ _ _ []).
  - rewrite skip_whitespace_end; lia.
Qed.

Lemma zeros_digits (k : nat) : forallb is_digit (repeat (chr "0") k) = true.
Proof. induction k as [|k IH]; [done|]. simpl. exact IH. Qed.

(** C10, as amended: a run of digits with any number of leading zeros, of
    no more digits in all than [int] converts and followed by a character
    that is neither a digit nor a dot, is accepted by the number parser,
    which returns the integer of its digits and the offset of the last of
    them; as the only element of an array it decodes to that integer, and
    [decode('[007]')] is [[7]]. *)
Theorem leading_zeros_accepted (names : list N -> option char) :
  (forall (inp : str) (index k : nat) (ds : str) (stop : char) (rest : str),
      drop index inp = (repeat (chr "0") k ++ ds) ++ stop :: rest ->
      forallb is_digit ds = true -> ds <> [] ->
      is_number_char stop = false ->
      k + length ds <= int_max_str_digits ->
      parse_number inp index
      = Ret (VInt (Z.of_N (digits_value ds)), index + (k + length ds) - 1))
  /\ (forall (stack k : nat) (ds : str),
        forallb is_digit ds = true -> ds <> [] ->
        k + length ds <= int_max_str_digits ->
        parse_json names (S stack) (chr "[" :: (repeat (chr "0") k ++ ds) ++ [chr "]"])
        = Ret (VList [VInt (Z.of_N (digits_value ds))]))
  /\ (forall stack, parse_json names (S stack) (py "[007]") = Ret (VList [VInt 7])).
Proof.
  assert (Hrun : forall k ds,
             forallb is_digit ds = true -> ds <> [] ->
             exists d lexeme,
               repeat (chr "0") k ++ ds = d :: lexeme
               /\ is_digit d = true /\ forallb is_digit lexeme = true
               /\ digits_value (d :: lexeme) = digits_value ds
               /\ length (d :: lexeme) = k + length ds).
  { intros k ds Hall Hne.
    assert (Hz : forallb is_digit (repeat (chr "0") k ++ ds) = true).
    { by rewrite forallb_app, Hall, zeros_digits. }
    assert (Hv : digits_value (repeat (chr "0") k ++ ds) = digits_value ds).
    { rewrite digits_value_app, digits_value_zeros. reflexivity. }
    assert (Hl : length (repeat (chr "0") k ++ ds) = k + length ds).
    { by rewrite length_app, repeat_length. }
    destruct (repeat (chr "0") k ++ ds) as [|d lexeme] eqn:E.
    { apply app_eq_nil in E as [_ ->]. done. }
    simpl in Hz. apply andb_prop in Hz as [Hd Hlex].
    by exists d, lexeme. }
  split; [|split].
  - intros inp index k ds stop rest Hdrop Hall Hne Hstop Hmax.
    destruct (Hrun k ds Hall Hne) as (d & lexeme & E & Hd & Hlex & Hv & Hl).
    rewrite E in Hdrop.
    rewrite (parse_number_int _ _ _ _ _ _ Hdrop Hd Hlex Hstop) by lia.
    rewrite Hv, <- Hl. cbn [length]. eq_ret.
  - intros stack k ds Hall Hne Hmax.
    destruct (Hrun k ds Hall Hne) as (d & lexeme & E & Hd & Hlex & Hv & Hl).
    rewrite E, decode_digit_run by (first [done | lia]). by rewrite Hv.
  - intros stack. vm_compute. reflexivity.
Qed.

(** C10, the claim as stated, fails on a digit run that ends the input,
    where the parser raises [IndexError], and on a run of more digits than
    [int] converts: the document of 4300 zeros and a [7] in brackets is
    rejected at the offset of the closing bracket. *)
Lemma leading_zeros_beyond_limit :
  parse_number (py "007") 0 = Raise IndexError
  /\ parse_json empty_name_table 1
       (chr "[" :: (repeat (chr "0") 4300 ++ py "7") ++ [chr "]"])
     = Raise (InvalidJSONError InvalidNumber
                (unexpected_token_message
                   (chr "[" :: (repeat (chr "0") 4300 ++ py "7") ++ [chr "]"]) 4302))
  /\ parse_json empty_name_table 1
       (chr "[" :: (repeat (chr "0") 4300 ++ py "7") ++ [chr "]"])
     <> Ret (VList [VInt 7]).
Proof.
  assert (H : parse_json empty_name_table 1
                (chr "[" :: (repeat (chr "0") 4300 ++ py "7") ++ [chr "]"])
              = Raise (InvalidJSONError InvalidNumber
                         (unexpected_token_message
                            (chr "[" :: (repeat (chr "0") 4300 ++ py "7") ++ [chr "]"])
                            4302))).
  { vm_compute. reflexivity. }
  split; [vm_compute; reflexivity|]. split; [exact H|]. rewrite H. discriminate.
Qed.

Lemma leading_zeros_accepted_witness :
  parse_number (py "[0042, 1]") 1 = Ret (VInt 42, 4)
  /\ parse_json empty_name_table 1 (py "[0042]") = Ret (VList [VInt 42]).
Proof.
  destruct (leading_zeros_accepted empty_name_table) as (Hp & Hd & _).
  split.
  - apply (Hp (py "[0042, 1]") 1 2 (py "42") (chr ",") (py " 1]"));
      [reflexivity|reflexivity|discriminate|reflexivity|vm_compute; lia].
  - apply (Hd 0 2 (py "42")); [reflexivity|discriminate|vm_compute; lia].
Defined.

(** ** Invariants of every parser *)

Lemma sound_raise {A} (site : situation) (inp : str) (index i : nat) :
  @sound A inp index (raise_invalid_json_error site inp i).
Proof. simpl. eauto. Qed.

Lemma slice_length_lt (inp : str) (index n : nat) (k : str) :
  slice inp index (index + n) = k -> length k = n -> 0 < n -> index + n <= length inp.
Proof.
  unfold slice. intros <- Hlen Hn.
  rewrite length_take, length_drop in Hlen. lia.
Qed.

Lemma parse_true_sound (inp : str) (index : nat) :
  sound inp index (parse_true inp index) /\ parse_true inp index <> OutOfFuel.
Proof.
  unfold parse_true. destruct (char_at inp index) as [c| |] eqn:Hc; cbn [bind].
  - destruct (negb (c =? chr "t")%N); [split; [apply sound_raise|discriminate]|].
    unfold str_eqb. case_bool_decide as Hs; cbn [negb];
      [|split; [apply sound_raise|discriminate]].
    split; [|discriminate]. simpl.
    pose proof (slice_length_lt _ _ 4 _ Hs eq_refl). lia.
  - unfold char_at in Hc. destruct (inp !! index); [discriminate|].
    injection Hc as <-. split; [exact I|discriminate].
  - unfold char_at in Hc. destruct (inp !! index); discriminate.
Qed.

Lemma parse_null_sound (inp : str) (index : nat) :
  sound inp index (parse_null inp index) /\ parse_null inp index <> OutOfFuel.
Proof.
  unfold parse_null. destruct (char_at inp index) as [c| |] eqn:Hc; cbn [bind].
  - destruct (negb (c =? chr "n")%N); [split; [apply sound_raise|discriminate]|].
    unfold str_eqb. case_bool_decide as Hs; cbn [negb];
      [|split; [apply sound_raise|discriminate]].
    split; [|discriminate]. simpl.
    pose proof (slice_length_lt _ _ 4 _ Hs eq_refl). lia.
  - unfold char_at in Hc. destruct (inp !! index); [discriminate|].
    injection Hc as <-. split; [exact I|discriminate].
  - unfold char_at in Hc. destruct (inp !! index); discriminate.
Qed.

Lemma parse_false_sound (inp : str) (index : nat) :
  sound inp index (parse_false inp index) /\ parse_false inp index <> OutOfFuel.
Proof.
  destruct (parse_false inp index) as [r|e|] eqn:H.
  - by apply parse_false_never_returns in H.
  - split; [|discriminate]. unfold parse_false in H.
    apply bind_Raise_inv in H as [H|(c & Hc & H)].
    + unfold char_at in H. destruct (inp !! index); [discriminate|].
      injection H as <-. exact I.
    + destruct (negb (c =? chr "f")%N); [injection H as <-; simpl; eauto|].
      destruct (negb _); [injection H as <-; simpl; eauto|discriminate].
  - unfold parse_false in H.
    apply bind_OutOfFuel_inv in H as [H|(c & Hc & H)].
    + unfold char_at in H. destruct (inp !! index); discriminate.
    + destruct (negb (c =? chr "f")%N); [discriminate|].
      destruct (negb _); discriminate.
Qed.

Lemma char_at_outcome (inp : str) (i : nat) :
  (exists c, char_at inp i = Ret c /\ i < length inp) \/ char_at inp i = Raise IndexError.
Proof.
  destruct (char_at inp i) as [c| |] eqn:H.
  - left. exists c. split; [done|]. by apply char_at_lt in H.
  - right. unfold char_at in H. destruct (inp !! i); congruence.
  - unfold char_at in H. destruct (inp !! i); discriminate.
Qed.

Lemma char_at_IndexError (inp : str) (i : nat) :
  char_at inp i = Raise IndexError -> length inp <= i.
Proof.
  unfold char_at. destruct (inp !! i) eqn:H; [discriminate|].
  intros _. by apply lookup_ge_None.
Qed.

Lemma number_loop_sound (inp : str) (rest : str) :
  forall (index : nat) (rs : str) (dc : nat),
    match number_loop inp rest index rs dc with
    | Ret (_, _, i') =>
        index <= i' < index + length rest
        /\ (forall c r, rest = c :: r -> is_number_char c = true -> index < i')
    | Raise (InvalidJSONError _ msg) => exists i, msg = unexpected_token_message inp i
    | Raise IndexError => True
    | Raise _ => False
    | OutOfFuel => False
    end.
Proof.
  induction rest as [|c rest IH]; intros index rs dc; cbn [number_loop]; [exact I|].
  fold (is_number_char c). destruct (is_number_char c) eqn:Hc.
  - assert (Hrec : forall rs' dc',
        match number_loop inp rest (index + 1) rs' dc' with
        | Ret (_, _, i') =>
            index <= i' < index + length (c :: rest)
            /\ (forall c0 r, c :: rest = c0 :: r -> is_number_char c0 = true -> index < i')
        | Raise (InvalidJSONError _ msg) => exists i, msg = unexpected_token_message inp i
        | Raise IndexError => True
        | Raise _ => False
        | OutOfFuel => False
        end).
    { intros rs' dc'. specialize (IH (index + 1) rs' dc').
      destruct (number_loop inp rest (index + 1) rs' dc') as [[[? ?] i']|e|]; [|done..].
      simpl. destruct IH as [IH _]. split; [lia|intros; lia]. }
    destruct (c =? chr ".")%N.
    + destruct (1 <? dc + 1); [simpl; eauto|].
      destruct rest as [|c' rest']; [exact I|].
      destruct (negb (char_in c' "0123456789")); [simpl; eauto|]. apply Hrec.
    + apply Hrec.
  - simpl. split; [lia|]. intros c0 r [= <- <-] Hc0. congruence.
Qed.

Lemma py_int_outcome (s : str) :
  (exists n, py_int s = Ret n) \/ py_int s = Raise ValueError.
Proof. unfold py_int. destruct (_ && _); eauto. Qed.

Lemma py_float_outcome (s : str) :
  (exists f, py_float s = Ret f) \/ py_float s = Raise ValueError.
Proof.
  unfold py_float. destruct (split_dot s) as [a b]. destruct (_ && _); eauto.
Qed.

Lemma parse_number_sound (inp : str) (index : nat) :
  sound inp index (parse_number inp index) /\ parse_number inp index <> OutOfFuel.
Proof.
  unfold parse_number.
  destruct (char_at inp index) as [c|e|] eqn:Hc; cbn [bind].
  2: { destruct (char_at_outcome inp index) as [(c' & H & _)|H];
       rewrite H in Hc; [discriminate|]. injection Hc as <-. split; [exact I|discriminate]. }
  2: { destruct (char_at_outcome inp index) as [(c' & H & _)|H];
       rewrite H in Hc; discriminate. }
  destruct (is_digit c) eqn:Hd; cbn [negb]; [|split; [apply sound_raise|discriminate]].
  pose proof (char_at_lt _ _ _ Hc) as Hlt.
  pose proof (number_loop_sound inp (drop index inp) index [] 0) as Hloop.
  destruct (number_loop inp (drop index inp) index [] 0) as [[[rs dc] i']|e|];
    cbn [bind]; [| |done].
  - destruct Hloop as [Hb Hfirst].
    rewrite length_drop in Hb.
    specialize (Hfirst c _ (drop_char_at _ _ _ Hc)).
    rewrite is_number_char_cases, Hd in Hfirst. specialize (Hfirst eq_refl).
    destruct (0 <? dc).
    + destruct (py_float_outcome rs) as [[f ->]| ->]; cbn [bind except_ValueError].
      * split; [|discriminate]. simpl. lia.
      * split; [apply sound_raise|discriminate].
    + destruct (py_int_outcome rs) as [[n ->]| ->]; cbn [bind except_ValueError].
      * split; [|discriminate]. simpl. lia.
      * split; [apply sound_raise|discriminate].
  - split; [|discriminate]. destruct e; done.
Qed.

Lemma find_closing_quote_sound (n : nat) :
  forall (rest : str) (end_index : nat),
    length rest <= n ->
    match find_closing_quote rest end_index with
    | Ret e => end_index <= e < end_index + length rest
    | Raise IndexError => True
    | _ => False
    end.
Proof.
  induction n as [|n IH]; intros rest end_index Hlen.
  - destruct rest; [exact I|simpl in Hlen; lia].
  - destruct rest as [|c rest]; [exact I|]. cbn [find_closing_quote].
    destruct (c =? QUOTE)%N; [simpl; lia|].
    destruct (c =? chr "\")%N.
    + destruct rest as [|c' rest]; [exact I|].
      specialize (IH rest (end_index + 2)). simpl in Hlen.
      destruct (find_closing_quote rest (end_index + 2)) as [e|[]|];
        try (apply IH; lia). simpl. specialize (IH ltac:(lia)). lia.
    + specialize (IH rest (end_index + 1)). simpl in Hlen.
      destruct (find_closing_quote rest (end_index + 1)) as [e|[]|];
        try (apply IH; lia). simpl. specialize (IH ltac:(lia)). lia.
Qed.

Lemma utf8_encode_outcome (s : str) :
  (exists b, utf8_encode s = Ret b) \/ utf8_encode s = Raise UnicodeEncodeError.
Proof.
  induction s as [|c s IH]; cbn [utf8_encode]; [eauto|].
  assert (Hc : (exists b, utf8_encode_char c = Ret b)
               \/ utf8_encode_char c = Raise UnicodeEncodeError).
  { unfold utf8_encode_char. repeat (destruct (_ : bool); eauto). }
  destruct Hc as [[b ->]| ->]; cbn [bind]; [|eauto].
  destruct IH as [[bs ->]| ->]; cbn [bind]; eauto.
Qed.

Lemma decoded_push (c : char) (r : outcome (list N)) : decoded r -> decoded (push c r).
Proof. intros [[s ->]| ->]; [left|right]; simpl; eauto. Qed.

Lemma decoded_hex_escape (ds : list N) (r : outcome (list N)) :
  decoded r -> decoded (hex_escape ds r).
Proof.
  intros H. unfold hex_escape. destruct (hex_value ds 0); [|by right].
  destruct (_ <? _)%N; [by right|]. by apply decoded_push.
Qed.

Lemma decoded_raise : decoded (Raise UnicodeDecodeError).
Proof. by right. Qed.

Lemma decoded_name_escape (names : list N -> option char)
    (decode : list N -> outcome (list N)) (t : list N) :
  (forall t', length t' < length t -> decoded (decode t')) ->
  forall name, decoded (name_escape names decode t name).
Proof.
  induction t as [|e t IH]; intros Hk name; cbn [name_escape]; [apply decoded_raise|].
  destruct (e =? chr "}")%N.
  - destruct name; [apply decoded_raise|].
    destruct (names _); [|apply decoded_raise].
    apply decoded_push, Hk. simpl. lia.
  - apply IH. intros t' Ht. apply Hk. simpl. lia.
Qed.

Lemma unicode_escape_decode_outcome (names : list N -> option char) (n : nat) :
  forall s : list N, length s <= n -> decoded (unicode_escape_decode names s).
Proof.
  induction n as [|n IH]; intros s Hlen.
  - destruct s; [left; simpl; eauto|simpl in Hlen; lia].
  - destruct s as [|c s1]; [left; simpl; eauto|]. cbn [unicode_escape_decode].
    simpl in Hlen.
    destruct (negb (c =? chr "\")%N); [apply decoded_push, IH; lia|].
    destruct s1 as [|c1 s2]; [apply decoded_raise|]. simpl in Hlen.
    repeat match goal with
      | |- decoded (if ?b then _ else _) => destruct b
      | |- decoded (push _ _) => apply decoded_push
      | |- decoded (hex_escape _ _) => apply decoded_hex_escape
      | |- decoded (Raise UnicodeDecodeError) => apply decoded_raise
      | |- decoded (unicode_escape_decode _ _) => apply IH; simpl in *; lia
      | |- decoded (name_escape _ _ _ _) =>
          apply decoded_name_escape; intros t' Ht; apply IH; simpl in *; lia
      | |- decoded (match ?l with [] => _ | _ :: _ => _ end) =>
          is_var l; destruct l; simpl in Hlen
      end.
Qed.

Lemma parse_string_sound (names : list N -> option char) (inp : str) (index : nat) :
  sound inp index (parse_string names inp index)
  /\ parse_string names inp index <> OutOfFuel.
Proof.
  unfold parse_string.
  destruct (char_at_outcome inp index) as [(c & -> & Hlt)| ->]; cbn [bind];
    [|split; [exact I|discriminate]].
  destruct (negb (c =? QUOTE)%N); [split; [apply sound_raise|discriminate]|].
  pose proof (find_closing_quote_sound _ (drop (index + 1) inp) (index + 1) (le_n _)) as Hq.
  rewrite length_drop in Hq.
  destruct (find_closing_quote (drop (index + 1) inp) (index + 1)) as [e|ex|];
    cbn [bind]; [|destruct ex; try done|done].
  destruct (utf8_encode_outcome (slice inp (index + 1) e)) as [[b ->]| ->]; cbn [bind];
    [|split; [exact I|discriminate]].
  destruct (unicode_escape_decode_outcome names _ b (le_n _)) as [[s ->]| ->]; cbn [bind].
  - split; [simpl; lia|discriminate].
  - split; [exact I|discriminate].
Qed.

Lemma sound_weaken {A B} (inp : str) (i j : nat) (r : outcome (A * nat)) (e : exn) :
  r = Raise e -> sound inp j r -> @sound B inp i (Raise e).
Proof. intros -> H. exact H. Qed.

Lemma sound_le {A} (inp : str) (i j : nat) (r : outcome (A * nat)) :
  i <= j -> sound inp j r -> sound inp i r.
Proof.
  intros Hle H. destruct r as [[a e]|e|]; [|exact H..]. simpl in *. lia.
Qed.

Lemma skip_whitespace_next (inp : str) (i : nat) :
  i < length inp -> i < skip_whitespace inp (i + 1) <= length inp.
Proof. intros H. pose proof (skip_whitespace_bounds inp (i + 1)). lia. Qed.

Section LoopInvariants.

Variable names : list N -> option char.
Variable pv : str -> nat -> outcome (value * nat).
Variable inp : str.
Variable index0 : nat.
Hypothesis pv_sound : forall j, sound inp j (pv inp j).

Lemma object_loop_sound (fuel : nat) :
  forall (index : nat) (result : list (str * value)),
    index0 <= index ->
    sound inp index (object_loop names pv fuel inp index result)
    /\ ((forall j, index0 < j -> pv inp j <> OutOfFuel) ->
        index < length inp -> length inp - index <= fuel ->
        object_loop names pv fuel inp index result <> OutOfFuel).
Proof.
  induction fuel as [|fuel IH]; intros index result Hi0.
  { split; [exact I|]. intros. lia. }
  cbn [object_loop].
  destruct (char_at_outcome inp index) as [(c & -> & Hlt)| ->]; cbn [bind];
    [|split; [exact I|discriminate]].
  destruct (c =? chr "}")%N; [split; [simpl; lia|discriminate]|].
  pose proof (skip_whitespace_next inp index Hlt) as Hk.
  destruct (parse_string_sound names inp (skip_whitespace inp (index + 1))) as [Hs Hst].
  destruct (parse_string names inp (skip_whitespace inp (index + 1)))
    as [[key ke]|e|] eqn:Hkey; cbn [bind]; [|split; [exact Hs|discriminate]|done].
  simpl in Hs.
  pose proof (skip_whitespace_next inp ke ltac:(lia)) as Hcolon.
  destruct (char_at_outcome inp (skip_whitespace inp (ke + 1))) as [(c1 & -> & Hlt1)| ->];
    cbn [bind]; [|split; [exact I|discriminate]].
  destruct (negb (c1 =? chr ":")%N); [split; [apply sound_raise|discriminate]|].
  pose proof (skip_whitespace_next inp _ Hlt1) as Hvs.
  pose proof (pv_sound (skip_whitespace inp (skip_whitespace inp (ke + 1) + 1))) as Hv.
  destruct (pv inp (skip_whitespace inp (skip_whitespace inp (ke + 1) + 1)))
    as [[v ve]|e|] eqn:Hpv; cbn [bind]; [|split; [exact Hv|discriminate]|].
  2: { split; [exact I|]. intros Htot _ _ _. eapply Htot; [|exact Hpv]. lia. }
  simpl in Hv.
  pose proof (skip_whitespace_next inp ve ltac:(lia)) as Hnext.
  destruct (char_at_outcome inp (skip_whitespace inp (ve + 1))) as [(c2 & -> & Hlt2)| ->];
    cbn [bind]; [|split; [exact I|discriminate]].
  destruct (IH (skip_whitespace inp (ve + 1)) (dict_setitem result key v) ltac:(lia))
    as [IHs IHt].
  assert (Hrec : sound inp index
                   (object_loop names pv fuel inp (skip_whitespace inp (ve + 1))
                      (dict_setitem result key v))
                 /\ ((forall j, index0 < j -> pv inp j <> OutOfFuel) ->
                     index < length inp -> length inp - index <= S fuel ->
                     object_loop names pv fuel inp (skip_whitespace inp (ve + 1))
                       (dict_setitem result key v) <> OutOfFuel)).
  { split; [apply (sound_le inp index (skip_whitespace inp (ve + 1))); [lia|exact IHs]|].
    intros. apply IHt; [done|lia..]. }
  destruct (c2 =? chr ",")%N.
  - destruct (char_at_outcome inp (skip_whitespace inp (skip_whitespace inp (ve + 1) + 1)))
      as [(c3 & -> & Hlt3)| ->]; cbn [bind]; [|split; [exact I|discriminate]].
    destruct (c3 =? chr "}")%N; [split; [apply sound_raise|discriminate]|].
    exact Hrec.
  - destruct (negb (c2 =? chr "}")%N); [split; [apply sound_raise|discriminate]|].
    exact Hrec.
Qed.

Lemma array_loop_sound (fuel : nat) :
  forall (index : nat) (result : list value),
    index0 <= index ->
    sound inp index (array_loop pv fuel inp index result)
    /\ ((forall j, index0 < j -> pv inp j <> OutOfFuel) ->
        index < length inp -> length inp - index <= fuel ->
        array_loop pv fuel inp index result <> OutOfFuel).
Proof.
  induction fuel as [|fuel IH]; intros index result Hi0.
  { split; [exact I|]. intros. lia. }
  cbn [array_loop].
  destruct (char_at_outcome inp index) as [(c & -> & Hlt)| ->]; cbn [bind];
    [|split; [exact I|discriminate]].
  destruct (c =? chr "]")%N; [split; [simpl; lia|discriminate]|].
  pose proof (skip_whitespace_next inp index Hlt) as Hvs.
  pose proof (pv_sound (skip_whitespace inp (index + 1))) as Hv.
  destruct (pv inp (skip_whitespace inp (index + 1)))
    as [[v ve]|e|] eqn:Hpv; cbn [bind]; [|split; [exact Hv|discriminate]|].
  2: { split; [exact I|]. intros Htot _ _ _. eapply Htot; [|exact Hpv]. lia. }
  simpl in Hv.
  pose proof (skip_whitespace_next inp ve ltac:(lia)) as Hnext.
  destruct (char_at_outcome inp (skip_whitespace inp (ve + 1))) as [(c2 & -> & Hlt2)| ->];
    cbn [bind]; [|split; [exact I|discriminate]].
  destruct (IH (skip_whitespace inp (ve + 1)) (result ++ [v]) ltac:(lia)) as [IHs IHt].
  assert (Hrec : sound inp index
                   (array_loop pv fuel inp (skip_whitespace inp (ve + 1)) (result ++ [v]))
                 /\ ((forall j, index0 < j -> pv inp j <> OutOfFuel) ->
                     index < length inp -> length inp - index <= S fuel ->
                     array_loop pv fuel inp (skip_whitespace inp (ve + 1)) (result ++ [v])
                     <> OutOfFuel)).
  { split; [apply (sound_le inp index (skip_whitespace inp (ve + 1))); [lia|exact IHs]|].
    intros. apply IHt; [done|lia..]. }
  destruct (c2 =? chr ",")%N.
  - destruct (char_at_outcome inp (skip_whitespace inp (skip_whitespace inp (ve + 1) + 1)))
      as [(c3 & -> & Hlt3)| ->]; cbn [bind]; [|split; [exact I|discriminate]].
    destruct (c3 =? chr "]")%N; [split; [apply sound_raise|discriminate]|].
    exact Hrec.
  - destruct (negb (c2 =? chr "]")%N); [split; [apply sound_raise|discriminate]|].
    exact Hrec.
Qed.

End LoopInvariants.

Lemma sound_map {A B} (inp : str) (index : nat) (r : outcome (A * nat)) (f : A -> B) :
  sound inp index r ->
  sound inp index (let* (a, e) := r in Ret (f a, e))
  /\ (r <> OutOfFuel -> (let* (a, e) := r in Ret (f a, e)) <> OutOfFuel).
Proof.
  intros H. destruct r as [[a e]|e|]; cbn [bind]; (split; [exact H|]); try discriminate.
  intros Hne. done.
Qed.

Lemma _parse_json_sound (names : list N -> option char) (fuel : nat) :
  forall (depth : nat) (inp : str) (index : nat),
    sound inp index (_parse_json names fuel depth inp index)
    /\ (length inp - index < fuel ->
        _parse_json names fuel depth inp index <> OutOfFuel).
Proof.
  induction fuel as [|fuel IH]; intros depth0 inp index.
  { split; [exact I|]. intros. lia. }
  rewrite _parse_json_S.
  destruct (char_at_outcome inp index) as [(c & Hc & Hlt)|Hc]; rewrite Hc; cbn [bind];
    [|split; [exact I|discriminate]].
  assert (Hpv : forall depth j, sound inp j (_parse_json names fuel depth inp j))
    by (intros; apply IH).
  destruct (c =? chr "{")%N.
  { destruct depth0 as [|depth]; [split; [exact I|discriminate]|].
    specialize (Hpv depth).
    assert (Hobj : sound inp index (parse_object names (_parse_json names fuel depth) fuel inp index)
                   /\ (length inp - index < S fuel ->
                       parse_object names (_parse_json names fuel depth) fuel inp index <> OutOfFuel)).
    { unfold parse_object. rewrite Hc. cbn [bind].
      destruct (negb (c =? chr "{")%N); [split; [apply sound_raise|discriminate]|].
      destruct (object_loop_sound names (_parse_json names fuel depth) inp index Hpv) with
        (fuel := fuel) (index := index) (result := @nil (list N * value)) as [Hs Ht];
        [lia|].
      split; [exact Hs|]. intros. apply Ht; [|lia..]. intros j Hj. apply IH. lia. }
    destruct Hobj as [Hs Ht].
    destruct (sound_map inp index _ VDict Hs) as [Hs' Ht'].
    split; [exact Hs'|]. intros. apply Ht', Ht. lia. }
  destruct (c =? chr "[")%N.
  { destruct depth0 as [|depth]; [split; [exact I|discriminate]|].
    specialize (Hpv depth).
    assert (Harr : sound inp index (parse_array (_parse_json names fuel depth) fuel inp index)
                   /\ (length inp - index < S fuel ->
                       parse_array (_parse_json names fuel depth) fuel inp index <> OutOfFuel)).
    { unfold parse_array. rewrite Hc. cbn [bind].
      destruct (negb (c =? chr "[")%N); [split; [apply sound_raise|discriminate]|].
      destruct (array_loop_sound (_parse_json names fuel depth) inp index Hpv) with
        (fuel := fuel) (index := index) (result := @nil value) as [Hs Ht];
        [lia|].
      split; [exact Hs|]. intros. apply Ht; [|lia..]. intros j Hj. apply IH. lia. }
    destruct Harr as [Hs Ht].
    destruct (sound_map inp index _ VList Hs) as [Hs' Ht'].
    split; [exact Hs'|]. intros. apply Ht', Ht. lia. }
  destruct (c =? QUOTE)%N.
  { destruct (parse_string_sound names inp index) as [Hs Ht].
    destruct (sound_map inp index _ VStr Hs) as [Hs' Ht'].
    split; [exact Hs'|]. intros. by apply Ht'. }
  destruct (c =? chr "t")%N.
  { destruct (parse_true_sound inp index) as [Hs Ht].
    destruct (sound_map inp index _ VBool Hs) as [Hs' Ht'].
    split; [exact Hs'|]. intros. by apply Ht'. }
  destruct (c =? chr "f")%N.
  { destruct (parse_false_sound inp index) as [Hs Ht].
    destruct (sound_map inp index _ VBool Hs) as [Hs' Ht'].
    split; [exact Hs'|]. intros. by apply Ht'. }
  destruct (c =? chr "n")%N.
  { destruct (parse_null_sound inp index) as [Hs Ht].
    destruct (sound_map inp index _ (fun _ => VNone) Hs) as [Hs' Ht'].
    split; [exact Hs'|]. intros. by apply Ht'. }
  destruct (parse_number_sound inp index) as [Hs Ht].
  split; [exact Hs|]. intros. exact Ht.
Qed.

(** The budget of the entry point is never used up: decoding returns a
    value or raises an exception. *)
Lemma parse_json_total (names : list N -> option char) (stack : nat) (inp : str) :
  parse_json names stack inp <> OutOfFuel.
Proof.
  unfold parse_json.
  destruct (length inp <=? skip_whitespace inp 0) eqn:Hlen; [discriminate|].
  apply Nat.leb_gt in Hlen.
  destruct (char_at_outcome inp (skip_whitespace inp 0)) as [(c & -> & _)| ->];
    cbn [bind]; [|discriminate].
  destruct (negb (char_in c "{[")); [discriminate|].
  destruct (_parse_json_sound names (S (length inp)) stack inp (skip_whitespace inp 0))
    as [_ Ht].
  specialize (Ht ltac:(lia)).
  destruct (_parse_json names (S (length inp)) stack inp (skip_whitespace inp 0))
    as [[v e]|e|]; cbn [bind]; [| |done].
  - destruct (_ <? _); discriminate.
  - destruct e; discriminate.
Qed.

(** ** C5: reading past the end *)

(** C5: decoding never ends in an index fault; when the dispatcher, started
    by the entry point at the opening bracket of the document, reads past
    the end of the input, the entry point raises the parse error whose
    offset is the length of the input.  A document that opens an array and
    then a string that is never closed is such an input: the scan for the
    closing quote runs off the end. *)
Theorem index_fault_converted (names : list N -> option char) (stack : nat) :
  (forall inp : str, parse_json names stack inp <> Raise IndexError)
  /\ (forall (inp : str) (c : char),
        char_at inp (skip_whitespace inp 0) = Ret c ->
        char_in c "{[" = true ->
        _parse_json names (S (length inp)) stack inp (skip_whitespace inp 0)
        = Raise IndexError ->
        parse_json names stack inp
        = Raise (InvalidJSONError UnexpectedEndOfInput
                   (unexpected_token_message inp (length inp))))
  /\ (parse_string names (py "['unterminated") 1 = Raise IndexError
      /\ parse_json names (S stack) (py "['unterminated")
         = Raise (InvalidJSONError UnexpectedEndOfInput
                    (unexpected_token_message (py "['unterminated") 14))).
Proof.
  split; [|split].
  - intros inp. unfold parse_json.
    destruct (length inp <=? skip_whitespace inp 0) eqn:Hlen; [discriminate|].
    apply Nat.leb_gt in Hlen.
    destruct (char_at_outcome inp (skip_whitespace inp 0)) as [(c & -> & _)|H].
    + cbn [bind]. destruct (negb (char_in c "{[")); [discriminate|].
      destruct (let* (result, index) :=
                  _parse_json names (S (length inp)) stack inp (skip_whitespace inp 0) in
                if skip_whitespace inp (index + 1) <? length inp
                then raise_invalid_json_error TrailingContent inp
                       (skip_whitespace inp (index + 1))
                else Ret result) as [v|e|]; [discriminate| |discriminate].
      destruct e; discriminate.
    + apply char_at_IndexError in H. lia.
  - intros inp c Hc Hroot Hfault. unfold parse_json.
    pose proof (char_at_lt _ _ _ Hc) as Hlt.
    destruct (Nat.leb_spec (length inp) (skip_whitespace inp 0)); [lia|].
    rewrite Hc. cbn [bind]. rewrite Hroot, Hfault. reflexivity.
  - split; vm_compute; reflexivity.
Qed.

Lemma index_fault_converted_witness :
  parse_json empty_name_table 2 (py "{'key': [1, 2")
  = Raise (InvalidJSONError UnexpectedEndOfInput
             (unexpected_token_message (py "{'key': [1, 2") 13)).
Proof.
  destruct (index_fault_converted empty_name_table 2) as (_ & H & _).
  apply (H (py "{'key': [1, 2") (chr "{")); reflexivity.
Defined.

(** ** C8: the message of the parse error *)

(** C8, as amended: every parse error raised by the entry point, whatever
    the situation, carries the one default message, [Unexpected token at
    char(i):] followed by the input and a caret line, for some offset [i];
    the message does not name the situation. *)
Theorem one_message_for_every_situation (names : list N -> option char)
    (stack : nat) (inp : str) (site : situation) (msg : str) :
  parse_json names stack inp = Raise (InvalidJSONError site msg) ->
  exists index, msg = unexpected_token_message inp index.
Proof.
  unfold parse_json. intros H.
  destruct (length inp <=? skip_whitespace inp 0); [injection H as _ <-; eauto|].
  apply bind_Raise_inv in H as [H|(c & Hc & H)].
  { unfold char_at in H. destruct (inp !! _); discriminate. }
  destruct (negb (char_in c "{[")); [injection H as _ <-; eauto|].
  destruct (_parse_json_sound names (S (length inp)) stack inp (skip_whitespace inp 0))
    as [Hs _].
  destruct (_parse_json names (S (length inp)) stack inp (skip_whitespace inp 0))
    as [[v e]|e|]; cbn [bind] in H.
  - destruct (_ <? _); [injection H as _ <-; eauto|discriminate].
  - destruct e; try discriminate.
    + injection H as _ <-. exact Hs.
    + injection H as _ <-. eauto.
  - discriminate.
Qed.

(** C8, the claim as stated, fails: at the same input and offset the
    unexpected-token failure of the string parser, the invalid-literal
    failure of the false-literal parser and the invalid-root failure of the
    entry point carry the same message. *)
Lemma situations_share_message :
  parse_string empty_name_table (py "f") 0
  = Raise (InvalidJSONError UnexpectedToken (unexpected_token_message (py "f") 0))
  /\ parse_false (py "f") 0
     = Raise (InvalidJSONError InvalidLiteral (unexpected_token_message (py "f") 0))
  /\ parse_json empty_name_table 0 (py "f")
     = Raise (InvalidJSONError InvalidRoot (unexpected_token_message (py "f") 0))
  /\ UnexpectedToken <> InvalidLiteral /\ InvalidLiteral <> InvalidRoot.
Proof. repeat split; try discriminate; vm_compute; reflexivity. Qed.

Lemma one_message_for_every_situation_witness :
  exists index,
    unexpected_token_message (py "[1,]") 3 = unexpected_token_message (py "[1,]") index.
Proof.
  apply (one_message_for_every_situation empty_name_table 1 (py "[1,]") TrailingComma).
  reflexivity.
Defined.

(** ** C4: string literals *)

Lemma is_hex_range (c : char) :
  is_hex c = true ->
  ((48 <= c <= 57) \/ (97 <= c <= 102) \/ (65 <= c <= 70))%N.
Proof.
  unfold is_hex, hex_digit.
  destruct (N.leb_spec 48 c), (N.leb_spec c 57); simpl; try (intros; lia).
  all: destruct (N.leb_spec 97 c), (N.leb_spec c 102); simpl; try (intros; lia).
  all: destruct (N.leb_spec 65 c), (N.leb_spec c 70); simpl; try (intros; lia).
  all: discriminate.
Qed.

Lemma find_closing_quote_plain (c : char) (s : str) (i : nat) :
  c <> QUOTE -> c <> chr "\" ->
  find_closing_quote (c :: s) i = find_closing_quote s (i + 1).
Proof.
  intros H1 H2. cbn [find_closing_quote].
  apply N.eqb_neq in H1, H2. rewrite H1, H2. reflexivity.
Qed.

Lemma find_closing_quote_hex (c : char) (s : str) (i : nat) :
  is_hex c = true ->
  find_closing_quote (c :: s) i = find_closing_quote s (i + 1).
Proof.
  intros H. apply is_hex_range in H.
  apply find_closing_quote_plain; intros ->;
    [change QUOTE with 34%N in H | change (chr "\") with 92%N in H]; lia.
Qed.

Lemma find_closing_quote_piece (p : piece) (s : str) (i : nat) :
  piece_wf p = true ->
  find_closing_quote (piece_source p ++ s) i
  = find_closing_quote s (i + length (piece_source p)).
Proof.
  destruct p as [c|e]; simpl.
  - intros H. apply andb_prop in H as [H1 H2].
    apply negb_true_iff, N.eqb_neq in H1, H2.
    by apply find_closing_quote_plain.
  - destruct e; intros H; try (cbn; f_equal; lia).
    repeat (apply andb_prop in H as [H ?]).
    change (find_closing_quote (h1 :: h2 :: h3 :: h4 :: s) (i + 2)
            = find_closing_quote s (i + 6)).
    rewrite !find_closing_quote_hex by done. f_equal. lia.
Qed.

Lemma find_closing_quote_literal (ps : list piece) (rest : str) :
  forall i : nat,
    forallb piece_wf ps = true ->
    find_closing_quote (literal_source ps ++ QUOTE :: rest) i
    = Ret (i + length (literal_source ps)).
Proof.
  induction ps as [|p ps IH]; intros i Hwf.
  - simpl. rewrite Nat.add_0_r. reflexivity.
  - simpl in Hwf. apply andb_prop in Hwf as [Hp Hps].
    unfold literal_source. cbn [map concat]. rewrite <- app_assoc.
    rewrite find_closing_quote_piece by done.
    fold (literal_source ps). rewrite IH by done.
    rewrite length_app. f_equal. lia.
Qed.

Lemma utf8_encode_ascii (s : str) :
  forallb is_ascii s = true -> utf8_encode s = Ret s.
Proof.
  induction s as [|c s IH]; [done|]. simpl. intros H.
  apply andb_prop in H as [Hc Hs]. unfold utf8_encode_char.
  unfold is_ascii in Hc. rewrite Hc. cbn [bind]. rewrite IH by done. reflexivity.
Qed.

Lemma is_hex_ascii (c : char) : is_hex c = true -> is_ascii c = true.
Proof.
  intros H. apply is_hex_range in H. unfold is_ascii. apply N.ltb_lt. lia.
Qed.

Lemma piece_source_ascii (p : piece) :
  piece_supported p = true -> forallb is_ascii (piece_source p) = true.
Proof.
  unfold piece_supported. intros H. apply andb_prop in H as [Hwf H].
  destruct p as [c|e]; simpl.
  - unfold is_ascii. by rewrite H.
  - destruct e; try reflexivity. simpl in Hwf.
    repeat (apply andb_prop in Hwf as [Hwf ?]).
    simpl. rewrite !is_hex_ascii by done. reflexivity.
Qed.

Lemma literal_source_ascii (ps : list piece) :
  forallb piece_supported ps = true -> forallb is_ascii (literal_source ps) = true.
Proof.
  induction ps as [|p ps IH]; [done|]. simpl. intros H.
  apply andb_prop in H as [Hp Hps].
  unfold literal_source. cbn [map concat]. rewrite forallb_app.
  rewrite piece_source_ascii by done. by apply IH.
Qed.

Lemma hex_digit_bound (c : char) :
  is_hex c = true -> exists d, hex_digit c = Some d /\ (d < 16)%N.
Proof.
  intros H. pose proof (is_hex_range c H) as Hr. unfold is_hex in H.
  destruct (hex_digit c) as [d|] eqn:E; [|discriminate].
  exists d. split; [done|]. unfold hex_digit in E.
  repeat match type of E with
    | (if ?b then _ else _) = _ => destruct b eqn:?
    end; try discriminate; injection E as <-;
    repeat match goal with
      | H : (_ && _) = true |- _ => apply andb_prop in H as [? ?]
      | H : (_ <=? _)%N = true |- _ => apply N.leb_le in H
      end; lia.
Qed.

Lemma hex_value_four (h1 h2 h3 h4 : char) :
  is_hex h1 = true -> is_hex h2 = true -> is_hex h3 = true -> is_hex h4 = true ->
  exists v, hex_value [h1; h2; h3; h4] 0 = Some v /\ (v < 65536)%N.
Proof.
  intros H1 H2 H3 H4.
  destruct (hex_digit_bound _ H1) as (d1 & E1 & B1).
  destruct (hex_digit_bound _ H2) as (d2 & E2 & B2).
  destruct (hex_digit_bound _ H3) as (d3 & E3 & B3).
  destruct (hex_digit_bound _ H4) as (d4 & E4 & B4).
  cbn [hex_value]. rewrite E1, E2, E3, E4.
  eexists. split; [reflexivity|]. lia.
Qed.

Lemma decode_piece (names : list N -> option char) (p : piece) (s : list N) :
  piece_supported p = true ->
  unicode_escape_decode names (piece_source p ++ s)
  = push (piece_char p) (unicode_escape_decode names s).
Proof.
  unfold piece_supported. intros H. apply andb_prop in H as [Hwf H].
  destruct p as [c|e].
  - simpl in Hwf. apply andb_prop in Hwf as [_ Hb].
    cbn [piece_source piece_char app unicode_escape_decode]. rewrite Hb. reflexivity.
  - destruct e; try reflexivity; [discriminate|].
    simpl in Hwf. repeat (apply andb_prop in Hwf as [Hwf ?]).
    destruct (hex_value_four h1 h2 h3 h4) as (v & Hv & Hb); [done..|].
    change (unicode_escape_decode names (piece_source (Escaped (EscU h1 h2 h3 h4)) ++ s))
      with (hex_escape [h1; h2; h3; h4] (unicode_escape_decode names s)).
    unfold hex_escape. cbn [piece_char escape_char]. rewrite Hv. cbn [default].
    destruct (N.ltb_spec 1114111 v); [lia|]. reflexivity.
Qed.

Lemma decode_literal (names : list N -> option char) (ps : list piece) :
  forallb piece_supported ps = true ->
  unicode_escape_decode names (literal_source ps) = Ret (literal_value ps).
Proof.
  induction ps as [|p ps IH]; [done|]. simpl. intros H.
  apply andb_prop in H as [Hp Hps].
  unfold literal_source. cbn [map concat]. rewrite decode_piece by done.
  fold (literal_source ps). rewrite IH by done. reflexivity.
Qed.

Lemma piece_supported_wf (ps : list piece) :
  forallb piece_supported ps = true -> forallb piece_wf ps = true.
Proof.
  induction ps as [|p ps IH]; [done|]. simpl. intros H.
  apply andb_prop in H as [Hp Hps]. unfold piece_supported in Hp.
  apply andb_prop in Hp as [-> _]. by apply IH.
Qed.

(** The string parser on a literal of supported pieces. *)
Lemma parse_string_literal (names : list N -> option char) (inp : str) (index : nat)
    (ps : list piece) (rest : str) :
  drop index inp = QUOTE :: literal_source ps ++ QUOTE :: rest ->
  forallb piece_supported ps = true ->
  parse_string names inp index
  = Ret (literal_value ps, index + 1 + length (literal_source ps)).
Proof.
  intros Hdrop Hps. unfold parse_string.
  rewrite (char_at_drop _ _ _ _ Hdrop). cbn [bind]. rewrite N.eqb_refl. cbn [negb].
  pose proof (drop_next _ _ _ _ Hdrop) as Hnext. rewrite Hnext.
  rewrite find_closing_quote_literal by (by apply piece_supported_wf). cbn [bind].
  unfold slice. rewrite Hnext.
  replace (index + 1 + length (literal_source ps) - (index + 1))
    with (length (literal_source ps)) by lia.
  rewrite take_app_length.
  rewrite utf8_encode_ascii by (by apply literal_source_ascii). cbn [bind].
  rewrite decode_literal by done. reflexivity.
Qed.

(** X17: at an offset where the input reads a quote, a literal made of
    ASCII characters other than quote and backslash and of the escapes of
    the quote and of the backslash, [\b], [\f], [\n], [\r], [\t] and
    [\uXXXX], and a closing quote, the string parser returns the offset of
    the closing quote and the string in which every character outside an
    escape is kept and every escape is the one character it denotes. *)
Theorem parse_string_resolves_escapes (names : list N -> option char) (inp : str)
    (index : nat) (ps : list piece) (rest : str) :
  drop index inp = QUOTE :: literal_source ps ++ QUOTE :: rest ->
  forallb piece_supported ps = true ->
  exists end_index,
    parse_string names inp index = Ret (literal_value ps, end_index)
    /\ end_index = index + 1 + length (literal_source ps)
    /\ char_at inp end_index = Ret QUOTE.
Proof.
  intros Hdrop Hps. eexists. split; [by apply (parse_string_literal _ _ _ _ rest)|].
  split; [reflexivity|].
  apply (char_at_drop _ _ _ rest).
  rewrite <- Nat.add_assoc, <- drop_drop, Hdrop.
  cbn [drop Nat.add]. apply drop_app_length.
Qed.

(** C4: the string parser resolves the escapes of a literal with the
    [unicode_escape] codec, applied to the UTF-8 bytes of the literal.  The
    codec has no escape [\/]: the literal of the escaped slash is decoded
    to the two characters backslash and slash, where the escape denotes the
    one character slash.  The codec reads every byte as one character: the
    literal of the character U+00E9, which is no part of an escape, is
    decoded to the two characters U+00C3 and U+00A9 of its UTF-8 bytes, not
    to the character as it occurs in the source.  Both results are what the
    entry point returns inside a document. *)
Theorem parse_string_keeps_escaped_slash (names : list N -> option char)
    (stack : nat) :
  forallb piece_wf [Escaped EscSlash] = true
  /\ parse_string names (QUOTE :: literal_source [Escaped EscSlash] ++ [QUOTE]) 0
     = Ret ([chr "\"; chr "/"], 3)
  /\ literal_value [Escaped EscSlash] = [chr "/"]
  /\ forallb piece_wf [Plain 233%N] = true
  /\ parse_string names (QUOTE :: literal_source [Plain 233%N] ++ [QUOTE]) 0
     = Ret ([195%N; 169%N], 2)
  /\ literal_value [Plain 233%N] = [233%N]
  /\ parse_json names (S stack) (py "['\/']") = Ret (VList [VStr [chr "\"; chr "/"]])
  /\ parse_json names (S stack) [chr "["; QUOTE; 233%N; QUOTE; chr "]"]
     = Ret (VList [VStr [195%N; 169%N]]).
Proof. repeat split; vm_compute; reflexivity. Qed.

Lemma parse_string_resolves_escapes_witness :
  parse_string empty_name_table (py "{'a\n\u00e9': 1}") 1
  = Ret ([chr "a"; 10%N; 233%N], 11).
Proof.
  destruct (parse_string_resolves_escapes empty_name_table (py "{'a\n\u00e9': 1}") 1
              [Plain (chr "a"); Escaped EscN;
               Escaped (EscU (chr "0") (chr "0") (chr "e") (chr "9"))]
              (py ": 1}")) as (e & Hp & -> & _); [reflexivity..|].
  exact Hp.
Defined.

(** ** C7: duplicate keys *)

Lemma dict_getitem_setitem (d : list (str * value)) (k k' : str) (v : value) :
  dict_getitem (dict_setitem d k v) k'
  = if str_eqb k k' then Some v else dict_getitem d k'.
Proof.
  induction d as [|[k0 v0] d IH]; cbn [dict_setitem dict_getitem]; [reflexivity|].
  unfold str_eqb in *. destruct (decide (k0 = k)) as [->|Hk].
  - rewrite bool_decide_eq_true_2 by done. cbn [dict_getitem]. unfold str_eqb.
    destruct (bool_decide (k = k')); reflexivity.
  - rewrite (bool_decide_eq_false_2 (k0 = k)) by done. cbn [dict_getitem]. unfold str_eqb.
    destruct (decide (k0 = k')) as [->|Hk'].
    + rewrite bool_decide_eq_true_2 by done.
      rewrite bool_decide_eq_false_2 by congruence. reflexivity.
    + rewrite (bool_decide_eq_false_2 (k0 = k')) by done. exact IH.
Qed.

Lemma dict_getitem_store_all (ms : list (str * value)) :
  forall (result : list (str * value)) (k : str),
    dict_getitem (store_all ms result) k
    = match last_binding ms k with
      | Some v => Some v
      | None => dict_getitem result k
      end.
Proof.
  induction ms as [|[k0 v0] ms IH]; intros result k; [reflexivity|].
  unfold store_all in *. cbn [fold_left last_binding fst snd]. rewrite IH.
  destruct (last_binding ms k); [reflexivity|].
  rewrite dict_getitem_setitem. destruct (str_eqb k0 k); reflexivity.
Qed.

Section Members.

Variable names : list N -> option char.
Variable pv : str -> nat -> outcome (value * nat).
Variable inp : str.

Lemma object_loop_members (fuel : nat) :
  forall (i : nat) (result d : list (str * value)) (e : nat) (c : char),
    char_at inp i = Ret c -> c <> chr "}" ->
    object_loop names pv fuel inp i result = Ret (d, e) ->
    exists ms, object_members names pv inp i ms e /\ d = store_all ms result.
Proof.
  induction fuel as [|fuel IH]; intros i result d e c Hc Hne H; [discriminate|].
  cbn [object_loop] in H. rewrite Hc in H. cbn [bind] in H.
  apply N.eqb_neq in Hne. rewrite Hne in H.
  apply bind_Ret_inv in H as ([key ke] & Hkey & H).
  apply bind_Ret_inv in H as (c1 & Hc1 & H).
  destruct (N.eqb_spec c1 (chr ":")) as [->|_]; [|discriminate]. cbn [negb] in H.
  apply bind_Ret_inv in H as ([v ve] & Hv & H).
  apply bind_Ret_inv in H as (c2 & Hc2 & H).
  destruct (N.eqb_spec c2 (chr ",")) as [->|Hcomma].
  - apply bind_Ret_inv in H as (c3 & Hc3 & H).
    destruct (N.eqb_spec c3 (chr "}")) as [->|Hc3ne]; [discriminate|].
    destruct (IH _ _ _ _ _ Hc2 ltac:(discriminate) H) as (ms & Hms & ->).
    exists ((key, v) :: ms). split; [|reflexivity].
    by apply (members_more _ _ _ _ key ke v ve c3).
  - destruct (N.eqb_spec c2 (chr "}")) as [->|_]; [|discriminate]. cbn [negb] in H.
    destruct fuel as [|fuel]; [discriminate|].
    rewrite object_loop_close in H by done. injection H as <- <-.
    exists [(key, v)]. split; [|reflexivity].
    by apply (members_last _ _ _ _ key ke v ve).
Qed.

Lemma members_object_loop (i : nat) (ms : list (str * value)) (e : nat) :
  object_members names pv inp i ms e ->
  forall (fuel : nat) (result : list (str * value)) (c : char),
    char_at inp i = Ret c -> c <> chr "}" ->
    length ms < fuel ->
    object_loop names pv fuel inp i result = Ret (store_all ms result, e).
Proof.
  induction 1 as [i key ke v e Hkey Hcolon Hv Hclose
                 |i key ke v e c' ms e' Hkey Hcolon Hv Hcomma Hc' Hne' _ IH];
    intros fuel result c Hc Hne Hfuel; simpl in Hfuel.
  - destruct fuel as [|[|fuel]]; [lia..|].
    by apply (object_loop_last _ _ _ _ _ _ c key ke).
  - destruct fuel as [|fuel]; [lia|].
    rewrite (object_loop_more _ _ _ _ _ _ c c' key ke v e) by done.
    apply (IH fuel _ (chr ",")); [done|discriminate|lia].
Qed.

End Members.

Lemma parse_number_value (inp : str) (index : nat) (v : value) (e : nat) :
  parse_number inp index = Ret (v, e) ->
  (exists n, v = VInt n) \/ (exists f, v = VFloat f).
Proof.
  unfold parse_number. intros H.
  apply bind_Ret_inv in H as (c & _ & H).
  destruct (negb (is_digit c)); [discriminate|].
  apply bind_Ret_inv in H as ([[rs dc] i] & _ & H).
  destruct (0 <? dc).
  - destruct (py_float_outcome rs) as [[f Hf]|Hf]; rewrite Hf in H;
      cbn [bind except_ValueError] in H; [|discriminate].
    injection H as <- <-. eauto.
  - destruct (py_int_outcome rs) as [[n Hn]|Hn]; rewrite Hn in H;
      cbn [bind except_ValueError] in H; [|discriminate].
    injection H as <- <-. eauto.
Qed.

Lemma _parse_json_dict (names : list N -> option char) (fuel depth : nat) (inp : str)
    (index : nat) (d : list (str * value)) (e : nat) :
  _parse_json names (S fuel) depth inp index = Ret (VDict d, e) ->
  parse_object names (_parse_json names fuel (depth - 1)) fuel inp index = Ret (d, e).
Proof.
  rewrite _parse_json_S. intros H.
  apply bind_Ret_inv in H as (c & _ & H).
  destruct (c =? chr "{")%N.
  { destruct depth as [|depth]; [discriminate|].
    apply bind_Ret_inv in H as ([d' e'] & Hd & H). injection H as <- <-.
    by rewrite Nat.sub_succ, Nat.sub_0_r. }
  destruct (c =? chr "[")%N.
  { destruct depth as [|depth]; [discriminate|].
    apply bind_Ret_inv in H as ([? ?] & _ & H). discriminate. }
  destruct (c =? QUOTE)%N.
  { apply bind_Ret_inv in H as ([? ?] & _ & H). discriminate. }
  destruct (c =? chr "t")%N.
  { apply bind_Ret_inv in H as ([? ?] & _ & H). discriminate. }
  destruct (c =? chr "f")%N.
  { apply bind_Ret_inv in H as ([? ?] & _ & H). discriminate. }
  destruct (c =? chr "n")%N.
  { apply bind_Ret_inv in H as ([? ?] & _ & H). discriminate. }
  apply parse_number_value in H as [[n H]|[f H]]; discriminate.
Qed.

Lemma parse_object_members (names : list N -> option char)
    (pv : str -> nat -> outcome (value * nat)) (fuel : nat) (inp : str)
    (index : nat) (d : list (str * value)) (e : nat) :
  parse_object names pv fuel inp index = Ret (d, e) ->
  exists ms, object_members names pv inp index ms e
             /\ forall k, dict_getitem d k = last_binding ms k.
Proof.
  unfold parse_object. intros H.
  apply bind_Ret_inv in H as (c & Hc & H).
  destruct (N.eqb_spec c (chr "{")) as [->|_]; [|discriminate]. cbn [negb] in H.
  destruct (object_loop_members names pv inp fuel _ _ _ _ _ Hc ltac:(discriminate) H)
    as (ms & Hms & ->).
  exists ms. split; [done|]. intros k. rewrite dict_getitem_store_all.
  destruct (last_binding ms k); reflexivity.
Qed.

(** C7: the mapping the object parser returns binds every key to the value
    of the last pair with that key among the pairs of the document, in the
    order in which they occur; an object whose pairs are [ms] is decoded
    to such a mapping; the same holds of the object at the root of a
    decoded document; and [decode('{"a": 1, "a": 2}')] is [{a: 2}]. *)
Theorem duplicate_keys_last_wins (names : list N -> option char) :
  (forall pv fuel inp index d e,
      parse_object names pv fuel inp index = Ret (d, e) ->
      exists ms, object_members names pv inp index ms e
                 /\ forall k, dict_getitem d k = last_binding ms k)
  /\ (forall pv fuel inp index ms e,
        char_at inp index = Ret (chr "{") ->
        object_members names pv inp index ms e ->
        length ms < fuel ->
        exists d, parse_object names pv fuel inp index = Ret (d, e)
                  /\ forall k, dict_getitem d k = last_binding ms k)
  /\ (forall stack inp d,
        parse_json names stack inp = Ret (VDict d) ->
        exists ms e,
          object_members names (_parse_json names (length inp) (stack - 1)) inp
            (skip_whitespace inp 0) ms e
          /\ forall k, dict_getitem d k = last_binding ms k)
  /\ (forall stack,
        parse_json names (S stack) (py "{'a': 1, 'a': 2}")
        = Ret (VDict [(py "a", VInt 2)])).
Proof.
  split; [|split; [|split]].
  - intros pv fuel inp index d e. apply parse_object_members.
  - intros pv fuel inp index ms e Hc Hms Hfuel.
    exists (store_all ms []). split.
    + unfold parse_object. rewrite Hc. cbn [bind]. rewrite N.eqb_refl. cbn [negb].
      apply (members_object_loop names pv inp index ms e Hms fuel [] (chr "{"));
        [done|discriminate|done].
    + intros k. rewrite dict_getitem_store_all.
      destruct (last_binding ms k); reflexivity.
  - intros stack inp d H. unfold parse_json in H.
    destruct (length inp <=? skip_whitespace inp 0); [discriminate|].
    apply bind_Ret_inv in H as (c & _ & H).
    destruct (negb (char_in c "{[")); [discriminate|].
    destruct (_parse_json names (S (length inp)) stack inp (skip_whitespace inp 0))
      as [[v e]|ex|] eqn:Hv; cbn [bind except_IndexError] in H.
    + destruct (_ <? _); [discriminate|]. injection H as ->.
      apply _parse_json_dict, parse_object_members in Hv as (ms & Hms & Hk).
      exists ms, e. done.
    + destruct ex; discriminate.
    + discriminate.
  - intros stack. vm_compute. reflexivity.
Qed.

Lemma duplicate_keys_last_wins_witness :
  exists ms e,
    object_members empty_name_table (_parse_json empty_name_table 24 0)
      (py "{'a': 1, 'b': 2, 'a': 3}") 0 ms e
    /\ forall k, dict_getitem [(py "a", VInt 3); (py "b", VInt 2)] k = last_binding ms k.
Proof.
  destruct (duplicate_keys_last_wins empty_name_table) as (_ & _ & H & _).
  apply (H 1 (py "{'a': 1, 'b': 2, 'a': 3}")). reflexivity.
Defined.

(** ** C3: round trip through the reference encoder *)

Lemma digits_acc_app (fuel : nat) :
  forall (n : N) (acc : str), digits_acc fuel n acc = digits_acc fuel n [] ++ acc.
Proof.
  induction fuel as [|fuel IH]; intros n acc; [reflexivity|].
  cbn [digits_acc]. destruct (n / 10 =? 0)%N; [reflexivity|].
  rewrite (IH _ ((48 + n mod 10)%N :: acc)), (IH _ [(48 + n mod 10)%N]).
  rewrite <- app_assoc. reflexivity.
Qed.

Lemma digits_value_snoc (s : str) (c : char) :
  digits_value (s ++ [c]) = (digits_value s * 10 + (c - 48))%N.
Proof. rewrite digits_value_app. reflexivity. Qed.

Lemma digits_acc_value (fuel : nat) :
  forall n : N, (n < 2 ^ N.of_nat fuel)%N -> digits_value (digits_acc fuel n []) = n.
Proof.
  induction fuel as [|fuel IH]; intros n Hn.
  - simpl in Hn. assert (n = 0%N) by lia. subst n. reflexivity.
  - cbn [digits_acc].
    pose proof (N.div_mod n 10 ltac:(lia)) as Hdm.
    pose proof (N.mod_lt n 10 ltac:(lia)) as Hm.
    destruct (N.eqb_spec (n / 10) 0) as [E|E].
    + unfold digits_value. cbn [fold_left]. clear Hn IH. lia_divmod.
    + rewrite digits_acc_app, digits_value_snoc, IH.
      * clear Hn IH E. lia_divmod.
      * rewrite Nat2N.inj_succ, N.pow_succ_r' in Hn.
        apply N.Div0.div_lt_upper_bound. lia.
Qed.

Lemma digits_acc_digits (fuel : nat) :
  forall (n : N) (acc : str),
    forallb is_digit acc = true -> forallb is_digit (digits_acc fuel n acc) = true.
Proof.
  induction fuel as [|fuel IH]; intros n acc Hacc; [exact Hacc|].
  cbn [digits_acc].
  assert (Hd : forallb is_digit ((48 + n mod 10)%N :: acc) = true).
  { simpl. rewrite Hacc, andb_true_r. apply is_digit_range.
    pose proof (N.mod_lt n 10 ltac:(lia)). lia_divmod. }
  destruct (n / 10 =? 0)%N; [exact Hd|]. by apply IH.
Qed.

Lemma str_of_N_digits (n : N) :
  exists d lexeme,
    str_of_N n = d :: lexeme /\ is_digit d = true /\ forallb is_digit lexeme = true.
Proof.
  pose proof (digits_acc_digits (S (N.to_nat (N.log2 n))) n [] eq_refl) as H.
  unfold str_of_N. destruct (digits_acc _ n []) as [|d lexeme] eqn:E.
  - cbn [digits_acc] in E. destruct (n / 10 =? 0)%N; [discriminate|].
    rewrite digits_acc_app in E. by apply app_nil in E as [_ E].
  - simpl in H. apply andb_prop in H as [Hd Hl]. eauto.
Qed.

Lemma str_of_N_value (n : N) : digits_value (str_of_N n) = n.
Proof.
  apply digits_acc_value.
  rewrite Nat2N.inj_succ, N2Nat.id.
  destruct (N.eq_dec n 0%N) as [->|Hn]; [reflexivity|].
  apply N.log2_spec. lia.
Qed.

Lemma hex_char_digit (d : N) : (d < 16)%N -> hex_digit (hex_char d) = Some d.
Proof.
  intros H.
  assert (Hd : (d = 0 \/ d = 1 \/ d = 2 \/ d = 3 \/ d = 4 \/ d = 5 \/ d = 6 \/ d = 7
                \/ d = 8 \/ d = 9 \/ d = 10 \/ d = 11 \/ d = 12 \/ d = 13 \/ d = 14
                \/ d = 15)%N) by lia.
  repeat destruct Hd as [->|Hd]; try subst d; reflexivity.
Qed.

Lemma hex_char_is_hex (d : N) : (d < 16)%N -> is_hex (hex_char d) = true.
Proof. intros H. unfold is_hex. by rewrite hex_char_digit. Qed.

Lemma hex4_value (c : N) :
  (c < 65536)%N ->
  hex_value [hex_char (c / 4096); hex_char (c / 256 mod 16);
             hex_char (c / 16 mod 16); hex_char (c mod 16)]%N 0 = Some c.
Proof.
  intros Hc. cbn [hex_value].
  assert (H1 : (c / 4096 < 16)%N) by (apply N.Div0.div_lt_upper_bound; lia).
  pose proof (N.mod_lt (c / 256) 16 ltac:(lia)) as H2.
  pose proof (N.mod_lt (c / 16) 16 ltac:(lia)) as H3.
  pose proof (N.mod_lt c 16 ltac:(lia)) as H4.
  rewrite !hex_char_digit by done. f_equal.
  pose proof (N.div_mod c 16 ltac:(lia)) as E0.
  pose proof (N.div_mod (c / 16) 16 ltac:(lia)) as E1.
  pose proof (N.div_mod (c / 256) 16 ltac:(lia)) as E2.
  replace (c / 256)%N with (c / 16 / 16)%N in * by (rewrite N.Div0.div_div; reflexivity).
  replace (c / 4096)%N with (c / 16 / 16 / 16)%N in *
    by (rewrite !N.Div0.div_div; reflexivity).
  lia_divmod.
Qed.

Lemma piece_of_char_spec (c : char) :
  is_bmp c = true ->
  encode_char c = piece_source (piece_of_char c)
  /\ piece_supported (piece_of_char c) = true
  /\ piece_char (piece_of_char c) = c.
Proof.
  unfold is_bmp. intros Hc. apply N.ltb_lt in Hc.
  unfold encode_char, piece_of_char.
  destruct (N.eqb_spec c QUOTE) as [->|H1]; [done|].
  destruct (N.eqb_spec c (chr "\")) as [->|H2]; [done|].
  destruct (N.eqb_spec c 10) as [->|H3]; [done|].
  destruct (N.eqb_spec c 13) as [->|H4]; [done|].
  destruct (N.eqb_spec c 9) as [->|H5]; [done|].
  destruct (N.eqb_spec c 12) as [->|H6]; [done|].
  destruct (N.eqb_spec c 8) as [->|H7]; [done|].
  destruct ((32 <=? c) && (c <=? 126))%N eqn:Hp.
  - apply andb_prop in Hp as [Hlo Hhi]. apply N.leb_le in Hlo, Hhi.
    split; [done|]. split; [|done].
    unfold piece_supported, piece_wf.
    apply N.eqb_neq in H1, H2. rewrite H1, H2. simpl.
    apply N.ltb_lt. lia.
  - destruct (N.ltb_spec c 65536); [|lia].
    assert (H1' : (c / 4096 < 16)%N) by (apply N.Div0.div_lt_upper_bound; lia).
    pose proof (N.mod_lt (c / 256) 16 ltac:(lia)).
    pose proof (N.mod_lt (c / 16) 16 ltac:(lia)).
    pose proof (N.mod_lt c 16 ltac:(lia)).
    split; [reflexivity|]. split.
    + unfold piece_supported, piece_wf. rewrite !hex_char_is_hex by done. reflexivity.
    + cbn [piece_char escape_char]. rewrite hex4_value by done. reflexivity.
Qed.

Lemma encode_string_pieces (s : str) :
  forallb is_bmp s = true ->
  flat_map encode_char s = literal_source (map piece_of_char s)
  /\ forallb piece_supported (map piece_of_char s) = true
  /\ literal_value (map piece_of_char s) = s.
Proof.
  induction s as [|c s IH]; [done|]. simpl. intros H.
  apply andb_prop in H as [Hc Hs].
  destruct (piece_of_char_spec c Hc) as (E1 & E2 & E3).
  destruct (IH Hs) as (I1 & I2 & I3).
  unfold literal_source, literal_value in *. cbn [map concat].
  rewrite E1, E2, E3, I1, I2, I3. done.
Qed.

Lemma parse_number_float (inp : str) (index : nat) (d : char) (lexeme : str)
    (stop : char) (rest : str) (f : spec_float) :
  drop index inp = (d :: lexeme) ++ stop :: rest ->
  is_digit d = true ->
  forallb is_number_char lexeme = true ->
  is_number_char stop = false ->
  dot_count (d :: lexeme) = 1 ->
  dots_followed_by_digit ((d :: lexeme) ++ [stop]) = true ->
  py_float (d :: lexeme) = Ret f ->
  parse_number inp index = Ret (VFloat f, index + length lexeme).
Proof.
  intros Hdrop Hd Hall Hstop Hdots Hok Hf.
  assert (Hnum : forallb is_number_char (d :: lexeme) = true).
  { simpl. rewrite is_number_char_cases, Hd, Hall. reflexivity. }
  rewrite (parse_number_loop _ _ _ _ _ _ Hdrop Hd).
  rewrite (number_loop_accepts inp stop rest (d :: lexeme) [] 0 index Hnum Hstop)
    by (first [lia | done]).
  cbn [bind app]. rewrite Hdots. cbn [Nat.add Nat.ltb Nat.leb].
  rewrite Hf. cbn [bind except_ValueError length]. eq_ret.
Qed.

Lemma dots_followed_app (s : str) (stop : char) :
  dots_followed_by_digit s = true -> (stop =? chr ".")%N = false ->
  dots_followed_by_digit (s ++ [stop]) = true.
Proof.
  intros H Hstop. induction s as [|c s IH]; simpl in *.
  - rewrite Hstop. reflexivity.
  - apply andb_prop in H as [Hc Hs]. rewrite IH by done. rewrite andb_true_r.
    destruct (c =? chr ".")%N; [|reflexivity].
    destruct s; [discriminate|exact Hc].
Qed.

Lemma float_same_eq (a b : spec_float) : float_same a b = true -> a = b.
Proof.
  destruct a, b; simpl; try discriminate; try reflexivity.
  - intros H. apply Bool.eqb_prop in H. by subst.
  - intros H. apply Bool.eqb_prop in H. by subst.
  - intros H. apply andb_prop in H as [H He]. apply andb_prop in H as [Hs Hm].
    apply Bool.eqb_prop in Hs. apply Pos.eqb_eq in Hm. apply Z.eqb_eq in He.
    by subst.
Qed.

Lemma dict_setitem_fresh (d : list (str * value)) (k : str) (v : value) :
  k ∉ map fst d -> dict_setitem d k v = d ++ [(k, v)].
Proof.
  induction d as [|[k0 v0] d IH]; [reflexivity|]. simpl. intros Hk.
  apply not_elem_of_cons in Hk as [Hne Hk].
  unfold str_eqb. rewrite bool_decide_eq_false_2 by congruence.
  by rewrite IH.
Qed.

Lemma join_comma_more (a b : str) (l : list str) :
  join_comma (a :: b :: l) = a ++ [chr ","; chr " "] ++ join_comma (b :: l).
Proof. reflexivity. Qed.

Lemma join_comma_cons (a : str) (l : list str) :
  exists t, join_comma (a :: l) = a ++ t.
Proof.
  destruct l as [|b l]; simpl; [exists []; by rewrite app_nil_r|eauto].
Qed.

(** Structural induction on value trees. *)
Lemma value_tree_ind (P : value -> Prop) :
  P VNone ->
  (forall b, P (VBool b)) ->
  (forall n, P (VInt n)) ->
  (forall f, P (VFloat f)) ->
  (forall s, P (VStr s)) ->
  (forall items, Forall P items -> P (VList items)) ->
  (forall members, Forall (fun kv => P kv.2) members -> P (VDict members)) ->
  forall v, P v.
Proof.
  intros HNone HBool HInt HFloat HStr HList HDict.
  fix IH 1. intros [ |b|n|f|s|items|members].
  - exact HNone.
  - apply HBool.
  - apply HInt.
  - apply HFloat.
  - apply HStr.
  - apply HList. induction items as [|x items IHitems]; constructor; [apply IH|exact IHitems].
  - apply HDict. induction members as [|[k x] members IHm]; constructor;
      [apply IH|exact IHm].
Qed.

Section RoundTrip.

Variable names : list N -> option char.
Variable float_repr : spec_float -> str.

Lemma dumps_head (v : value) :
  supported float_repr v = true ->
  exists c s, json_text float_repr v = c :: s
              /\ is_space c = false /\ c <> chr "]" /\ c <> chr "}".
Proof.
  destruct v as [ |b|n|f|s|items|members]; simpl; intros H.
  - exists (chr "n"), (py "ull"). done.
  - subst b. exists (chr "t"), (py "rue"). done.
  - apply andb_prop in H as [H _].
    apply Z.leb_le in H. destruct (Z.ltb_spec n 0); [lia|].
    destruct (str_of_N_digits (Z.abs_N n)) as (d & lexeme & -> & Hd & _).
    exists d, lexeme. split; [done|]. split; [by apply is_digit_not_space|].
    apply is_digit_range in Hd. split; intros ->; vm_compute in Hd; destruct Hd; done.
  - apply andb_prop in H as [H _]. unfold plain_decimal in H.
    destruct (float_text float_repr f) as [|d lexeme]; [discriminate|].
    repeat (apply andb_prop in H as [H ?]).
    exists d, lexeme. split; [done|]. split; [by apply is_digit_not_space|].
    apply is_digit_range in H. split; intros ->; vm_compute in H; destruct H; done.
  - eexists QUOTE, _. done.
  - eexists (chr "["), _. done.
  - eexists (chr "{"), _. done.
Qed.

Lemma parse_string_encoded (inp : str) (j : nat) (k rest : str) :
  drop j inp = encode_basestring_ascii k ++ rest ->
  forallb is_bmp k = true ->
  parse_string names inp j = Ret (k, j + length (encode_basestring_ascii k) - 1).
Proof.
  intros Hdrop Hk.
  destruct (encode_string_pieces k Hk) as (E1 & E2 & E3).
  unfold encode_basestring_ascii in *. rewrite E1 in *.
  rewrite (parse_string_literal names inp j (map piece_of_char k) rest).
  - rewrite E3. cbn [length]. rewrite length_app. simpl. eq_ret.
  - rewrite Hdrop. simpl. rewrite <- app_assoc. reflexivity.
  - exact E2.
Qed.

Section Loops.

Variable pv : str -> nat -> outcome (value * nat).
Variable inp : str.
Variable index0 : nat.

Lemma stops_comma (r : str) : stops (chr "," :: r).
Proof. by exists (chr ","), r. Qed.

Lemma stops_bracket (r : str) : stops (chr "]" :: r).
Proof. by exists (chr "]"), r. Qed.

Lemma stops_brace (r : str) : stops (chr "}" :: r).
Proof. by exists (chr "}"), r. Qed.

Lemma drop_nonempty_lt (i : nat) (c : char) (r : str) :
  drop i inp = c :: r -> i < length inp.
Proof. intros H. by apply char_at_drop, char_at_lt in H. Qed.

Lemma array_loop_dumps (items : list value) :
  Forall (reads_back float_repr pv inp index0) items ->
  forallb (supported float_repr) items = true ->
  items <> [] ->
  forall (fuel i : nat) (c : char) (result : list value) (rest : str),
    index0 <= i ->
    char_at inp i = Ret c -> c <> chr "]" ->
    drop (skip_whitespace inp (i + 1)) inp
    = join_comma (map (json_text float_repr) items) ++ chr "]" :: rest ->
    length inp - i <= fuel ->
    array_loop pv fuel inp i result
    = Ret (result ++ items,
           skip_whitespace inp (i + 1)
           + length (join_comma (map (json_text float_repr) items))).
Proof.
  induction items as [|x xs IH]; intros Hrb Hsup Hne fuel i c result rest
    Hi0 Hc Hcne Hdrop Hfuel; [done|].
  inversion Hrb as [|? ? Hx Hxs]; subst.
  simpl in Hsup. apply andb_prop in Hsup as [Hsx Hsxs].
  pose proof (char_at_lt _ _ _ Hc) as Hlt.
  pose proof (skip_whitespace_next inp i Hlt) as Hj.
  set (j := skip_whitespace inp (i + 1)) in *.
  destruct (dumps_head x Hsx) as (cx & sx & Ex & _ & _ & _).
  assert (HL : 1 <= length (json_text float_repr x)) by (rewrite Ex; simpl; lia).
  destruct xs as [|y ys].
  - cbn [map join_comma] in *.
    pose proof (Hx j (chr "]" :: rest) ltac:(lia) Hdrop (stops_bracket _)) as Hv.
    pose proof (drop_skip _ _ _ _ Hdrop) as Hclose.
    pose proof (drop_nonempty_lt _ _ _ Hclose) as Hlt2.
    assert (Hskip : skip_whitespace inp (j + length (json_text float_repr x) - 1 + 1)
                    = j + length (json_text float_repr x)).
    { replace (j + length (json_text float_repr x) - 1 + 1)
        with (j + length (json_text float_repr x)) by lia.
      by apply (skip_whitespace_stay _ _ _ _ Hclose). }
    destruct fuel as [|[|fuel]]; [lia..|].
    rewrite (array_loop_last pv _ inp i result c x _ Hc Hcne Hv).
    + rewrite Hskip. reflexivity.
    + rewrite Hskip. apply (char_at_drop _ _ _ _ Hclose).
  - cbn [map] in Hdrop |- *. rewrite join_comma_more in Hdrop |- *.
    set (tail := join_comma (json_text float_repr y :: map (json_text float_repr) ys)) in *.
    rewrite <- !app_assoc in Hdrop. cbn [app] in Hdrop.
    pose proof (Hx j _ ltac:(lia) Hdrop (stops_comma _)) as Hv.
    pose proof (drop_skip _ _ _ _ Hdrop) as Hcomma.
    pose proof (drop_nonempty_lt _ _ _ Hcomma) as Hlt2.
    set (next := j + length (json_text float_repr x)) in *.
    assert (Hskip : skip_whitespace inp (next - 1 + 1) = next).
    { replace (next - 1 + 1) with next by (unfold next; lia).
      by apply (skip_whitespace_stay _ _ _ _ Hcomma). }
    simpl in Hsxs. apply andb_prop in Hsxs as [Hsy Hsys].
    destruct (dumps_head y Hsy) as (cy & sy & Ey & Hspy & Hcy & _).
    destruct (join_comma_cons (json_text float_repr y) (map (json_text float_repr) ys))
      as [t Et].
    fold tail in Et.
    pose proof (drop_next _ _ _ _ Hcomma) as Hsp.
    assert (Hpeek : skip_whitespace inp (next + 1) = next + 1 + 1).
    { rewrite (skip_whitespace_spaces inp (next + 1) [chr " "] cy (sy ++ t ++ chr "]" :: rest));
        [reflexivity| |reflexivity|exact Hspy].
      rewrite Hsp, Et, Ey. cbn [app]. rewrite <- !app_assoc. reflexivity. }
    pose proof (drop_next _ _ _ _ Hsp) as Hy.
    destruct fuel as [|fuel]; [lia|].
    rewrite (array_loop_more pv _ inp i result c cy x _ Hc Hcne Hv).
    + rewrite Hskip.
      rewrite (IH Hxs ltac:(simpl; by rewrite Hsy, Hsys) ltac:(done) fuel next (chr ",")
                 (result ++ [x]) rest).
      * rewrite Hpeek, <- app_assoc. cbn [app]. rewrite !length_app. cbn [length].
        unfold next, tail. cbn [map]. eq_ret.
      * unfold next. lia.
      * by apply (char_at_drop _ _ _ _ Hcomma).
      * discriminate.
      * rewrite Hpeek. exact Hy.
      * unfold next in *. lia.
    + rewrite Hskip. by apply (char_at_drop _ _ _ _ Hcomma).
    + rewrite Hskip, Hpeek. apply (char_at_drop inp _ cy (sy ++ t ++ chr "]" :: rest)).
      rewrite Hy, Et, Ey. cbn [app]. rewrite <- !app_assoc. reflexivity.
    + exact Hcy.
Qed.

Lemma json_dumps_list (items : list value) :
  json_text float_repr (VList items)
  = chr "[" :: join_comma (map (json_text float_repr) items) ++ [chr "]"].
Proof. reflexivity. Qed.

Lemma json_dumps_dict (members : list (str * value)) :
  json_text float_repr (VDict members)
  = chr "{" :: join_comma (map (member_text float_repr) members) ++ [chr "}"].
Proof. reflexivity. Qed.

Lemma object_loop_dumps (members : list (str * value)) :
  Forall (fun kv => reads_back float_repr pv inp index0 kv.2) members ->
  forallb (fun kv => forallb is_bmp kv.1 && supported float_repr kv.2) members = true ->
  members <> [] ->
  forall (fuel i : nat) (c : char) (result : list (str * value)) (rest : str),
    index0 <= i ->
    char_at inp i = Ret c -> c <> chr "}" ->
    NoDup (map fst result ++ map fst members) ->
    drop (skip_whitespace inp (i + 1)) inp
    = join_comma (map (member_text float_repr) members) ++ chr "}" :: rest ->
    length inp - i <= fuel ->
    object_loop names pv fuel inp i result
    = Ret (result ++ members,
           skip_whitespace inp (i + 1) + length (join_comma (map (member_text float_repr) members))).
Proof.
  induction members as [|[k x] ms IH]; intros Hrb Hsup Hne fuel i c result rest
    Hi0 Hc Hcne Hnd Hdrop Hfuel; [done|].
  inversion Hrb as [|? ? Hx Hxs]; subst. cbn [snd] in Hx.
  cbn [forallb fst snd] in Hsup. apply andb_prop in Hsup as [Hkx Hsms].
  apply andb_prop in Hkx as [Hk Hsx].
  pose proof (char_at_lt _ _ _ Hc) as Hlt.
  pose proof (skip_whitespace_next inp i Hlt) as Hj.
  set (j := skip_whitespace inp (i + 1)) in *.
  destruct (dumps_head x Hsx) as (cx & sx & Ex & Hspx & _ & _).
  set (ek := encode_basestring_ascii k) in *.
  set (dx := json_text float_repr x) in *.
  assert (HLk : 2 <= length ek).
  { unfold ek, encode_basestring_ascii. simpl. rewrite length_app. simpl. lia. }
  assert (HLx : 1 <= length dx) by (rewrite Ex; simpl; lia).
  assert (Hfresh : dict_setitem result k x = result ++ [(k, x)]).
  { apply dict_setitem_fresh. cbn [map fst] in Hnd.
    apply list.NoDup_app in Hnd as (_ & Hnd & _). intros Hin.
    apply (Hnd k Hin). apply elem_of_cons. by left. }
  assert (Htext : forall t,
             drop j inp = (ek ++ [chr ":"; chr " "] ++ dx) ++ t ->
             stops t ->
             exists ke e,
               parse_string names inp j = Ret (k, ke)
               /\ char_at inp (skip_whitespace inp (ke + 1)) = Ret (chr ":")
               /\ pv inp (skip_whitespace inp (skip_whitespace inp (ke + 1) + 1)) = Ret (x, e)
               /\ e + 1 = j + length (ek ++ [chr ":"; chr " "] ++ dx)
               /\ drop (e + 1) inp = t).
  { intros t Ht Hstop.
    rewrite <- !app_assoc in Ht. cbn [app] in Ht.
    pose proof (parse_string_encoded inp j k _ Ht Hk) as Hkey. fold ek in Hkey.
    pose proof (drop_skip _ _ _ _ Ht) as Hcolon.
    assert (Hci : skip_whitespace inp (j + length ek - 1 + 1) = j + length ek).
    { replace (j + length ek - 1 + 1) with (j + length ek) by lia.
      by apply (skip_whitespace_stay _ _ _ _ Hcolon). }
    pose proof (drop_next _ _ _ _ Hcolon) as Hsp.
    assert (Hvs : skip_whitespace inp (j + length ek + 1) = j + length ek + 1 + 1).
    { rewrite (skip_whitespace_spaces inp (j + length ek + 1) [chr " "] cx (sx ++ t));
        [reflexivity| |reflexivity|exact Hspx].
      rewrite Hsp, Ex. reflexivity. }
    pose proof (drop_next _ _ _ _ Hsp) as Hval.
    pose proof (Hx (j + length ek + 1 + 1) t ltac:(lia) Hval Hstop) as Hv. fold dx in Hv.
    exists (j + length ek - 1), (j + length ek + 1 + 1 + length dx - 1).
    split; [exact Hkey|]. rewrite Hci, Hvs.
    split; [by apply (char_at_drop _ _ _ _ Hcolon)|]. split; [exact Hv|].
    split; [rewrite !length_app; simpl; lia|].
    replace (j + length ek + 1 + 1 + length dx - 1 + 1)
      with (j + length ek + 1 + 1 + length dx) by lia.
    by apply drop_skip. }
  destruct ms as [|m2 ms'].
  - cbn [map join_comma] in Hdrop |- *.
    change (member_text float_repr (k, x)) with (ek ++ [chr ":"; chr " "] ++ dx) in *.
    destruct (Htext _ Hdrop (stops_brace _)) as (ke & e & Hkey & Hcolon & Hv & He & Hclose).
    assert (Hskip : skip_whitespace inp (e + 1) = e + 1).
    { by apply (skip_whitespace_stay _ _ _ _ Hclose). }
    pose proof (drop_nonempty_lt _ _ _ Hclose) as Hlt2.
    destruct fuel as [|[|fuel]]; [lia..|].
    rewrite (object_loop_last names pv _ inp i result c k ke x e Hc Hcne Hkey Hcolon Hv).
    + rewrite Hskip, Hfresh, He. reflexivity.
    + rewrite Hskip. by apply (char_at_drop _ _ _ _ Hclose).
  - cbn [map] in Hdrop |- *. rewrite join_comma_more in Hdrop |- *.
    change (member_text float_repr (k, x)) with (ek ++ [chr ":"; chr " "] ++ dx) in *.
    set (tail := join_comma (member_text float_repr m2 :: map (member_text float_repr) ms')) in *.
    rewrite <- (app_assoc _ ([chr ","; chr " "] ++ tail)) in Hdrop.
    destruct (Htext _ Hdrop) as (ke & e & Hkey & Hcolon & Hv & He & Hcomma).
    { rewrite <- app_assoc. apply stops_comma. }
    rewrite <- app_assoc in Hcomma. cbn [app] in Hcomma.
    assert (Hskip : skip_whitespace inp (e + 1) = e + 1).
    { by apply (skip_whitespace_stay _ _ _ _ Hcomma). }
    pose proof (drop_nonempty_lt _ _ _ Hcomma) as Hlt2.
    destruct (join_comma_cons (member_text float_repr m2) (map (member_text float_repr) ms')) as [t Et].
    fold tail in Et.
    assert (Et' : exists t2, tail = QUOTE :: t2).
    { rewrite Et. unfold member_text, encode_basestring_ascii. cbn [app]. eauto. }
    destruct Et' as [t2 Et'].
    pose proof (drop_next _ _ _ _ Hcomma) as Hsp.
    assert (Hpeek : skip_whitespace inp (e + 1 + 1) = e + 1 + 1 + 1).
    { rewrite (skip_whitespace_spaces inp (e + 1 + 1) [chr " "] QUOTE
                 (t2 ++ chr "}" :: rest));
        [reflexivity| |reflexivity|reflexivity].
      rewrite Hsp, Et'. reflexivity. }
    pose proof (drop_next _ _ _ _ Hsp) as Hnext.
    destruct fuel as [|fuel]; [lia|].
    rewrite (object_loop_more names pv _ inp i result c QUOTE k ke x e
               Hc Hcne Hkey Hcolon Hv).
    + rewrite Hskip, Hfresh.
      rewrite (IH Hxs Hsms ltac:(done) fuel (e + 1) (chr ",") (result ++ [(k, x)]) rest).
      * rewrite Hpeek, <- app_assoc. cbn [app].
        rewrite !length_app in He |- *. cbn [length] in He |- *.
        rewrite ?length_app. unfold tail. cbn [map length]. eq_ret.
      * lia.
      * by apply (char_at_drop _ _ _ _ Hcomma).
      * discriminate.
      * rewrite map_app, <- app_assoc. exact Hnd.
      * rewrite Hpeek. exact Hnext.
      * lia.
    + rewrite Hskip. by apply (char_at_drop _ _ _ _ Hcomma).
    + rewrite Hskip, Hpeek. apply (char_at_drop inp _ QUOTE (t2 ++ chr "}" :: rest)).
      rewrite Hnext, Et'. reflexivity.
    + discriminate.
Qed.

End Loops.

Lemma slice_prefix (inp : str) (index : nat) (k rest : str) :
  drop index inp = k ++ rest -> slice inp index (index + length k) = k.
Proof.
  intros H. unfold slice. rewrite H.
  replace (index + length k - index) with (length k) by lia.
  apply take_app_length.
Qed.

(** The dispatcher reads a supported value back from its text. *)
Lemma _parse_json_dumps (v : value) :
  supported float_repr v = true ->
  forall (fuel depth : nat) (inp : str) (index : nat) (rest : str),
    drop index inp = json_text float_repr v ++ rest ->
    (needs_stop v = true -> stops rest) ->
    length inp - index < fuel ->
    nesting v <= depth ->
    _parse_json names fuel depth inp index
    = Ret (v, index + length (json_text float_repr v) - 1).
Proof.
  induction v as [ |b|n|f|s|items IH|members IH] using value_tree_ind;
    intros Hsup fuel depth inp index rest Hdrop Hstop Hfuel Hdepth;
    (destruct fuel as [|fuel]; [lia|]); rewrite _parse_json_S.
  - (* null *)
    rewrite (char_at_drop inp index (chr "n") (py "ull" ++ rest) Hdrop). cbn [bind].
    change (chr "n" =? chr "{")%N with false. change (chr "n" =? chr "[")%N with false.
    change (chr "n" =? QUOTE)%N with false. change (chr "n" =? chr "t")%N with false.
    change (chr "n" =? chr "f")%N with false. rewrite N.eqb_refl.
    unfold parse_null.
    rewrite (char_at_drop inp index (chr "n") (py "ull" ++ rest) Hdrop). cbn [bind].
    rewrite N.eqb_refl. cbn [negb].
    pose proof (slice_prefix inp index (py "null") rest Hdrop) as Hs.
    change (length (py "null")) with 4 in Hs. rewrite Hs.
    change (str_eqb (py "null") (py "null")) with true. cbn [negb bind].
    change (length (json_text float_repr VNone)) with 4. eq_ret.
  - (* true *)
    simpl in Hsup. subst b.
    rewrite (char_at_drop inp index (chr "t") (py "rue" ++ rest) Hdrop). cbn [bind].
    change (chr "t" =? chr "{")%N with false. change (chr "t" =? chr "[")%N with false.
    change (chr "t" =? QUOTE)%N with false. rewrite N.eqb_refl.
    unfold parse_true.
    rewrite (char_at_drop inp index (chr "t") (py "rue" ++ rest) Hdrop). cbn [bind].
    rewrite N.eqb_refl. cbn [negb].
    pose proof (slice_prefix inp index (py "true") rest Hdrop) as Hs.
    change (length (py "true")) with 4 in Hs. rewrite Hs.
    change (str_eqb (py "true") (py "true")) with true. cbn [negb bind].
    change (length (json_text float_repr (VBool true))) with 4. eq_ret.
  - (* int *)
    rewrite <- _parse_json_S.
    cbn [supported] in Hsup. apply andb_prop in Hsup as [Hsup Hmax].
    apply Z.leb_le in Hsup. apply Nat.leb_le in Hmax.
    cbn [json_text] in Hdrop |- *. destruct (Z.ltb_spec n 0); [lia|].
    cbn [app] in Hdrop |- *.
    destruct (str_of_N_digits (Z.abs_N n)) as (d & lexeme & E & Hd & Hl).
    pose proof (str_of_N_value (Z.abs_N n)) as Hval.
    rewrite E in Hdrop, Hval, Hmax |- *.
    destruct (Hstop eq_refl) as (c & r & -> & Hc).
    rewrite (_parse_json_digit names fuel depth inp index d (char_at_drop _ _ _ _ Hdrop) Hd).
    rewrite (parse_number_int inp index d lexeme c r Hdrop Hd Hl Hc Hmax).
    rewrite Hval, N2Z.inj_abs_N, Z.abs_eq by lia. cbn [length]. eq_ret.
  - (* float *)
    rewrite <- _parse_json_S.
    cbn [supported] in Hsup. apply andb_prop in Hsup as [Hplain Hback].
    cbn [json_text] in Hdrop |- *.
    destruct (py_float (float_text float_repr f)) as [f'| |] eqn:Hf; try discriminate.
    apply float_same_eq in Hback. subst f'.
    unfold plain_decimal in Hplain.
    destruct (float_text float_repr f) as [|d lexeme] eqn:E; [discriminate|].
    apply andb_prop in Hplain as [Hplain Hok].
    apply andb_prop in Hplain as [Hplain Hone].
    apply andb_prop in Hplain as [Hd Hl].
    apply Nat.eqb_eq in Hone.
    destruct (Hstop eq_refl) as (c & r & -> & Hc).
    rewrite (_parse_json_digit names fuel depth inp index d (char_at_drop _ _ _ _ Hdrop) Hd).
    rewrite (parse_number_float inp index d lexeme c r f Hdrop Hd Hl Hc Hone); [| |done].
    + cbn [length]. eq_ret.
    + apply dots_followed_app; [done|].
      rewrite is_number_char_cases in Hc. by apply orb_false_elim in Hc as [_ Hc].
  - (* str *)
    cbn [supported] in Hsup. cbn [json_text] in Hdrop |- *.
    rewrite (char_at_drop inp index QUOTE (flat_map encode_char s ++ [QUOTE] ++ rest)).
    2: { rewrite Hdrop. unfold encode_basestring_ascii. cbn [app].
         rewrite <- app_assoc. reflexivity. }
    cbn [bind].
    change (QUOTE =? chr "{")%N with false. change (QUOTE =? chr "[")%N with false.
    rewrite N.eqb_refl.
    rewrite (parse_string_encoded inp index s rest Hdrop Hsup). reflexivity.
  - (* list *)
    cbn [supported] in Hsup. rewrite (json_dumps_list items) in Hdrop |- *.
    assert (Hne : items <> []) by (intros ->; discriminate).
    assert (Hall : forallb (supported float_repr) items = true)
      by (destruct items; [done|exact Hsup]).
    cbn [app] in Hdrop. rewrite <- app_assoc in Hdrop. cbn [app] in Hdrop.
    pose proof (char_at_drop _ _ _ _ Hdrop) as Hc.
    pose proof (char_at_lt _ _ _ Hc) as Hlt.
    rewrite Hc. cbn [bind].
    change (chr "[" =? chr "{")%N with false. rewrite N.eqb_refl.
    cbn [nesting] in Hdepth. destruct depth as [|depth]; [lia|].
    assert (Hmax : Forall (fun k => k <= depth) (map nesting items))
      by (apply list_max_le; lia).
    unfold parse_array. rewrite Hc. cbn [bind]. rewrite N.eqb_refl. cbn [negb].
    destruct items as [|x xs]; [done|].
    pose proof (drop_next _ _ _ _ Hdrop) as Hnext.
    assert (Hj : skip_whitespace inp (index + 1) = index + 1).
    { assert (Hsx : supported float_repr x = true)
        by (simpl in Hall; by apply andb_prop in Hall as [? _]).
      destruct (dumps_head x Hsx) as (cx & sx & Ex & Hspx & _ & _).
      destruct (join_comma_cons (json_text float_repr x) (map (json_text float_repr) xs))
        as [t Et].
      apply (skip_whitespace_stay inp _ cx (sx ++ t ++ chr "]" :: rest)); [|done].
      rewrite Hnext. cbn [map]. rewrite Et, Ex. cbn [app]. rewrite <- app_assoc.
      reflexivity. }
    rewrite (array_loop_dumps (_parse_json names fuel depth) inp index (x :: xs)) with
      (c := chr "[") (rest := rest); try done.
    + rewrite Hj. cbn [bind app length]. rewrite length_app. cbn [length]. eq_ret.
    + apply Forall_forall. intros y Hy index' rest' Hi' Hdrop' Hstop'.
      rewrite Forall_forall in IH. apply (IH y Hy) with (rest := rest'); try done.
      * rewrite forallb_forall in Hall. by apply Hall.
      * lia.
      * rewrite Forall_forall in Hmax. by apply Hmax, in_map.
    + rewrite Hj. exact Hnext.
    + lia.
  - (* dict *)
    cbn [supported] in Hsup. rewrite (json_dumps_dict members) in Hdrop |- *.
    assert (Hne : members <> []) by (intros ->; discriminate).
    assert (Hall : forallb (fun kv => forallb is_bmp kv.1 && supported float_repr kv.2)
                     members = true
                   /\ NoDup (map fst members)).
    { destruct members; [done|]. apply andb_prop in Hsup as [H1 H2].
      split; [exact H1|]. by apply bool_decide_eq_true in H2. }
    destruct Hall as [Hall Hnd].
    cbn [app] in Hdrop. rewrite <- app_assoc in Hdrop. cbn [app] in Hdrop.
    pose proof (char_at_drop _ _ _ _ Hdrop) as Hc.
    pose proof (char_at_lt _ _ _ Hc) as Hlt.
    rewrite Hc. cbn [bind]. rewrite N.eqb_refl.
    cbn [nesting] in Hdepth. destruct depth as [|depth]; [lia|].
    assert (Hmax : Forall (fun k => k <= depth) (map (fun kv => nesting kv.2) members))
      by (apply list_max_le; lia).
    unfold parse_object. rewrite Hc. cbn [bind]. rewrite N.eqb_refl. cbn [negb].
    destruct members as [|[k x] ms]; [done|].
    pose proof (drop_next _ _ _ _ Hdrop) as Hnext.
    assert (Hj : skip_whitespace inp (index + 1) = index + 1).
    { destruct (join_comma_cons (member_text float_repr (k, x)) (map (member_text float_repr) ms)) as [t Et].
      apply (skip_whitespace_stay inp _ QUOTE
               ((flat_map encode_char k ++ [QUOTE])
                ++ ([chr ":"; chr " "] ++ json_text float_repr x) ++ t ++ chr "}" :: rest));
        [|done].
      rewrite Hnext. cbn [map]. rewrite Et. unfold member_text, encode_basestring_ascii.
      cbn [fst snd app]. rewrite <- !app_assoc. reflexivity. }
    rewrite (object_loop_dumps (_parse_json names fuel depth) inp index ((k, x) :: ms)) with
      (c := chr "{") (rest := rest); try done.
    + rewrite Hj. cbn [bind app length]. rewrite length_app. cbn [length]. eq_ret.
    + apply Forall_forall. intros kv Hkv index' rest' Hi' Hdrop' Hstop'.
      rewrite Forall_forall in IH. apply (IH kv Hkv) with (rest := rest'); try done.
      * rewrite forallb_forall in Hall.
        specialize (Hall kv Hkv).
        by apply andb_prop in Hall as [_ ?].
      * lia.
      * rewrite Forall_forall in Hmax.
        by apply Hmax, (in_map (fun kv => nesting kv.2)).
    + rewrite Hj. exact Hnext.
    + lia.
Qed.

End RoundTrip.

Lemma digits_value_bound (s : str) :
  forall acc : N,
    forallb is_digit s = true ->
    (fold_left (fun acc c => acc * 10 + (c - 48)) s acc + 1
     <= (acc + 1) * 10 ^ N.of_nat (length s))%N.
Proof.
  induction s as [|c s IH]; intros acc Hs.
  - simpl. lia.
  - simpl in Hs. apply andb_prop in Hs as [Hc Hs]. apply is_digit_range in Hc.
    cbn [fold_left length]. rewrite Nat2N.inj_succ, N.pow_succ_r'.
    etransitivity; [apply (IH _ Hs)|].
    rewrite N.mul_assoc. apply N.mul_le_mono_r. lia.
Qed.

(** A number of at least [10 ^ k] has more than [k] digits. *)
Lemma str_of_N_long (n : N) (k : nat) :
  (10 ^ N.of_nat k <= n)%N -> k < length (str_of_N n).
Proof.
  intros Hn.
  destruct (str_of_N_digits n) as (d & lexeme & E & Hd & Hl).
  assert (Hall : forallb is_digit (str_of_N n) = true).
  { rewrite E. simpl. by rewrite Hd, Hl. }
  pose proof (digits_value_bound (str_of_N n) 0 Hall) as Hb.
  fold (digits_value (str_of_N n)) in Hb. rewrite str_of_N_value in Hb.
  assert (N.of_nat k < N.of_nat (length (str_of_N n)))%N; [|lia].
  apply (N.pow_lt_mono_r_iff 10); lia.
Qed.

Lemma json_dumps_text (float_repr : spec_float -> str) (levels : nat) (v : value)
    (text : str) :
  json_dumps float_repr levels v = Ret text -> text = json_text float_repr v.
Proof.
  unfold json_dumps. destruct (encoder_fault levels v); [discriminate|].
  by intros [= <-].
Qed.




(** * Further properties of the module *)

(** ** White space *)

Lemma skip_spaces_spec (rest : str) :
  forall i : nat,
    (forall k c, k < skip_spaces rest i - i -> rest !! k = Some c -> is_space c = true)
    /\ (forall c, rest !! (skip_spaces rest i - i) = Some c -> is_space c = false).
Proof.
  induction rest as [|c0 rest IH]; intros i; simpl.
  - split; intros; discriminate.
  - destruct (is_space c0) eqn:Hc0.
    + destruct (IH (S i)) as [IH1 IH2].
      pose proof (skip_spaces_bounds rest (S i)) as Hb.
      replace (skip_spaces rest (S i) - i) with (S (skip_spaces rest (S i) - S i)) by lia.
      split.
      * intros [|k] c Hk Hc; simpl in Hc; [congruence|]. apply (IH1 k); [lia|done].
      * intros c Hc. simpl in Hc. by apply IH2.
    + rewrite Nat.sub_diag. split; [intros; lia|].
      intros c [= <-]. exact Hc0.
Qed.

Lemma skip_whitespace_all_spaces (inp : str) :
  forallb is_space inp = true -> skip_whitespace inp 0 = length inp.
Proof.
  intros H. unfold skip_whitespace. rewrite Nat.min_0_l, drop_0.
  assert (Hi : forall i, skip_spaces inp i = i + length inp); [|apply Hi].
  induction inp as [|c inp IH]; intros i; simpl; [lia|].
  simpl in H. apply andb_prop in H as [Hc Hrest]. rewrite Hc, IH by done. lia.
Qed.

(** X1: [skip_whitespace] returns an offset between the start (clamped to
    the length) and the length of the input; every character from the
    start up to that offset is white space and the character at that
    offset, if there is one, is not.  The four examples of its docstring
    evaluate as documented. *)
Theorem skip_whitespace_spec :
  (forall (inp : str) (start_index : nat),
      Nat.min start_index (length inp) <= skip_whitespace inp start_index <= length inp
      /\ (forall i c, start_index <= i < skip_whitespace inp start_index ->
                      inp !! i = Some c -> is_space c = true)
      /\ (forall c, inp !! skip_whitespace inp start_index = Some c -> is_space c = false))
  /\ skip_whitespace (py "    {'hello': 'world'}") 0 = 4
  /\ skip_whitespace (py "     ") 0 = 5
  /\ skip_whitespace (py "  {'hello':    'world'}   ") 4 = 4
  /\ skip_whitespace (py "  {'hello':    'world'}   ") 11 = 15.
Proof.
  split; [|repeat split; reflexivity].
  intros inp start. split; [apply skip_whitespace_bounds|].
  unfold skip_whitespace. set (s := Nat.min start (length inp)).
  destruct (skip_spaces_spec (drop s inp) s) as [H1 H2].
  pose proof (skip_spaces_bounds (drop s inp) s) as Hb.
  split.
  - intros i c Hi Hc.
    assert (Hs : s = start) by (unfold s; apply lookup_lt_Some in Hc; lia).
    apply (H1 (i - s)); [lia|]. rewrite lookup_drop.
    replace (s + (i - s)) with i by lia. exact Hc.
  - intros c Hc. apply H2. rewrite lookup_drop.
    replace (s + (skip_spaces (drop s inp) s - s)) with (skip_spaces (drop s inp) s) by lia.
    exact Hc.
Qed.

Lemma skip_whitespace_spec_witness :
  is_space (chr " ") = true.
Proof.
  destruct skip_whitespace_spec as [H _].
  destruct (H (py "[1,   2]") 3) as (_ & Hspace & _).
  apply (Hspace 4 (chr " ")); [vm_compute; lia|reflexivity].
Defined.

(** ** The literal parsers *)

Lemma slice_keyword (inp : str) (index : nat) (k : str) :
  k <> [] ->
  slice inp index (index + length k) = k <-> exists rest, drop index inp = k ++ rest.
Proof.
  intros Hk. split.
  - intros H. exists (drop (length k) (drop index inp)).
    unfold slice in H. replace (index + length k - index) with (length k) in H by lia.
    rewrite <- H at 1. symmetry. apply take_drop.
  - intros [rest H]. by apply (slice_prefix inp index k rest).
Qed.

(** X2: the true-literal and the null-literal parsers return exactly where
    the keyword occurs verbatim at the offset, with the offset of its last
    character; at any other offset inside the input they raise the parse
    error for that offset, and past the end they raise an index fault. *)
Theorem literal_parsers_exact (inp : str) (index : nat) :
  (parse_true inp index = Ret (true, index + 3)
   <-> exists rest, drop index inp = py "true" ++ rest)
  /\ (parse_null inp index = Ret (tt, index + 3)
      <-> exists rest, drop index inp = py "null" ++ rest)
  /\ (index < length inp ->
      ~ (exists rest, drop index inp = py "true" ++ rest) ->
      parse_true inp index
      = Raise (InvalidJSONError InvalidLiteral (unexpected_token_message inp index)))
  /\ (index < length inp ->
      ~ (exists rest, drop index inp = py "null" ++ rest) ->
      parse_null inp index
      = Raise (InvalidJSONError InvalidLiteral (unexpected_token_message inp index)))
  /\ (length inp <= index ->
      parse_true inp index = Raise IndexError /\ parse_null inp index = Raise IndexError).
Proof.
  pose proof (slice_keyword inp index (py "true") ltac:(discriminate)) as Ht.
  pose proof (slice_keyword inp index (py "null") ltac:(discriminate)) as Hn.
  change (length (py "true")) with 4 in Ht. change (length (py "null")) with 4 in Hn.
  unfold parse_true, parse_null, str_eqb.
  destruct (char_at_outcome inp index) as [(c & Hc & Hlt)|Hc]; rewrite Hc; cbn [bind].
  - pose proof (drop_char_at _ _ _ Hc) as Hd.
    assert (Hct : (c =? chr "t")%N = false ->
                  ~ (exists rest, drop index inp = py "true" ++ rest)).
    { intros E [rest Hr]. rewrite Hr in Hd. injection Hd as <- _. discriminate. }
    assert (Hcn : (c =? chr "n")%N = false ->
                  ~ (exists rest, drop index inp = py "null" ++ rest)).
    { intros E [rest Hr]. rewrite Hr in Hd. injection Hd as <- _. discriminate. }
    repeat split; try (intros; lia).
    + destruct (c =? chr "t")%N; cbn [negb]; [|discriminate].
      case_bool_decide; [tauto|discriminate].
    + intros H. destruct (c =? chr "t")%N eqn:E; [|by apply Hct in H].
      cbn [negb]. rewrite bool_decide_eq_true_2 by tauto. reflexivity.
    + destruct (c =? chr "n")%N; cbn [negb]; [|discriminate].
      case_bool_decide; [tauto|discriminate].
    + intros H. destruct (c =? chr "n")%N eqn:E; [|by apply Hcn in H].
      cbn [negb]. rewrite bool_decide_eq_true_2 by tauto. reflexivity.
    + intros _ H. destruct (c =? chr "t")%N; [|reflexivity]. cbn [negb].
      rewrite bool_decide_eq_false_2 by tauto. reflexivity.
    + intros _ H. destruct (c =? chr "n")%N; [|reflexivity]. cbn [negb].
      rewrite bool_decide_eq_false_2 by tauto. reflexivity.
  - apply char_at_IndexError in Hc.
    assert (Hnil : drop index inp = []) by (by apply drop_ge).
    repeat split; try discriminate; try (intros; lia).
    + intros [rest Hr]. rewrite Hnil in Hr. discriminate.
    + intros [rest Hr]. rewrite Hnil in Hr. discriminate.
Qed.

Lemma literal_parsers_exact_witness :
  parse_true (py "[null, true]") 7 = Ret (true, 10)
  /\ parse_null (py "[null, true]") 7
     = Raise (InvalidJSONError InvalidLiteral
                (unexpected_token_message (py "[null, true]") 7)).
Proof.
  destruct (literal_parsers_exact (py "[null, true]") 7) as (Ht & _ & _ & Hn & _).
  split.
  - apply Ht. by exists (py "]").
  - apply Hn; [vm_compute; lia|]. intros [rest Hr]. discriminate.
Defined.

(** ** Guards of the entry point *)

(** X3: a document that is empty or holds only white space is rejected
    with the parse error positioned at its end. *)
Theorem blank_document_rejected (names : list N -> option char) (stack : nat)
    (inp : str) :
  forallb is_space inp = true ->
  parse_json names stack inp
  = Raise (InvalidJSONError EmptyInput (unexpected_token_message inp (length inp))).
Proof.
  intros H. unfold parse_json. rewrite (skip_whitespace_all_spaces inp H).
  rewrite Nat.leb_refl. reflexivity.
Qed.

Lemma blank_document_rejected_witness :
  parse_json empty_name_table 0 (py "   ")
  = Raise (InvalidJSONError EmptyInput (unexpected_token_message (py "   ") 3)).
Proof. apply (blank_document_rejected empty_name_table 0 (py "   ")). reflexivity. Defined.

(** X4: a document whose first character after the leading white space is
    neither an opening brace nor an opening bracket is rejected with the
    parse error positioned at that character, whatever follows: numbers,
    strings and literals are not accepted at the root. *)
Theorem scalar_root_rejected (names : list N -> option char) (stack : nat)
    (ws : str) (c : char) (rest : str) :
  forallb is_space ws = true ->
  is_space c = false ->
  char_in c "{[" = false ->
  parse_json names stack (ws ++ c :: rest)
  = Raise (InvalidJSONError InvalidRoot
             (unexpected_token_message (ws ++ c :: rest) (length ws))).
Proof.
  intros Hws Hc Hroot. unfold parse_json.
  assert (Hskip : skip_whitespace (ws ++ c :: rest) 0 = length ws).
  { rewrite (skip_whitespace_spaces _ 0 ws c rest); [reflexivity|by rewrite drop_0|done..]. }
  rewrite Hskip.
  destruct (Nat.leb_spec (length (ws ++ c :: rest)) (length ws)) as [Hle|_].
  { rewrite length_app in Hle. simpl in Hle. lia. }
  rewrite (char_at_drop _ _ c rest) by apply drop_app_length.
  cbn [bind]. rewrite Hroot. reflexivity.
Qed.

Lemma scalar_root_rejected_witness :
  parse_json empty_name_table 0 (py " 123")
  = Raise (InvalidJSONError InvalidRoot (unexpected_token_message (py " 123") 1)).
Proof.
  apply (scalar_root_rejected empty_name_table 0 (py " ") (chr "1") (py "23")); reflexivity.
Defined.

(** ** Elements of an array, in order *)

Section Elements.

Variable pv : str -> nat -> outcome (value * nat).
Variable inp : str.

Lemma array_loop_elements (fuel : nat) :
  forall (i : nat) (result l : list value) (e : nat) (c : char),
    char_at inp i = Ret c -> c <> chr "]" ->
    array_loop pv fuel inp i result = Ret (l, e) ->
    exists vs, array_elements pv inp i vs e /\ l = result ++ vs.
Proof.
  induction fuel as [|fuel IH]; intros i result l e c Hc Hne H; [discriminate|].
  cbn [array_loop] in H. rewrite Hc in H. cbn [bind] in H.
  apply N.eqb_neq in Hne. rewrite Hne in H.
  apply bind_Ret_inv in H as ([v ve] & Hv & H).
  apply bind_Ret_inv in H as (c2 & Hc2 & H).
  destruct (N.eqb_spec c2 (chr ",")) as [->|Hcomma].
  - apply bind_Ret_inv in H as (c3 & Hc3 & H).
    destruct (N.eqb_spec c3 (chr "]")) as [->|Hc3ne]; [discriminate|].
    destruct (IH _ _ _ _ _ Hc2 ltac:(discriminate) H) as (vs & Hvs & ->).
    exists (v :: vs). split; [|by rewrite <- app_assoc].
    by apply (elements_more _ _ _ v ve c3).
  - destruct (N.eqb_spec c2 (chr "]")) as [->|_]; [|discriminate]. cbn [negb] in H.
    destruct fuel as [|fuel]; [discriminate|].
    rewrite array_loop_close in H by done. injection H as <- <-.
    exists [v]. split; [|reflexivity].
    by apply (elements_last _ _ _ v ve).
Qed.

Lemma elements_array_loop (i : nat) (vs : list value) (e : nat) :
  array_elements pv inp i vs e ->
  forall (fuel : nat) (result : list value) (c : char),
    char_at inp i = Ret c -> c <> chr "]" ->
    length vs < fuel ->
    array_loop pv fuel inp i result = Ret (result ++ vs, e).
Proof.
  induction 1 as [i v e Hv Hclose|i v e c' vs e' Hv Hcomma Hc' Hne' _ IH];
    intros fuel result c Hc Hne Hfuel; simpl in Hfuel.
  - destruct fuel as [|[|fuel]]; [lia..|].
    by apply (array_loop_last _ _ _ _ _ c).
  - destruct fuel as [|fuel]; [lia|].
    rewrite (array_loop_more _ _ _ _ _ c c' v e) by done.
    rewrite (IH fuel _ (chr ",")); [by rewrite <- app_assoc|done|discriminate|lia].
Qed.

Lemma elements_end (i : nat) (vs : list value) (e : nat) :
  array_elements pv inp i vs e -> char_at inp e = Ret (chr "]") /\ vs <> [].
Proof. induction 1; [done|]. split; [tauto|discriminate]. Qed.

Lemma elements_values (P : value -> Prop) (i : nat) (vs : list value) (e : nat) :
  (forall j v e, pv inp j = Ret (v, e) -> P v) ->
  array_elements pv inp i vs e -> Forall P vs.
Proof. intros HP. induction 1; constructor; eauto. Qed.

End Elements.

(** X5: the list the array parser returns holds exactly the values of the
    elements of the array, in the order in which they occur in the
    document; and an array whose elements are [vs] is decoded to [vs]. *)
Theorem array_elements_in_order :
  (forall pv fuel inp index l e,
      parse_array pv fuel inp index = Ret (l, e) ->
      char_at inp index = Ret (chr "[") /\ array_elements pv inp index l e)
  /\ (forall pv fuel inp index vs e,
        char_at inp index = Ret (chr "[") ->
        array_elements pv inp index vs e ->
        length vs < fuel ->
        parse_array pv fuel inp index = Ret (vs, e)).
Proof.
  split.
  - intros pv fuel inp index l e H. unfold parse_array in H.
    apply bind_Ret_inv in H as (c & Hc & H).
    destruct (N.eqb_spec c (chr "[")) as [->|_]; [|discriminate]. cbn [negb] in H.
    split; [done|].
    destruct (array_loop_elements pv inp fuel _ _ _ _ _ Hc ltac:(discriminate) H)
      as (vs & Hvs & ->).
    exact Hvs.
  - intros pv fuel inp index vs e Hc Hvs Hfuel. unfold parse_array.
    rewrite Hc. cbn [bind]. rewrite N.eqb_refl. cbn [negb].
    by apply (elements_array_loop pv inp index vs e Hvs fuel [] (chr "[")).
Qed.

Lemma array_elements_in_order_witness :
  array_elements (_parse_json empty_name_table 9 1) (py "[1 , [2]]") 0
    [VInt 1; VList [VInt 2]] 8.
Proof.
  destruct array_elements_in_order as [H _].
  apply (H (_parse_json empty_name_table 9 1) 9 (py "[1 , [2]]") 0). reflexivity.
Defined.

(** ** The cursor convention *)

Lemma find_closing_quote_at (n : nat) :
  forall (rest : str) (k e : nat),
    length rest <= n ->
    find_closing_quote rest k = Ret e ->
    k <= e /\ rest !! (e - k) = Some QUOTE.
Proof.
  induction n as [|n IH]; intros rest k e Hlen H.
  - destruct rest; [discriminate|simpl in Hlen; lia].
  - destruct rest as [|c rest]; [discriminate|]. cbn [find_closing_quote] in H.
    simpl in Hlen.
    destruct (N.eqb_spec c QUOTE) as [->|_].
    { injection H as <-. rewrite Nat.sub_diag. split; [lia|reflexivity]. }
    destruct (c =? chr "\")%N.
    + destruct rest as [|c' rest]; [discriminate|]. simpl in Hlen.
      apply IH in H as [Hle Hq]; [|lia]. split; [lia|].
      replace (e - k) with (S (S (e - (k + 2)))) by lia. exact Hq.
    + apply IH in H as [Hle Hq]; [|lia]. split; [lia|].
      replace (e - k) with (S (e - (k + 1))) by lia. exact Hq.
Qed.

Lemma parse_string_closes (names : list N -> option char) (inp : str) (i : nat)
    (s : str) (e : nat) :
  parse_string names inp i = Ret (s, e) ->
  char_at inp i = Ret QUOTE /\ char_at inp e = Ret QUOTE /\ i < e.
Proof.
  unfold parse_string. intros H.
  apply bind_Ret_inv in H as (c & Hc & H).
  destruct (N.eqb_spec c QUOTE) as [->|_]; [|discriminate]. cbn [negb] in H.
  apply bind_Ret_inv in H as (e' & He & H).
  apply bind_Ret_inv in H as (raw & _ & H).
  apply bind_Ret_inv in H as (res & _ & H). injection H as _ <-.
  apply (find_closing_quote_at _ _ _ _ (le_n _)) in He as [Hle Hq].
  rewrite lookup_drop in Hq. replace (i + 1 + (e' - (i + 1))) with e' in Hq by lia.
  split; [done|]. split; [by apply char_at_Ret|lia].
Qed.

Lemma number_loop_last_digit (inp : str) (rest : str) :
  forall (index : nat) (rs : str) (dc : nat) (rs' : str) (dc' i' : nat),
    number_loop inp rest index rs dc = Ret (rs', dc', i') ->
    index < i' ->
    exists c, rest !! (i' - index - 1) = Some c /\ is_digit c = true.
Proof.
  induction rest as [|c rest IH]; intros index rs dc rs' dc' i' H Hlt; [discriminate|].
  cbn [number_loop] in H. fold (is_number_char c) in H.
  destruct (is_number_char c) eqn:Hc; [|injection H as _ _ <-; lia].
  assert (Hrec : forall rs0 dc0,
             number_loop inp rest (index + 1) rs0 dc0 = Ret (rs', dc', i') ->
             (is_digit c = true \/ index + 1 < i') ->
             exists c0, (c :: rest) !! (i' - index - 1) = Some c0 /\ is_digit c0 = true).
  { intros rs0 dc0 Hr Hcase.
    pose proof (number_loop_sound inp rest (index + 1) rs0 dc0) as Hs.
    rewrite Hr in Hs. destruct Hs as [Hb _].
    destruct (decide (i' = index + 1)) as [->|Hne].
    - destruct Hcase as [Hd|?]; [|lia].
      replace (index + 1 - index - 1) with 0 by lia. eauto.
    - destruct (IH _ _ _ _ _ _ Hr ltac:(lia)) as (c0 & Hc0 & Hd0).
      exists c0. split; [|done].
      replace (i' - index - 1) with (S (i' - (index + 1) - 1)) by lia. exact Hc0. }
  destruct (c =? chr ".")%N eqn:Hdot.
  - destruct (1 <? dc + 1); [discriminate|].
    destruct rest as [|c' rest']; [discriminate|].
    change (char_in c' "0123456789") with (is_digit c') in H.
    destruct (is_digit c') eqn:Hd'; [|discriminate]. cbn [negb] in H.
    apply (Hrec _ _ H). right.
    pose proof (number_loop_sound inp (c' :: rest') (index + 1) (rs ++ [c]) (dc + 1)) as Hs.
    rewrite H in Hs. destruct Hs as [_ Hfirst].
    apply (Hfirst c' rest' eq_refl). by rewrite is_number_char_cases, Hd'.
  - apply (Hrec _ _ H). left.
    by rewrite is_number_char_cases, Hdot, orb_false_r in Hc.
Qed.

Lemma parse_number_ends (inp : str) (i : nat) (v : value) (e : nat) :
  parse_number inp i = Ret (v, e) ->
  exists c c',
    char_at inp i = Ret c /\ is_digit c = true
    /\ char_at inp e = Ret c' /\ is_digit c' = true.
Proof.
  intros H. pose proof H as H0. unfold parse_number in H.
  apply bind_Ret_inv in H as (c & Hc & H).
  destruct (is_digit c) eqn:Hd; [|discriminate]. cbn [negb] in H.
  apply bind_Ret_inv in H as ([[rs dc] i'] & Hloop & H).
  assert (He : e = i' - 1).
  { destruct (0 <? dc).
    - destruct (py_float_outcome rs) as [[f Hf]|Hf]; rewrite Hf in H;
        cbn [bind except_ValueError] in H; [|discriminate]. by injection H as _ <-.
    - destruct (py_int_outcome rs) as [[n Hn]|Hn]; rewrite Hn in H;
        cbn [bind except_ValueError] in H; [|discriminate]. by injection H as _ <-. }
  pose proof (number_loop_sound inp (drop i inp) i [] 0) as Hs.
  rewrite Hloop in Hs. destruct Hs as [Hb Hfirst].
  specialize (Hfirst c _ (drop_char_at _ _ _ Hc)).
  rewrite is_number_char_cases, Hd in Hfirst. specialize (Hfirst eq_refl).
  destruct (number_loop_last_digit _ _ _ _ _ _ _ _ Hloop Hfirst) as (c' & Hc' & Hd').
  exists c, c'. split; [done|]. split; [done|]. split; [|done].
  apply char_at_Ret. rewrite lookup_drop in Hc'. subst e.
  replace (i + (i' - i - 1)) with (i' - 1) in Hc' by lia. exact Hc'.
Qed.

Lemma members_end (names : list N -> option char)
    (pv : str -> nat -> outcome (value * nat)) (inp : str)
    (i : nat) (ms : list (str * value)) (e : nat) :
  object_members names pv inp i ms e -> char_at inp e = Ret (chr "}") /\ ms <> [].
Proof. induction 1; [done|]. split; [tauto|discriminate]. Qed.

Lemma char_at_keyword_last (inp : str) (index : nat) (k : str) (c : char) (rest : str) :
  drop index inp = k ++ c :: rest -> char_at inp (index + length k) = Ret c.
Proof. intros H. apply (char_at_drop _ _ _ rest). by apply drop_skip. Qed.

(** X6: when the dispatcher returns a value and an offset, the offset is
    that of the last character of the value's text and the start offset
    that of its first: a dict runs from an opening to a closing brace, a
    list from an opening to a closing bracket, a string from quote to
    quote, [True] from [t] to [e], [None] from [n] to [l], and a number
    from a digit to a digit. *)
Theorem cursor_convention (names : list N -> option char) (fuel depth : nat)
    (inp : str) (index : nat) (v : value) (e : nat) :
  _parse_json names fuel depth inp index = Ret (v, e) ->
  exists c c',
    char_at inp index = Ret c /\ opens_with v c = true
    /\ char_at inp e = Ret c' /\ closes_with v c' = true
    /\ index <= e < length inp.
Proof.
  intros H.
  destruct (_parse_json_sound names fuel depth inp index) as [Hs _]. rewrite H in Hs.
  simpl in Hs.
  destruct fuel as [|fuel]; [discriminate|]. rewrite _parse_json_S in H.
  apply bind_Ret_inv in H as (c & Hc & H).
  destruct (N.eqb_spec c (chr "{")) as [->|_].
  { destruct depth as [|depth]; [discriminate|].
    apply bind_Ret_inv in H as ([d e'] & Hd & H). injection H as <- <-.
    apply parse_object_members in Hd as (ms & Hms & _).
    apply members_end in Hms as [Hclose _].
    exists (chr "{"), (chr "}"). done. }
  destruct (N.eqb_spec c (chr "[")) as [->|_].
  { destruct depth as [|depth]; [discriminate|].
    apply bind_Ret_inv in H as ([l e'] & Hl & H). injection H as <- <-.
    unfold parse_array in Hl. rewrite Hc in Hl. cbn [bind negb] in Hl.
    rewrite N.eqb_refl in Hl. cbn [negb] in Hl.
    apply (array_loop_elements _ _ _ _ _ _ _ _ Hc ltac:(discriminate)) in Hl
      as (vs & Hvs & _).
    apply elements_end in Hvs as [Hclose _].
    exists (chr "["), (chr "]"). done. }
  destruct (N.eqb_spec c QUOTE) as [->|_].
  { apply bind_Ret_inv in H as ([s e'] & Hstr & H). injection H as <- <-.
    apply parse_string_closes in Hstr as (_ & Hclose & _).
    exists QUOTE, QUOTE. done. }
  destruct (N.eqb_spec c (chr "t")) as [->|_].
  { apply bind_Ret_inv in H as ([b e'] & Ht & H). injection H as <- <-.
    unfold parse_true in Ht. rewrite Hc in Ht. cbn [bind] in Ht.
    rewrite N.eqb_refl in Ht. cbn [negb] in Ht.
    unfold str_eqb in Ht. case_bool_decide as Hk; [|discriminate].
    injection Ht as <- <-.
    apply (slice_keyword inp index (py "true") ltac:(discriminate)) in Hk as [rest Hk].
    exists (chr "t"), (chr "e"). split; [done|]. split; [done|].
    split; [|done]. by apply (char_at_keyword_last inp index (py "tru") (chr "e") rest). }
  destruct (N.eqb_spec c (chr "f")) as [->|_].
  { apply bind_Ret_inv in H as ([b e'] & Hf & _). by apply parse_false_never_returns in Hf. }
  destruct (N.eqb_spec c (chr "n")) as [->|_].
  { apply bind_Ret_inv in H as ([u e'] & Hn & H). injection H as <- <-.
    unfold parse_null in Hn. rewrite Hc in Hn. cbn [bind] in Hn.
    rewrite N.eqb_refl in Hn. cbn [negb] in Hn.
    unfold str_eqb in Hn. case_bool_decide as Hk; [|discriminate].
    injection Hn as _ <-.
    apply (slice_keyword inp index (py "null") ltac:(discriminate)) in Hk as [rest Hk].
    exists (chr "n"), (chr "l"). split; [done|]. split; [done|].
    split; [|done]. by apply (char_at_keyword_last inp index (py "nul") (chr "l") rest). }
  pose proof (parse_number_value _ _ _ _ H) as Hv.
  apply parse_number_ends in H as (c0 & c' & Hc0 & Hd0 & Hc' & Hd').
  exists c0, c'. destruct Hv as [[n ->]|[f ->]]; done.
Qed.

Lemma cursor_convention_witness :
  exists c c',
    char_at (py "{'k': [10, 2.5]}") 6 = Ret c /\ opens_with (VList [VInt 10; VFloat (float_of_ratio 25 10)]) c = true
    /\ char_at (py "{'k': [10, 2.5]}") 14 = Ret c'
    /\ closes_with (VList [VInt 10; VFloat (float_of_ratio 25 10)]) c' = true
    /\ 6 <= 14 < length (py "{'k': [10, 2.5]}").
Proof.
  apply (cursor_convention empty_name_table 12 1). reflexivity.
Defined.

(** ** The trees the decoder builds *)

Lemma parse_json_Ret_inv (names : list N -> option char) (stack : nat) (inp : str)
    (v : value) :
  parse_json names stack inp = Ret v ->
  exists c e,
    char_at inp (skip_whitespace inp 0) = Ret c
    /\ char_in c "{[" = true
    /\ _parse_json names (S (length inp)) stack inp (skip_whitespace inp 0) = Ret (v, e)
    /\ length inp <= skip_whitespace inp (e + 1).
Proof.
  unfold parse_json. intros H.
  destruct (length inp <=? skip_whitespace inp 0); [discriminate|].
  apply bind_Ret_inv in H as (c & Hc & H).
  destruct (char_in c "{[") eqn:Hroot; [|discriminate]. cbn [negb] in H.
  destruct (_parse_json names (S (length inp)) stack inp (skip_whitespace inp 0))
    as [[v' e]|x|] eqn:Hv; cbn [bind] in H.
  - destruct (Nat.ltb_spec (skip_whitespace inp (e + 1)) (length inp)) as [|Hend].
    + discriminate.
    + injection H as <-. by exists c, e.
  - by destruct x.
  - discriminate.
Qed.

Lemma dict_setitem_keys (d : list (str * value)) (k : str) (v : value) (x : str) :
  x ∈ map fst (dict_setitem d k v) -> x ∈ map fst d \/ x = k.
Proof.
  induction d as [|[k0 v0] d IH]; simpl.
  - intros Hx. apply list_elem_of_singleton in Hx. by right.
  - unfold str_eqb. case_bool_decide; simpl; intros Hx.
    + by left.
    + apply elem_of_cons in Hx as [->|Hx]; [left; left|].
      destruct (IH Hx) as [?|?]; [left; by right|by right].
Qed.

Lemma dict_setitem_NoDup (d : list (str * value)) (k : str) (v : value) :
  NoDup (map fst d) -> NoDup (map fst (dict_setitem d k v)).
Proof.
  induction d as [|[k0 v0] d IH]; simpl; intros Hd.
  - apply NoDup_singleton.
  - apply list.NoDup_cons in Hd as [Hk0 Hd].
    unfold str_eqb. case_bool_decide as Hk; simpl.
    + by apply list.NoDup_cons.
    + apply list.NoDup_cons. split; [|by apply IH].
      intros Hx. apply dict_setitem_keys in Hx as [?|?]; [done|congruence].
Qed.

Lemma dict_setitem_Forall (P : value -> Prop) (d : list (str * value))
    (k : str) (v : value) :
  Forall (fun kv => P kv.2) d -> P v ->
  Forall (fun kv => P kv.2) (dict_setitem d k v).
Proof.
  induction d as [|[k0 v0] d IH]; simpl; intros Hd Hv.
  - by constructor.
  - inversion Hd as [|? ? Hx Hxs]; subst.
    destruct (str_eqb k0 k); constructor; auto.
Qed.

Lemma dict_setitem_not_nil (d : list (str * value)) (k : str) (v : value) :
  dict_setitem d k v <> [].
Proof. destruct d as [|[k0 v0] d]; simpl; [done|]. by destruct (str_eqb k0 k). Qed.

Lemma store_all_shape (P : value -> Prop) (ms : list (str * value)) :
  forall result : list (str * value),
    Forall (fun kv => P kv.2) ms ->
    Forall (fun kv => P kv.2) result ->
    NoDup (map fst result) ->
    (ms <> [] \/ result <> []) ->
    Forall (fun kv => P kv.2) (store_all ms result)
    /\ NoDup (map fst (store_all ms result))
    /\ store_all ms result <> [].
Proof.
  induction ms as [|[k v] ms IH]; intros result Hms Hres Hnd Hne.
  - simpl. destruct Hne; done.
  - inversion Hms as [|? ? Hx Hxs]; subst. cbn [store_all fold_left].
    apply IH.
    + done.
    + by apply dict_setitem_Forall.
    + by apply dict_setitem_NoDup.
    + right. apply dict_setitem_not_nil.
Qed.

Lemma members_values (names : list N -> option char)
    (pv : str -> nat -> outcome (value * nat)) (inp : str) (P : value -> Prop)
    (i : nat) (ms : list (str * value)) (e : nat) :
  (forall j v e, pv inp j = Ret (v, e) -> P v) ->
  object_members names pv inp i ms e -> Forall (fun kv => P kv.2) ms.
Proof. intros HP. induction 1; constructor; eauto. Qed.

Lemma parse_number_nonneg (inp : str) (index : nat) (v : value) (e : nat) :
  parse_number inp index = Ret (v, e) -> produced v = true.
Proof.
  unfold parse_number. intros H.
  apply bind_Ret_inv in H as (c & _ & H).
  destruct (negb (is_digit c)); [discriminate|].
  apply bind_Ret_inv in H as ([[rs dc] i] & _ & H).
  destruct (0 <? dc).
  - destruct (py_float_outcome rs) as [[f Hf]|Hf]; rewrite Hf in H;
      cbn [bind except_ValueError] in H; [|discriminate].
    by injection H as <- <-.
  - unfold py_int in H. destruct (_ && _); cbn [bind except_ValueError] in H;
      [|discriminate].
    injection H as <- <-. cbn [produced]. apply Z.leb_le. lia.
Qed.

Lemma forallb_Forall_true {A} (f : A -> bool) (l : list A) :
  Forall (fun x => f x = true) l -> forallb f l = true.
Proof. induction 1; simpl; [done|]. by apply andb_true_intro. Qed.

Lemma _parse_json_produced (names : list N -> option char) (fuel : nat) :
  forall (depth : nat) (inp : str) (index : nat) (v : value) (e : nat),
    _parse_json names fuel depth inp index = Ret (v, e) -> produced v = true.
Proof.
  induction fuel as [|fuel IH]; intros depth inp index v e H; [discriminate|].
  rewrite _parse_json_S in H.
  apply bind_Ret_inv in H as (c & Hc & H).
  destruct (N.eqb_spec c (chr "{")) as [->|_].
  { destruct depth as [|depth]; [discriminate|].
    apply bind_Ret_inv in H as ([d e'] & Hd & H). injection H as <- <-.
    unfold parse_object in Hd. rewrite Hc in Hd. cbn [bind] in Hd.
    rewrite N.eqb_refl in Hd. cbn [negb] in Hd.
    apply (object_loop_members _ _ _ _ _ _ _ _ _ Hc ltac:(discriminate)) in Hd
      as (ms & Hms & ->).
    pose proof (members_values _ _ _ (fun v => produced v = true) _ _ _
                  (IH depth inp) Hms) as Hvals.
    apply members_end in Hms as [_ Hne].
    destruct (store_all_shape (fun v => produced v = true) ms []
                Hvals (Forall_nil _) (NoDup_nil_2) (or_introl Hne))
      as (Hall & Hnd & Hnil).
    cbn [produced]. destruct (store_all ms []) as [|kv d] eqn:Hd; [done|].
    apply andb_true_intro. split.
    - by apply (forallb_Forall_true (fun kv => produced kv.2)).
    - by apply bool_decide_eq_true_2. }
  destruct (N.eqb_spec c (chr "[")) as [->|_].
  { destruct depth as [|depth]; [discriminate|].
    apply bind_Ret_inv in H as ([l e'] & Hl & H). injection H as <- <-.
    unfold parse_array in Hl. rewrite Hc in Hl. cbn [bind] in Hl.
    rewrite N.eqb_refl in Hl. cbn [negb] in Hl.
    apply (array_loop_elements _ _ _ _ _ _ _ _ Hc ltac:(discriminate)) in Hl
      as (vs & Hvs & ->).
    pose proof (elements_values _ _ (fun v => produced v = true) _ _ _
                  (IH depth inp) Hvs) as Hvals.
    apply elements_end in Hvs as [_ Hne].
    cbn [produced app]. destruct vs as [|x vs]; [done|].
    by apply forallb_Forall_true. }
  destruct (N.eqb_spec c QUOTE) as [->|_].
  { apply bind_Ret_inv in H as ([s e'] & _ & H). by injection H as <- <-. }
  destruct (N.eqb_spec c (chr "t")) as [->|_].
  { apply bind_Ret_inv in H as ([b e'] & Ht & H). injection H as <- <-.
    unfold parse_true in Ht. rewrite Hc in Ht. cbn [bind] in Ht.
    destruct (negb _); [discriminate|]. destruct (negb _); [discriminate|].
    by injection Ht as <- <-. }
  destruct (N.eqb_spec c (chr "f")) as [->|_].
  { apply bind_Ret_inv in H as ([b e'] & Hf & _). by apply parse_false_never_returns in Hf. }
  destruct (N.eqb_spec c (chr "n")) as [->|_].
  { apply bind_Ret_inv in H as ([u e'] & _ & H). by injection H as <- <-. }
  by apply parse_number_nonneg in H.
Qed.

Lemma _parse_json_root (names : list N -> option char) (fuel depth : nat) (inp : str)
    (index : nat) (c : char) (v : value) (e : nat) :
  char_at inp index = Ret c -> char_in c "{[" = true ->
  _parse_json names fuel depth inp index = Ret (v, e) -> is_container v = true.
Proof.
  intros Hc Hroot H. destruct fuel as [|fuel]; [discriminate|].
  rewrite _parse_json_S, Hc in H. cbn [bind] in H.
  destruct (N.eqb_spec c (chr "{")) as [->|Hb].
  { destruct depth as [|depth]; [discriminate|].
    apply bind_Ret_inv in H as ([d e'] & _ & H). by injection H as <- <-. }
  destruct (N.eqb_spec c (chr "[")) as [->|Hk].
  { destruct depth as [|depth]; [discriminate|].
    apply bind_Ret_inv in H as ([d e'] & _ & H). by injection H as <- <-. }
  unfold char_in in Hroot. simpl in Hroot.
  apply N.eqb_neq in Hb, Hk. 
  change (chr "{") with 123%N in *. change (chr "[") with 91%N in *.
  rewrite Hb, Hk in Hroot. discriminate.
Qed.

(** X7: every value the entry point returns is a list or a dict, and
    nowhere in it is there [False], a negative integer, an empty list, an
    empty dict or a dict with the same key twice. *)
Theorem decoded_trees (names : list N -> option char) (stack : nat) (inp : str)
    (v : value) :
  parse_json names stack inp = Ret v -> is_container v = true /\ produced v = true.
Proof.
  intros H. apply parse_json_Ret_inv in H as (c & e & Hc & Hroot & Hv & _).
  split.
  - exact (_parse_json_root names _ _ inp _ c v e Hc Hroot Hv).
  - exact (_parse_json_produced names _ _ inp _ v e Hv).
Qed.

Lemma decoded_trees_witness :
  is_container (VDict [(py "a", VList [VInt 2; VNone])]) = true
  /\ produced (VDict [(py "a", VList [VInt 2; VNone])]) = true.
Proof.
  apply (decoded_trees empty_name_table 2 (py "{'a': 1, 'a': [2, null]}")).
  reflexivity.
Defined.

(** ** Exceptions that leave the decoder *)

Lemma openers_drop (k : nat) : forall s : str, openers (drop k s) <= openers s.
Proof.
  induction k as [|k IH]; intros [|c s]; simpl; try lia.
  specialize (IH s). lia.
Qed.

Lemma openers_drop_le (inp : str) (i j : nat) :
  i <= j -> openers (drop j inp) <= openers (drop i inp).
Proof.
  intros Hij. replace j with (i + (j - i)) by lia. rewrite <- drop_drop.
  apply openers_drop.
Qed.

Lemma openers_drop_S (inp : str) (i : nat) (c : char) :
  char_at inp i = Ret c -> char_in c "{[" = true ->
  openers (drop i inp) = S (openers (drop (i + 1) inp)).
Proof.
  intros Hc Hroot. rewrite (drop_char_at _ _ _ Hc). cbn [openers].
  rewrite Hroot. by rewrite Nat.add_1_r.
Qed.

Section Traces.

Variable depth : nat.
Variable inp : str.

Lemma traced_Ret {A} (index : nat) (a : A) : traced depth inp index (Ret a).
Proof. intros x H. discriminate. Qed.

Lemma traced_json {A} (index : nat) (site : situation) (doc : str) (i : nat) :
  traced depth inp index (@raise_invalid_json_error A site doc i).
Proof. intros x H. injection H as <-. exact I. Qed.

Lemma traced_char_at (index : nat) (doc : str) (i : nat) :
  traced depth inp index (char_at doc i).
Proof.
  intros x H. destruct (char_at_outcome doc i) as [(c & Hc & _)|Hc];
    rewrite Hc in H; [discriminate|]. injection H as <-. exact I.
Qed.

Lemma traced_bind {A B} (index : nat) (m : outcome A) (k : A -> outcome B) :
  traced depth inp index m -> (forall a, m = Ret a -> traced depth inp index (k a)) ->
  traced depth inp index (bind m k).
Proof.
  intros Hm Hk x H. destruct m as [a|y|]; cbn [bind] in H.
  - by apply (Hk a).
  - injection H as <-. by apply Hm.
  - discriminate.
Qed.

Lemma traced_weaken {A} (i j : nat) (r : outcome A) :
  i <= j -> traced depth inp j r -> traced depth inp i r.
Proof.
  intros Hij Hr x Hx. specialize (Hr x Hx). destruct x; try exact Hr.
  pose proof (openers_drop_le inp i j Hij). lia.
Qed.

End Traces.

Ltac traced_step :=
  match goal with
  | |- traced _ _ _ (Ret _) => apply traced_Ret
  | |- traced _ _ _ (raise_invalid_json_error _ _ _) => apply traced_json
  | |- traced _ _ _ (bind (char_at _ _) _) =>
      apply traced_bind; [apply traced_char_at|intros ? _]
  | |- traced _ _ _ (if ?b then _ else _) => destruct b
  end.

(** A container that is entered takes one level of the stack. *)
Lemma traced_enter {A} (depth : nat) (inp : str) (index : nat) (c : char)
    (r : outcome A) :
  char_at inp index = Ret c -> char_in c "{[" = true ->
  traced depth inp (index + 1) r -> traced (S depth) inp index r.
Proof.
  intros Hc Hroot Hr x Hx. specialize (Hr x Hx). destruct x; try exact Hr.
  rewrite (openers_drop_S _ _ _ Hc Hroot). lia.
Qed.

Lemma utf8_encode_char_raises (c : char) (x : exn) :
  utf8_encode_char c = Raise x -> x = UnicodeEncodeError /\ is_surrogate c = true.
Proof.
  unfold utf8_encode_char, is_surrogate.
  destruct (c <? 128)%N; [discriminate|]. destruct (c <? 2048)%N; [discriminate|].
  destruct ((55296 <=? c) && (c <=? 57343))%N.
  - intros H. by injection H as <-.
  - destruct (c <? 65536)%N; discriminate.
Qed.

Lemma utf8_encode_raises (s : str) (x : exn) :
  utf8_encode s = Raise x ->
  x = UnicodeEncodeError /\ exists c, c ∈ s /\ is_surrogate c = true.
Proof.
  induction s as [|c s IH]; cbn [utf8_encode]; [discriminate|]. intros H.
  apply bind_Raise_inv in H as [H|(b & _ & H)].
  - apply utf8_encode_char_raises in H as [-> Hc]. split; [done|].
    exists c. split; [left|done].
  - apply bind_Raise_inv in H as [H|(bs & _ & H)]; [|discriminate].
    destruct (IH H) as (-> & c' & Hin & Hc'). split; [done|].
    exists c'. split; [by right|done].
Qed.

Lemma utf8_encode_char_backslash (c : char) (b : list N) :
  utf8_encode_char c = Ret b -> chr "\" ∈ b -> c = chr "\".
Proof.
  unfold utf8_encode_char. change (chr "\") with 92%N.
  destruct (c <? 128)%N.
  { intros H. injection H as <-. by intros ->%list_elem_of_singleton. }
  destruct (c <? 2048)%N.
  { intros H. injection H as <-. rewrite !elem_of_cons, elem_of_nil.
    intros [?|[?|[]]]; lia_divmod. }
  destruct ((55296 <=? c) && (c <=? 57343))%N; [discriminate|].
  destruct (c <? 65536)%N.
  { intros H. injection H as <-. rewrite !elem_of_cons, elem_of_nil.
    intros [?|[?|[?|[]]]]; lia_divmod. }
  intros H. injection H as <-. rewrite !elem_of_cons, elem_of_nil.
  intros [?|[?|[?|[?|[]]]]]; lia_divmod.
Qed.

Lemma utf8_encode_backslash (s : str) :
  forall b : list N, utf8_encode s = Ret b -> chr "\" ∈ b -> chr "\" ∈ s.
Proof.
  induction s as [|c s IH]; cbn [utf8_encode]; intros b H Hin.
  - injection H as <-. by apply elem_of_nil in Hin.
  - apply bind_Ret_inv in H as (b1 & Hb1 & H).
    apply bind_Ret_inv in H as (bs & Hbs & H). injection H as <-.
    apply elem_of_app in Hin as [Hin|Hin].
    + rewrite (utf8_encode_char_backslash c b1 Hb1 Hin). left.
    + right. by apply (IH bs).
Qed.

Lemma unicode_escape_decode_plain (names : list N -> option char) (s : list N) :
  chr "\" ∉ s -> unicode_escape_decode names s = Ret s.
Proof.
  induction s as [|c s IH]; intros Hs; [done|].
  apply not_elem_of_cons in Hs as [Hc Hs].
  cbn [unicode_escape_decode]. apply N.eqb_neq in Hc. rewrite N.eqb_sym in Hc.
  rewrite Hc. cbn [negb].
  by rewrite (IH Hs).
Qed.

Lemma unicode_escape_decode_raises (names : list N -> option char) (s : list N)
    (x : exn) :
  unicode_escape_decode names s = Raise x ->
  x = UnicodeDecodeError /\ chr "\" ∈ s.
Proof.
  intros H. split.
  - destruct (unicode_escape_decode_outcome names _ s (le_n _)) as [[r Hr]|Hr];
      congruence.
  - destruct (decide (chr "\" ∈ s)) as [|Hs]; [done|].
    rewrite (unicode_escape_decode_plain names s Hs) in H. discriminate.
Qed.

Lemma parse_string_traced (names : list N -> option char) (depth : nat) (inp : str)
    (i index : nat) :
  traced depth inp i (parse_string names inp index).
Proof.
  unfold parse_string. repeat traced_step.
  apply traced_bind.
  { intros x H.
    pose proof (find_closing_quote_sound _ (drop (index + 1) inp) (index + 1) (le_n _))
      as Hq.
    rewrite H in Hq. destruct x; done. }
  intros e _. apply traced_bind.
  { intros x H. apply utf8_encode_raises in H as (-> & c & Hin & Hc).
    exists c. split; [|done].
    by apply (subseteq_drop (index + 1) inp), (subseteq_take (e - (index + 1))). }
  intros raw Hraw. apply traced_bind; [|intros; apply traced_Ret].
  intros x H. apply unicode_escape_decode_raises in H as [-> Hin].
  apply (utf8_encode_backslash _ _ Hraw) in Hin.
  by apply (subseteq_drop (index + 1) inp), (subseteq_take (e - (index + 1))).
Qed.

Lemma parse_number_traced (depth : nat) (inp : str) (i index : nat) :
  traced depth inp i (parse_number inp index).
Proof.
  unfold parse_number. repeat traced_step.
  apply traced_bind.
  { intros x H. pose proof (number_loop_sound inp (drop index inp) index [] 0) as Hs.
    rewrite H in Hs. destruct x; done. }
  intros [[rs dc] j] _. cbv beta iota.
  destruct (0 <? dc).
  - destruct (py_float_outcome rs) as [[f ->]| ->]; cbn [bind except_ValueError];
      [apply traced_Ret|apply traced_json].
  - destruct (py_int_outcome rs) as [[n ->]| ->]; cbn [bind except_ValueError];
      [apply traced_Ret|apply traced_json].
Qed.

Section Traced.

Variable names : list N -> option char.
Variable pv : str -> nat -> outcome (value * nat).
Variable inp : str.
Variable depth : nat.
Variable index0 : nat.
Hypothesis pv_sound : forall j, sound inp j (pv inp j).
Hypothesis pv_traced : forall j, index0 < j -> traced depth inp j (pv inp j).

Lemma object_loop_traced (fuel : nat) :
  forall (index : nat) (result : list (str * value)),
    index0 <= index ->
    traced depth inp (index0 + 1) (object_loop names pv fuel inp index result).
Proof.
  induction fuel as [|fuel IH]; intros index result Hi0; [intros x H; discriminate|].
  cbn [object_loop].
  apply traced_bind; [apply traced_char_at|]. intros c Hc.
  pose proof (char_at_lt _ _ _ Hc) as Hlt.
  destruct (c =? chr "}")%N; [apply traced_Ret|].
  pose proof (skip_whitespace_next inp index Hlt) as Hj.
  apply traced_bind; [apply parse_string_traced|]. intros [key ke] Hkey. cbv beta iota.
  destruct (parse_string_sound names inp (skip_whitespace inp (index + 1))) as [Hs _].
  rewrite Hkey in Hs. simpl in Hs.
  pose proof (skip_whitespace_next inp ke ltac:(lia)) as Hcolon.
  apply traced_bind; [apply traced_char_at|]. intros c1 Hc1.
  pose proof (char_at_lt _ _ _ Hc1) as Hlt1.
  destruct (negb (c1 =? chr ":")%N); [apply traced_json|].
  pose proof (skip_whitespace_next inp _ Hlt1) as Hvs.
  apply traced_bind.
  { apply (traced_weaken depth inp (index0 + 1)
             (skip_whitespace inp (skip_whitespace inp (ke + 1) + 1))); [lia|].
    apply pv_traced. lia. }
  intros [v ve] Hv. cbv beta iota.
  pose proof (pv_sound (skip_whitespace inp (skip_whitespace inp (ke + 1) + 1))) as Hvs'.
  rewrite Hv in Hvs'. simpl in Hvs'.
  pose proof (skip_whitespace_next inp ve ltac:(lia)) as Hnext.
  apply traced_bind; [apply traced_char_at|]. intros c2 _.
  destruct (c2 =? chr ",")%N.
  - apply traced_bind; [apply traced_char_at|]. intros c3 _.
    destruct (c3 =? chr "}")%N; [apply traced_json|]. apply IH. lia.
  - destruct (negb (c2 =? chr "}")%N); [apply traced_json|]. apply IH. lia.
Qed.

Lemma array_loop_traced (fuel : nat) :
  forall (index : nat) (result : list value),
    index0 <= index ->
    traced depth inp (index0 + 1) (array_loop pv fuel inp index result).
Proof.
  induction fuel as [|fuel IH]; intros index result Hi0; [intros x H; discriminate|].
  cbn [array_loop].
  apply traced_bind; [apply traced_char_at|]. intros c Hc.
  pose proof (char_at_lt _ _ _ Hc) as Hlt.
  destruct (c =? chr "]")%N; [apply traced_Ret|].
  pose proof (skip_whitespace_next inp index Hlt) as Hj.
  apply traced_bind.
  { apply (traced_weaken depth inp (index0 + 1) (skip_whitespace inp (index + 1)));
      [lia|].
    apply pv_traced. lia. }
  intros [v ve] Hv. cbv beta iota.
  pose proof (pv_sound (skip_whitespace inp (index + 1))) as Hvs'.
  rewrite Hv in Hvs'. simpl in Hvs'.
  pose proof (skip_whitespace_next inp ve ltac:(lia)) as Hnext.
  apply traced_bind; [apply traced_char_at|]. intros c2 _.
  destruct (c2 =? chr ",")%N.
  - apply traced_bind; [apply traced_char_at|]. intros c3 _.
    destruct (c3 =? chr "]")%N; [apply traced_json|]. apply IH. lia.
  - destruct (negb (c2 =? chr "]")%N); [apply traced_json|]. apply IH. lia.
Qed.

End Traced.

Lemma _parse_json_traced (names : list N -> option char) (fuel : nat) :
  forall (depth : nat) (inp : str) (index : nat),
    traced depth inp index (_parse_json names fuel depth inp index).
Proof.
  induction fuel as [|fuel IH]; intros depth0 inp index; [intros x H; discriminate|].
  rewrite _parse_json_S.
  apply traced_bind; [apply traced_char_at|]. intros c Hc.
  assert (Hopen : char_in c "{[" = true -> 0 < openers (drop index inp)).
  { intros Hroot. rewrite (openers_drop_S _ _ _ Hc Hroot). lia. }
  destruct (N.eqb_spec c (chr "{")) as [->|_].
  { destruct depth0 as [|depth]; [intros x [= <-]; by apply Hopen|].
    apply traced_bind; [|intros [? ?] _; apply traced_Ret].
    apply (traced_enter depth inp index (chr "{")); [done..|].
    unfold parse_object. repeat traced_step.
    apply (object_loop_traced names _ inp depth index); [|intros; apply IH|done].
    intros j. apply _parse_json_sound. }
  destruct (N.eqb_spec c (chr "[")) as [->|_].
  { destruct depth0 as [|depth]; [intros x [= <-]; by apply Hopen|].
    apply traced_bind; [|intros [? ?] _; apply traced_Ret].
    apply (traced_enter depth inp index (chr "[")); [done..|].
    unfold parse_array. repeat traced_step.
    apply (array_loop_traced _ inp depth index); [|intros; apply IH|done].
    intros j. apply _parse_json_sound. }
  repeat traced_step.
  - apply traced_bind; [|intros [? ?] _; apply traced_Ret]. apply parse_string_traced.
  - apply traced_bind; [|intros [? ?] _; apply traced_Ret].
    unfold parse_true. repeat traced_step.
  - apply traced_bind; [|intros [? ?] _; apply traced_Ret].
    unfold parse_false. repeat traced_step.
  - apply traced_bind; [|intros [? ?] _; apply traced_Ret].
    unfold parse_null. repeat traced_step.
  - apply parse_number_traced.
Qed.



(** ** Strings without escapes *)

Lemma find_closing_quote_content (s rest : str) :
  forall k : nat,
    QUOTE ∉ s -> chr "\" ∉ s ->
    find_closing_quote (s ++ QUOTE :: rest) k = Ret (k + length s).
Proof.
  induction s as [|c s IH]; intros k Hq Hb.
  - cbn [app find_closing_quote length]. rewrite N.eqb_refl. eq_ret.
  - apply not_elem_of_cons in Hq as [Hq Hqs]. apply not_elem_of_cons in Hb as [Hb Hbs].
    cbn [app find_closing_quote length].
    destruct (N.eqb_spec c QUOTE) as [|_]; [congruence|].
    destruct (N.eqb_spec c (chr "\")) as [|_]; [congruence|].
    rewrite IH by done. eq_ret.
Qed.

Lemma find_closing_quote_none (n : nat) :
  forall (rest : str) (k : nat),
    length rest <= n -> QUOTE ∉ rest ->
    find_closing_quote rest k = Raise IndexError.
Proof.
  induction n as [|n IH]; intros rest k Hlen Hq.
  - destruct rest; [done|simpl in Hlen; lia].
  - destruct rest as [|c rest]; [done|]. simpl in Hlen.
    apply not_elem_of_cons in Hq as [Hq Hqs]. cbn [find_closing_quote].
    destruct (N.eqb_spec c QUOTE) as [|_]; [congruence|].
    destruct (c =? chr "\")%N.
    + destruct rest as [|c' rest]; [done|]. simpl in Hlen.
      apply not_elem_of_cons in Hqs as [_ Hqs]. apply IH; [lia|done].
    + apply IH; [lia|done].
Qed.

(** X9: a string literal whose content holds neither a quote nor a
    backslash is read up to its closing quote, and the string returned is
    not the content but the sequence of its UTF-8 bytes, each byte taken
    as one character; when the content holds a surrogate code point, the
    encoding error is raised. *)
Theorem parse_string_utf8_bytes (names : list N -> option char) (inp : str)
    (index : nat) (s rest : str) :
  drop index inp = QUOTE :: s ++ QUOTE :: rest ->
  QUOTE ∉ s -> chr "\" ∉ s ->
  parse_string names inp index
  = let* b := utf8_encode s in Ret (b, index + 1 + length s).
Proof.
  intros Hdrop Hq Hb. unfold parse_string.
  rewrite (char_at_drop _ _ _ _ Hdrop). cbn [bind]. rewrite N.eqb_refl. cbn [negb].
  pose proof (drop_next _ _ _ _ Hdrop) as Hnext. rewrite Hnext.
  rewrite find_closing_quote_content by done. cbn [bind].
  unfold slice. rewrite Hnext.
  replace (index + 1 + length s - (index + 1)) with (length s) by lia.
  rewrite take_app_length.
  destruct (utf8_encode s) as [b|x|] eqn:Henc; cbn [bind]; [|done..].
  rewrite unicode_escape_decode_plain; [done|].
  intros Hin. by apply Hb, (utf8_encode_backslash s b).
Qed.

Lemma parse_string_utf8_bytes_witness :
  parse_string empty_name_table [chr "["; QUOTE; 233%N; chr "a"; 8364%N; QUOTE; chr "]"] 1
  = Ret ([195; 169; 97; 226; 130; 172]%N, 5).
Proof.
  rewrite (parse_string_utf8_bytes empty_name_table _ 1 [233%N; chr "a"; 8364%N] [chr "]"]).
  - reflexivity.
  - reflexivity.
  - by vm_compute; intros H; repeat (apply elem_of_cons in H as [H|H]; [discriminate|]);
      apply elem_of_nil in H.
  - by vm_compute; intros H; repeat (apply elem_of_cons in H as [H|H]; [discriminate|]);
      apply elem_of_nil in H.
Defined.

(** X10: a string that is opened and never closed ends in an index fault:
    when no quote follows the opening quote, the scan for the closing quote
    reads past the end of the input. *)
Theorem unterminated_string (names : list N -> option char) (inp : str) (index : nat) :
  char_at inp index = Ret QUOTE ->
  QUOTE ∉ drop (index + 1) inp ->
  parse_string names inp index = Raise IndexError.
Proof.
  intros Hc Hq. unfold parse_string. rewrite Hc. cbn [bind].
  rewrite N.eqb_refl. cbn [negb].
  by rewrite (find_closing_quote_none _ _ _ (le_n _) Hq).
Qed.

Lemma unterminated_string_witness :
  parse_string empty_name_table (py "{'key: 1}") 1 = Raise IndexError.
Proof.
  apply unterminated_string.
  - reflexivity.
  - by vm_compute; intros H; repeat (apply elem_of_cons in H as [H|H]; [discriminate|]);
      apply elem_of_nil in H.
Defined.

(** ** The message of the parse error *)

Lemma repeat_snoc {A} (x : A) (n : nat) : repeat x (S n) = repeat x n ++ [x].
Proof. induction n as [|n IH]; [done|]. simpl in *. by rewrite <- IH. Qed.

Lemma spaces_line_inj (a b : str) :
  forall i j : nat,
    a ++ 10%N :: repeat 32%N i = b ++ 10%N :: repeat 32%N j -> i = j /\ a = b.
Proof.
  assert (Hsnoc : forall (c : str) (n : nat),
             c ++ 10%N :: repeat 32%N (S n) = (c ++ 10%N :: repeat 32%N n) ++ [32%N]).
  { intros c n. by rewrite repeat_snoc, <- app_assoc. }
  induction i as [|i IH]; intros [|j] H.
  - apply (app_inj_tail a b) in H as [H _]. done.
  - exfalso. rewrite Hsnoc in H. apply (app_inj_tail a) in H as [_ H]. discriminate.
  - exfalso. rewrite Hsnoc in H. apply (app_inj_tail _ b) in H as [_ H]. discriminate.
  - rewrite !Hsnoc in H. apply app_inj_tail in H as [H _].
    by destruct (IH j H) as [-> ->].
Qed.

(** X11: the message that [raise_invalid_json_error] formats identifies
    the document and the offset: the same message is formatted only for
    the same input and the same offset. *)
Theorem message_identifies_offset (inp inp' : str) (i j : nat) :
  unexpected_token_message inp i = unexpected_token_message inp' j ->
  i = j /\ inp = inp'.
Proof.
  intros Hm. unfold unexpected_token_message in Hm.
  rewrite !app_assoc in Hm. apply app_inj_tail in Hm as [Hm _].
  rewrite <- !(app_assoc _ [10%N] (repeat _ _)) in Hm.
  apply (spaces_line_inj _ _ i j) in Hm as [<- Hm]. split; [done|].
  rewrite <- !app_assoc in Hm. do 3 apply app_inv_head in Hm.
  by injection Hm.
Qed.

Lemma message_identifies_offset_witness :
  unexpected_token_message (py "[1 2]") (3 + 4) = unexpected_token_message (py "[1 2]") 7
  /\ 3 + 4 = 7 /\ py "[1 2]" = py "[1 2]".
Proof.
  split; [reflexivity|].
  apply (message_identifies_offset (py "[1 2]") (py "[1 2]") (3 + 4) 7). reflexivity.
Defined.

(** ** Termination *)

(** X12: decoding ends.  Every call of the dispatcher returns an offset at
    or after the one it was given, and every iteration of the two loops
    moves the cursor forward, so a budget of calls and iterations larger
    than the number of characters that remain is never used up; the budget
    the entry point starts with is of that size. *)
Theorem decoder_terminates (names : list N -> option char) (inp : str) :
  (forall fuel depth index,
      length inp - index < fuel ->
      _parse_json names fuel depth inp index <> OutOfFuel
      /\ forall v e, _parse_json names fuel depth inp index = Ret (v, e) ->
                     index <= e < length inp)
  /\ (forall stack, parse_json names stack inp <> OutOfFuel).
Proof.
  split; [|intros stack; apply parse_json_total].
  intros fuel depth index Hfuel.
  destruct (_parse_json_sound names fuel depth inp index) as [Hs Ht].
  split; [by apply Ht|].
  intros v e H. rewrite H in Hs. exact Hs.
Qed.

Lemma decoder_terminates_witness :
  _parse_json empty_name_table 12 5 (py "[[[[[1]]]]]") 0 <> OutOfFuel
  /\ parse_json empty_name_table 5 (py "[[[[[1]]]]]") <> OutOfFuel.
Proof.
  destruct (decoder_terminates empty_name_table (py "[[[[[1]]]]]")) as [H1 H2].
  split; [|exact (H2 5)].
  destruct (H1 12 5 0) as [H _]; [simpl; lia|exact H].
Defined.

(** ** Text after the document *)

Lemma skip_spaces_app (rest t : str) :
  forall i : nat,
    skip_spaces (rest ++ t) i
    = if skip_spaces rest i <? i + length rest then skip_spaces rest i
      else skip_spaces t (i + length rest).
Proof.
  induction rest as [|c rest IH]; intros i.
  - cbn [app skip_spaces length]. rewrite Nat.add_0_r, Nat.ltb_irrefl. reflexivity.
  - cbn [app skip_spaces length]. destruct (is_space c).
    + rewrite IH. replace (S i + length rest) with (i + S (length rest)) by lia.
      reflexivity.
    + destruct (Nat.ltb_spec i (i + S (length rest))); [reflexivity|lia].
Qed.

Lemma skip_spaces_all (ws : str) :
  forall i : nat, forallb is_space ws = true -> skip_spaces ws i = i + length ws.
Proof.
  induction ws as [|c ws IH]; intros i H; simpl; [lia|].
  simpl in H. apply andb_prop in H as [Hc Hws]. rewrite Hc, IH by done. lia.
Qed.

Lemma skip_whitespace_app (inp t : str) (j : nat) :
  skip_whitespace inp j < length inp ->
  skip_whitespace (inp ++ t) j = skip_whitespace inp j.
Proof.
  intros H.
  assert (Hj : j < length inp).
  { destruct (Nat.lt_ge_cases j (length inp)) as [|Hge]; [done|].
    rewrite skip_whitespace_end in H by done. lia. }
  unfold skip_whitespace in *. rewrite length_app.
  rewrite Nat.min_l in H by lia. rewrite !Nat.min_l by lia.
  rewrite drop_app_le by lia. rewrite skip_spaces_app, length_drop.
  destruct (Nat.ltb_spec (skip_spaces (drop j inp) j) (j + (length inp - j)));
    [reflexivity|lia].
Qed.

Lemma skip_whitespace_app_end (inp t : str) (j : nat) :
  j <= length inp ->
  length inp <= skip_whitespace inp j ->
  skip_whitespace (inp ++ t) j = skip_spaces t (length inp).
Proof.
  intros Hj H. unfold skip_whitespace in *. rewrite length_app.
  rewrite Nat.min_l in H by lia. rewrite !Nat.min_l by lia.
  rewrite drop_app_le by lia. rewrite skip_spaces_app, length_drop.
  destruct (Nat.ltb_spec (skip_spaces (drop j inp) j) (j + (length inp - j))); [lia|].
  f_equal. lia.
Qed.

Lemma char_at_app (inp t : str) (i : nat) (c : char) :
  char_at inp i = Ret c -> char_at (inp ++ t) i = Ret c.
Proof. rewrite !char_at_Ret. apply lookup_app_l_Some. Qed.

(** The cursor after white space, when a character is read there. *)
Lemma skip_then_char_app (inp t : str) (j : nat) (c : char) :
  char_at inp (skip_whitespace inp j) = Ret c ->
  skip_whitespace (inp ++ t) j = skip_whitespace inp j.
Proof. intros H. apply skip_whitespace_app. by apply char_at_lt in H. Qed.

Lemma slice_app (inp t : str) (a b : nat) :
  b <= length inp -> slice (inp ++ t) a b = slice inp a b.
Proof.
  intros Hb. unfold slice.
  destruct (Nat.le_gt_cases a b) as [Hab|Hab].
  - rewrite drop_app_le by lia. apply take_app_le. rewrite length_drop. lia.
  - replace (b - a) with 0 by lia. reflexivity.
Qed.

Lemma parse_true_app (inp t : str) (i : nat) (r : bool * nat) :
  parse_true inp i = Ret r -> parse_true (inp ++ t) i = Ret r.
Proof.
  unfold parse_true. intros H.
  apply bind_Ret_inv in H as (c & Hc & H). rewrite (char_at_app _ t _ _ Hc). cbn [bind].
  destruct (negb (c =? chr "t")%N); [discriminate|].
  unfold str_eqb in *. case_bool_decide as Hk; [|discriminate]. cbn [negb] in H.
  pose proof (slice_length_lt inp i 4 _ Hk eq_refl ltac:(lia)) as Hlen.
  rewrite slice_app by done. rewrite bool_decide_eq_true_2 by done. exact H.
Qed.

Lemma parse_null_app (inp t : str) (i : nat) (r : unit * nat) :
  parse_null inp i = Ret r -> parse_null (inp ++ t) i = Ret r.
Proof.
  unfold parse_null. intros H.
  apply bind_Ret_inv in H as (c & Hc & H). rewrite (char_at_app _ t _ _ Hc). cbn [bind].
  destruct (negb (c =? chr "n")%N); [discriminate|].
  unfold str_eqb in *. case_bool_decide as Hk; [|discriminate]. cbn [negb] in H.
  pose proof (slice_length_lt inp i 4 _ Hk eq_refl ltac:(lia)) as Hlen.
  rewrite slice_app by done. rewrite bool_decide_eq_true_2 by done. exact H.
Qed.

Lemma number_loop_app (inp inp' : str) (t : str) (rest : str) :
  forall (index : nat) (rs : str) (dc : nat) (r : str * nat * nat),
    number_loop inp rest index rs dc = Ret r ->
    number_loop inp' (rest ++ t) index rs dc = Ret r.
Proof.
  induction rest as [|c rest IH]; intros index rs dc r H; [discriminate|].
  cbn [app number_loop] in *.
  destruct (char_in c "0123456789."); [|exact H].
  destruct (c =? chr ".")%N.
  - destruct (1 <? dc + 1); [discriminate|].
    destruct rest as [|c' rest']; [discriminate|]. cbn [app].
    destruct (negb (char_in c' "0123456789")); [discriminate|].
    by apply (IH _ _ _ _ H).
  - by apply IH.
Qed.

Lemma parse_number_app (inp t : str) (i : nat) (r : value * nat) :
  parse_number inp i = Ret r -> parse_number (inp ++ t) i = Ret r.
Proof.
  unfold parse_number. intros H.
  apply bind_Ret_inv in H as (c & Hc & H). rewrite (char_at_app _ t _ _ Hc). cbn [bind].
  destruct (negb (is_digit c)); [discriminate|].
  apply bind_Ret_inv in H as ([[rs dc] i'] & Hloop & H).
  rewrite drop_app_le by (apply char_at_lt in Hc; lia).
  rewrite (number_loop_app inp (inp ++ t) t _ _ _ _ _ Hloop). cbn [bind].
  destruct (0 <? dc).
  - destruct (py_float_outcome rs) as [[f Hf]|Hf]; rewrite Hf in *;
      cbn [bind except_ValueError] in *; [exact H|discriminate].
  - destruct (py_int_outcome rs) as [[n Hn]|Hn]; rewrite Hn in *;
      cbn [bind except_ValueError] in *; [exact H|discriminate].
Qed.

Lemma find_closing_quote_app (t : str) (n : nat) :
  forall (rest : str) (k e : nat),
    length rest <= n ->
    find_closing_quote rest k = Ret e ->
    find_closing_quote (rest ++ t) k = Ret e.
Proof.
  induction n as [|n IH]; intros rest k e Hlen H.
  - destruct rest; [discriminate|simpl in Hlen; lia].
  - destruct rest as [|c rest]; [discriminate|]. simpl in Hlen.
    cbn [app find_closing_quote] in *.
    destruct (c =? QUOTE)%N; [exact H|].
    destruct (c =? chr "\")%N.
    + destruct rest as [|c' rest]; [discriminate|]. simpl in Hlen. cbn [app].
      apply IH; [lia|exact H].
    + apply IH; [lia|exact H].
Qed.

Lemma parse_string_app (names : list N -> option char) (inp t : str) (i : nat)
    (r : str * nat) :
  parse_string names inp i = Ret r -> parse_string names (inp ++ t) i = Ret r.
Proof.
  unfold parse_string. intros H.
  apply bind_Ret_inv in H as (c & Hc & H). rewrite (char_at_app _ t _ _ Hc). cbn [bind].
  destruct (negb (c =? QUOTE)%N); [discriminate|].
  apply bind_Ret_inv in H as (e & He & H).
  pose proof (char_at_lt _ _ _ Hc) as Hlt.
  rewrite drop_app_le by lia.
  rewrite (find_closing_quote_app t _ _ _ _ (le_n _) He). cbn [bind].
  pose proof (find_closing_quote_sound _ (drop (i + 1) inp) (i + 1) (le_n _)) as Hq.
  rewrite He, length_drop in Hq.
  rewrite slice_app by lia. exact H.
Qed.

Section Append.

Variable names : list N -> option char.
Variables pv pv' : str -> nat -> outcome (value * nat).
Variables inp t : str.
Hypothesis pv_app :
  forall j v e, pv inp j = Ret (v, e) -> pv' (inp ++ t) j = Ret (v, e).
Hypothesis pv_start : forall j v e, pv inp j = Ret (v, e) -> j < length inp.

Lemma object_loop_app (fuel : nat) :
  forall (fuel' index : nat) (result d : list (str * value)) (e : nat),
    fuel <= fuel' ->
    object_loop names pv fuel inp index result = Ret (d, e) ->
    object_loop names pv' fuel' (inp ++ t) index result = Ret (d, e).
Proof.
  induction fuel as [|fuel IH]; intros fuel' index result d e Hfuel H; [discriminate|].
  destruct fuel' as [|fuel']; [lia|]. cbn [object_loop] in *.
  apply bind_Ret_inv in H as (c & Hc & H). rewrite (char_at_app _ t _ _ Hc). cbn [bind].
  destruct (c =? chr "}")%N; [exact H|].
  apply bind_Ret_inv in H as ([key ke] & Hkey & H).
  rewrite (skip_whitespace_app inp t (index + 1))
    by (apply parse_string_closes in Hkey as (Hq & _); by apply char_at_lt in Hq).
  rewrite (parse_string_app _ _ t _ _ Hkey). cbn [bind].
  apply bind_Ret_inv in H as (c1 & Hc1 & H).
  rewrite (skip_then_char_app _ t _ _ Hc1), (char_at_app _ t _ _ Hc1). cbn [bind].
  destruct (negb (c1 =? chr ":")%N); [discriminate|].
  apply bind_Ret_inv in H as ([v ve] & Hv & H).
  rewrite (skip_whitespace_app inp t (skip_whitespace inp (ke + 1) + 1))
    by (by apply pv_start in Hv).
  rewrite (pv_app _ _ _ Hv). cbn [bind].
  apply bind_Ret_inv in H as (c2 & Hc2 & H).
  rewrite (skip_then_char_app _ t _ _ Hc2), (char_at_app _ t _ _ Hc2). cbn [bind].
  destruct (c2 =? chr ",")%N.
  - apply bind_Ret_inv in H as (c3 & Hc3 & H).
    rewrite (skip_then_char_app _ t _ _ Hc3), (char_at_app _ t _ _ Hc3). cbn [bind].
    destruct (c3 =? chr "}")%N; [discriminate|]. apply IH; [lia|exact H].
  - destruct (negb (c2 =? chr "}")%N); [discriminate|]. apply IH; [lia|exact H].
Qed.

Lemma array_loop_app (fuel : nat) :
  forall (fuel' index : nat) (result l : list value) (e : nat),
    fuel <= fuel' ->
    array_loop pv fuel inp index result = Ret (l, e) ->
    array_loop pv' fuel' (inp ++ t) index result = Ret (l, e).
Proof.
  induction fuel as [|fuel IH]; intros fuel' index result l e Hfuel H; [discriminate|].
  destruct fuel' as [|fuel']; [lia|]. cbn [array_loop] in *.
  apply bind_Ret_inv in H as (c & Hc & H). rewrite (char_at_app _ t _ _ Hc). cbn [bind].
  destruct (c =? chr "]")%N; [exact H|].
  apply bind_Ret_inv in H as ([v ve] & Hv & H).
  rewrite (skip_whitespace_app inp t (index + 1)) by (by apply pv_start in Hv).
  rewrite (pv_app _ _ _ Hv). cbn [bind].
  apply bind_Ret_inv in H as (c2 & Hc2 & H).
  rewrite (skip_then_char_app _ t _ _ Hc2), (char_at_app _ t _ _ Hc2). cbn [bind].
  destruct (c2 =? chr ",")%N.
  - apply bind_Ret_inv in H as (c3 & Hc3 & H).
    rewrite (skip_then_char_app _ t _ _ Hc3), (char_at_app _ t _ _ Hc3). cbn [bind].
    destruct (c3 =? chr "]")%N; [discriminate|]. apply IH; [lia|exact H].
  - destruct (negb (c2 =? chr "]")%N); [discriminate|]. apply IH; [lia|exact H].
Qed.

End Append.

Lemma _parse_json_start (names : list N -> option char) (fuel depth : nat) (inp : str)
    (j : nat) (v : value) (e : nat) :
  _parse_json names fuel depth inp j = Ret (v, e) -> j <= e < length inp.
Proof.
  intros H. destruct (_parse_json_sound names fuel depth inp j) as [Hs _].
  rewrite H in Hs. exact Hs.
Qed.

(** What the dispatcher returns, it returns again with more text after the
    input, a larger budget and more room on the stack. *)
Lemma _parse_json_app (names : list N -> option char) (fuel : nat) :
  forall (fuel' depth depth' : nat) (inp t : str) (index : nat) (v : value) (e : nat),
    fuel <= fuel' -> depth <= depth' ->
    _parse_json names fuel depth inp index = Ret (v, e) ->
    _parse_json names fuel' depth' (inp ++ t) index = Ret (v, e).
Proof.
  induction fuel as [|fuel IH]; intros fuel' depth0 depth0' inp t index v e Hfuel Hdepth H;
    [discriminate|].
  destruct fuel' as [|fuel']; [lia|]. rewrite _parse_json_S in *.
  assert (Hpv : forall depth depth', depth <= depth' ->
                forall j v e, _parse_json names fuel depth inp j = Ret (v, e) ->
                              _parse_json names fuel' depth' (inp ++ t) j = Ret (v, e)).
  { intros depth depth' Hd j v0 e0. apply IH; [lia|exact Hd]. }
  assert (Hstart : forall depth j v e, _parse_json names fuel depth inp j = Ret (v, e) ->
                                       j < length inp).
  { intros depth j v0 e0 Hj. apply _parse_json_start in Hj. lia. }
  apply bind_Ret_inv in H as (c & Hc & H). rewrite (char_at_app _ t _ _ Hc). cbn [bind].
  destruct (c =? chr "{")%N.
  { destruct depth0 as [|depth]; [discriminate|].
    destruct depth0' as [|depth']; [lia|].
    apply bind_Ret_inv in H as ([d e'] & Hd & H).
    unfold parse_object in *.
    apply bind_Ret_inv in Hd as (c0 & Hc0 & Hd). rewrite (char_at_app _ t _ _ Hc0).
    cbn [bind]. destruct (negb (c0 =? chr "{")%N); [discriminate|].
    rewrite (object_loop_app names _ _ inp t (Hpv depth depth' ltac:(lia))
               (Hstart depth) fuel fuel' _ _ _ _ ltac:(lia) Hd).
    exact H. }
  destruct (c =? chr "[")%N.
  { destruct depth0 as [|depth]; [discriminate|].
    destruct depth0' as [|depth']; [lia|].
    apply bind_Ret_inv in H as ([l e'] & Hl & H).
    unfold parse_array in *.
    apply bind_Ret_inv in Hl as (c0 & Hc0 & Hl). rewrite (char_at_app _ t _ _ Hc0).
    cbn [bind]. destruct (negb (c0 =? chr "[")%N); [discriminate|].
    rewrite (array_loop_app _ _ inp t (Hpv depth depth' ltac:(lia))
               (Hstart depth) fuel fuel' _ _ _ _ ltac:(lia) Hl).
    exact H. }
  destruct (c =? QUOTE)%N.
  { apply bind_Ret_inv in H as (r & Hr & H). by rewrite (parse_string_app _ _ t _ _ Hr). }
  destruct (c =? chr "t")%N.
  { apply bind_Ret_inv in H as (r & Hr & H). by rewrite (parse_true_app _ t _ _ Hr). }
  destruct (c =? chr "f")%N.
  { apply bind_Ret_inv in H as (r & Hr & _). by apply parse_false_never_returns in Hr. }
  destruct (c =? chr "n")%N.
  { apply bind_Ret_inv in H as (r & Hr & H). by rewrite (parse_null_app _ t _ _ Hr). }
  by apply parse_number_app.
Qed.

(** X13: text after a document.  When the entry point decodes a document
    to a value, the document followed by white space is decoded to the
    same value, and the document followed by any text that starts with a
    character other than white space is rejected, with the parse error at
    the offset of that character. *)
Theorem trailing_text (names : list N -> option char) (stack : nat) (inp : str)
    (v : value) :
  parse_json names stack inp = Ret v ->
  (forall ws, forallb is_space ws = true -> parse_json names stack (inp ++ ws) = Ret v)
  /\ (forall c rest,
        is_space c = false ->
        parse_json names stack (inp ++ c :: rest)
        = Raise (InvalidJSONError TrailingContent
                   (unexpected_token_message (inp ++ c :: rest) (length inp)))).
Proof.
  intros H. apply parse_json_Ret_inv in H as (c0 & e & Hc & Hroot & Hv & Hend).
  pose proof (_parse_json_start _ _ _ _ _ _ _ Hv) as He.
  assert (Hrun : forall t,
             char_at (inp ++ t) (skip_whitespace (inp ++ t) 0) = Ret c0
             /\ _parse_json names (S (length (inp ++ t))) stack (inp ++ t)
                  (skip_whitespace (inp ++ t) 0) = Ret (v, e)
             /\ skip_whitespace (inp ++ t) (e + 1) = skip_spaces t (length inp)).
  { intros t. rewrite (skip_then_char_app _ t _ _ Hc).
    split; [by apply char_at_app|]. split.
    - apply (_parse_json_app names (S (length inp)) _ stack); [|lia|exact Hv].
      rewrite length_app. lia.
    - apply skip_whitespace_app_end; [lia|exact Hend]. }
  split.
  - intros ws Hws. destruct (Hrun ws) as (Hc' & Hv' & Hend').
    apply (parse_json_returns names stack _ c0 v e Hc' Hroot Hv').
    rewrite Hend', skip_spaces_all, length_app by done. lia.
  - intros c rest Hsp. destruct (Hrun (c :: rest)) as (Hc' & Hv' & Hend').
    cbn [skip_spaces] in Hend'. rewrite Hsp in Hend'.
    unfold parse_json.
    pose proof (char_at_lt _ _ _ Hc') as Hlt.
    destruct (Nat.leb_spec (length (inp ++ c :: rest))
                (skip_whitespace (inp ++ c :: rest) 0)); [lia|].
    rewrite Hc'. cbn [bind]. rewrite Hroot. cbn [negb]. rewrite Hv'. cbn [bind].
    rewrite Hend'.
    destruct (Nat.ltb_spec (length inp) (length (inp ++ c :: rest))) as [|Hge];
      [reflexivity|].
    rewrite length_app in Hge. simpl in Hge. lia.
Qed.

Lemma trailing_text_witness :
  parse_json empty_name_table 1 (py "[1, 2]" ++ py "  ") = Ret (VList [VInt 1; VInt 2])
  /\ parse_json empty_name_table 1 (py "[1, 2]" ++ chr "x" :: py " y")
     = Raise (InvalidJSONError TrailingContent
                (unexpected_token_message (py "[1, 2]" ++ chr "x" :: py " y") 6)).
Proof.
  destruct (trailing_text empty_name_table 1 (py "[1, 2]") (VList [VInt 1; VInt 2]))
    as [Hws Hx]; [reflexivity|].
  split; [apply Hws; reflexivity|apply Hx; reflexivity].
Defined.

(** ** Text before the document *)

Lemma char_at_shift (p inp : str) (i : nat) :
  char_at (p ++ inp) (length p + i) = char_at inp i.
Proof.
  unfold char_at. rewrite lookup_app_r by lia.
  by replace (length p + i - length p) with i by lia.
Qed.

Lemma skip_spaces_shift (rest : str) (a : nat) :
  forall i : nat, skip_spaces rest (a + i) = a + skip_spaces rest i.
Proof.
  induction rest as [|c rest IH]; intros i; simpl; [done|].
  destruct (is_space c); [|done]. rewrite <- IH. f_equal. lia.
Qed.

Lemma skip_whitespace_shift (p inp : str) (j : nat) :
  skip_whitespace (p ++ inp) (length p + j) = length p + skip_whitespace inp j.
Proof.
  unfold skip_whitespace.
  by rewrite length_app, Nat.add_min_distr_l, drop_app_add, skip_spaces_shift.
Qed.

Lemma slice_shift (p inp : str) (a b : nat) :
  slice (p ++ inp) (length p + a) (length p + b) = slice inp a b.
Proof.
  unfold slice. rewrite drop_app_add.
  by replace (length p + b - (length p + a)) with (b - a) by lia.
Qed.

Lemma parse_true_shift (p inp : str) (i : nat) (b : bool) (e : nat) :
  parse_true inp i = Ret (b, e) ->
  parse_true (p ++ inp) (length p + i) = Ret (b, length p + e).
Proof.
  unfold parse_true. rewrite char_at_shift. intros H.
  apply bind_Ret_inv in H as (c & -> & H). cbn [bind].
  destruct (negb (c =? chr "t")%N); [discriminate|].
  rewrite <- Nat.add_assoc, slice_shift.
  destruct (negb (str_eqb _ _)); [discriminate|].
  injection H as <- <-. eq_ret.
Qed.

Lemma parse_null_shift (p inp : str) (i : nat) (u : unit) (e : nat) :
  parse_null inp i = Ret (u, e) ->
  parse_null (p ++ inp) (length p + i) = Ret (u, length p + e).
Proof.
  unfold parse_null. rewrite char_at_shift. intros H.
  apply bind_Ret_inv in H as (c & -> & H). cbn [bind].
  destruct (negb (c =? chr "n")%N); [discriminate|].
  rewrite <- Nat.add_assoc, slice_shift.
  destruct (negb (str_eqb _ _)); [discriminate|].
  injection H as <- <-. eq_ret.
Qed.

Lemma number_loop_shift (inp inp' : str) (a : nat) (rest : str) :
  forall (index : nat) (rs : str) (dc : nat) (rs' : str) (dc' i' : nat),
    number_loop inp rest index rs dc = Ret (rs', dc', i') ->
    number_loop inp' rest (a + index) rs dc = Ret (rs', dc', a + i').
Proof.
  induction rest as [|c rest IH]; intros index rs dc rs' dc' i' H; [discriminate|].
  cbn [number_loop] in *.
  destruct (char_in c "0123456789."); [|by injection H as <- <- <-].
  destruct (c =? chr ".")%N.
  - destruct (1 <? dc + 1); [discriminate|].
    destruct rest as [|c' rest']; [discriminate|].
    destruct (negb (char_in c' "0123456789")); [discriminate|].
    rewrite <- Nat.add_assoc. by apply IH.
  - rewrite <- Nat.add_assoc. by apply IH.
Qed.

Lemma parse_number_shift (p inp : str) (i : nat) (v : value) (e : nat) :
  parse_number inp i = Ret (v, e) ->
  parse_number (p ++ inp) (length p + i) = Ret (v, length p + e).
Proof.
  unfold parse_number. rewrite char_at_shift. intros H.
  apply bind_Ret_inv in H as (c & Hc & H). rewrite Hc. cbn [bind].
  destruct (is_digit c) eqn:Hd; [|discriminate]. cbn [negb] in *.
  apply bind_Ret_inv in H as ([[rs dc] i'] & Hloop & H).
  rewrite drop_app_add.
  rewrite (number_loop_shift inp (p ++ inp) (length p) _ _ _ _ _ _ _ Hloop). cbn [bind].
  pose proof (number_loop_sound inp (drop i inp) i [] 0) as Hs.
  rewrite Hloop in Hs. destruct Hs as [_ Hfirst].
  specialize (Hfirst c _ (drop_char_at _ _ _ Hc)).
  rewrite is_number_char_cases, Hd in Hfirst. specialize (Hfirst eq_refl).
  destruct (0 <? dc).
  - destruct (py_float_outcome rs) as [[f Hf]|Hf]; rewrite Hf in *;
      cbn [bind except_ValueError] in *; [|discriminate].
    injection H as <- <-. eq_ret.
  - destruct (py_int_outcome rs) as [[n Hn]|Hn]; rewrite Hn in *;
      cbn [bind except_ValueError] in *; [|discriminate].
    injection H as <- <-. eq_ret.
Qed.

Lemma find_closing_quote_shift (a : nat) (n : nat) :
  forall (rest : str) (k e : nat),
    length rest <= n ->
    find_closing_quote rest k = Ret e ->
    find_closing_quote rest (a + k) = Ret (a + e).
Proof.
  induction n as [|n IH]; intros rest k e Hlen H.
  - destruct rest; [discriminate|simpl in Hlen; lia].
  - destruct rest as [|c rest]; [discriminate|]. simpl in Hlen.
    cbn [find_closing_quote] in *.
    destruct (c =? QUOTE)%N; [by injection H as <-|].
    destruct (c =? chr "\")%N.
    + destruct rest as [|c' rest]; [discriminate|]. simpl in Hlen.
      rewrite <- Nat.add_assoc. apply IH; [lia|exact H].
    + rewrite <- Nat.add_assoc. apply IH; [lia|exact H].
Qed.

Lemma parse_string_shift (names : list N -> option char) (p inp : str) (i : nat)
    (s : str) (e : nat) :
  parse_string names inp i = Ret (s, e) ->
  parse_string names (p ++ inp) (length p + i) = Ret (s, length p + e).
Proof.
  unfold parse_string. rewrite char_at_shift. intros H.
  apply bind_Ret_inv in H as (c & -> & H). cbn [bind].
  destruct (negb (c =? QUOTE)%N); [discriminate|].
  apply bind_Ret_inv in H as (e' & He & H).
  rewrite <- !Nat.add_assoc, drop_app_add.
  rewrite (find_closing_quote_shift (length p) _ _ _ _ (le_n _) He). cbn [bind].
  rewrite slice_shift.
  apply bind_Ret_inv in H as (raw & -> & H). cbn [bind].
  apply bind_Ret_inv in H as (res & -> & H). cbn [bind].
  by injection H as <- <-.
Qed.

Section Shift.

Variable names : list N -> option char.
Variables pv pv' : str -> nat -> outcome (value * nat).
Variables p inp : str.
Hypothesis pv_shift :
  forall j v e, pv inp j = Ret (v, e) -> pv' (p ++ inp) (length p + j) = Ret (v, length p + e).

Lemma object_loop_shift (fuel : nat) :
  forall (index : nat) (result d : list (str * value)) (e : nat),
    object_loop names pv fuel inp index result = Ret (d, e) ->
    object_loop names pv' fuel (p ++ inp) (length p + index) result
    = Ret (d, length p + e).
Proof.
  induction fuel as [|fuel IH]; intros index result d e H; [discriminate|].
  cbn [object_loop] in *. rewrite char_at_shift.
  apply bind_Ret_inv in H as (c & -> & H). cbn [bind].
  destruct (c =? chr "}")%N; [by injection H as <- <-|].
  apply bind_Ret_inv in H as ([key ke] & Hkey & H).
  rewrite <- !Nat.add_assoc, skip_whitespace_shift.
  rewrite (parse_string_shift _ p _ _ _ _ Hkey). cbn [bind].
  rewrite <- !Nat.add_assoc, skip_whitespace_shift, char_at_shift.
  apply bind_Ret_inv in H as (c1 & -> & H). cbn [bind].
  destruct (negb (c1 =? chr ":")%N); [discriminate|].
  apply bind_Ret_inv in H as ([v ve] & Hv & H).
  rewrite <- !Nat.add_assoc, skip_whitespace_shift.
  rewrite (pv_shift _ _ _ Hv). cbn [bind].
  rewrite <- !Nat.add_assoc, skip_whitespace_shift, char_at_shift.
  apply bind_Ret_inv in H as (c2 & -> & H). cbn [bind].
  destruct (c2 =? chr ",")%N.
  - rewrite <- !Nat.add_assoc, skip_whitespace_shift, char_at_shift.
    apply bind_Ret_inv in H as (c3 & -> & H). cbn [bind].
    destruct (c3 =? chr "}")%N; [discriminate|]. by apply IH.
  - destruct (negb (c2 =? chr "}")%N); [discriminate|]. by apply IH.
Qed.

Lemma array_loop_shift (fuel : nat) :
  forall (index : nat) (result l : list value) (e : nat),
    array_loop pv fuel inp index result = Ret (l, e) ->
    array_loop pv' fuel (p ++ inp) (length p + index) result = Ret (l, length p + e).
Proof.
  induction fuel as [|fuel IH]; intros index result l e H; [discriminate|].
  cbn [array_loop] in *. rewrite char_at_shift.
  apply bind_Ret_inv in H as (c & -> & H). cbn [bind].
  destruct (c =? chr "]")%N; [by injection H as <- <-|].
  apply bind_Ret_inv in H as ([v ve] & Hv & H).
  rewrite <- !Nat.add_assoc, skip_whitespace_shift.
  rewrite (pv_shift _ _ _ Hv). cbn [bind].
  rewrite <- !Nat.add_assoc, skip_whitespace_shift, char_at_shift.
  apply bind_Ret_inv in H as (c2 & -> & H). cbn [bind].
  destruct (c2 =? chr ",")%N.
  - rewrite <- !Nat.add_assoc, skip_whitespace_shift, char_at_shift.
    apply bind_Ret_inv in H as (c3 & -> & H). cbn [bind].
    destruct (c3 =? chr "]")%N; [discriminate|]. by apply IH.
  - destruct (negb (c2 =? chr "]")%N); [discriminate|]. by apply IH.
Qed.

End Shift.

Lemma _parse_json_shift (names : list N -> option char) (fuel : nat) :
  forall (depth : nat) (p inp : str) (index : nat) (v : value) (e : nat),
    _parse_json names fuel depth inp index = Ret (v, e) ->
    _parse_json names fuel depth (p ++ inp) (length p + index) = Ret (v, length p + e).
Proof.
  induction fuel as [|fuel IH]; intros depth p inp index v e H; [discriminate|].
  rewrite _parse_json_S in *. rewrite char_at_shift.
  apply bind_Ret_inv in H as (c & Hc & H). rewrite Hc. cbn [bind].
  destruct (c =? chr "{")%N.
  { destruct depth as [|depth]; [discriminate|].
    apply bind_Ret_inv in H as ([d e'] & Hd & H). injection H as <- <-.
    unfold parse_object in *. rewrite char_at_shift.
    apply bind_Ret_inv in Hd as (c0 & -> & Hd). cbn [bind].
    destruct (negb (c0 =? chr "{")%N); [discriminate|].
    by rewrite (object_loop_shift names _ _ p inp (IH depth p inp) fuel _ _ _ _ Hd). }
  destruct (c =? chr "[")%N.
  { destruct depth as [|depth]; [discriminate|].
    apply bind_Ret_inv in H as ([l e'] & Hl & H). injection H as <- <-.
    unfold parse_array in *. rewrite char_at_shift.
    apply bind_Ret_inv in Hl as (c0 & -> & Hl). cbn [bind].
    destruct (negb (c0 =? chr "[")%N); [discriminate|].
    by rewrite (array_loop_shift _ _ p inp (IH depth p inp) fuel _ _ _ _ Hl). }
  destruct (c =? QUOTE)%N.
  { apply bind_Ret_inv in H as ([s e'] & Hr & H). injection H as <- <-.
    by rewrite (parse_string_shift _ p _ _ _ _ Hr). }
  destruct (c =? chr "t")%N.
  { apply bind_Ret_inv in H as ([b e'] & Hr & H). injection H as <- <-.
    by rewrite (parse_true_shift p _ _ _ _ Hr). }
  destruct (c =? chr "f")%N.
  { apply bind_Ret_inv in H as (r & Hr & _). by apply parse_false_never_returns in Hr. }
  destruct (c =? chr "n")%N.
  { apply bind_Ret_inv in H as ([u e'] & Hr & H). injection H as <- <-.
    by rewrite (parse_null_shift p _ _ _ _ Hr). }
  by apply parse_number_shift.
Qed.

(** A value is decoded from its own text: the dispatcher returns the same
    value whatever text precedes the offset it starts at and whatever text
    follows the offset it returns. *)
Lemma _parse_json_context (names : list N -> option char) (fuel fuel' depth : nat)
    (p inp t : str) (index : nat) (v : value) (e : nat) :
  fuel <= fuel' ->
  _parse_json names fuel depth inp index = Ret (v, e) ->
  _parse_json names fuel' depth (p ++ inp ++ t) (length p + index)
  = Ret (v, length p + e).
Proof.
  intros Hfuel H. apply _parse_json_shift.
  by apply (_parse_json_app names fuel fuel' depth depth).
Qed.

Lemma skip_whitespace_lead (ws inp : str) :
  forallb is_space ws = true ->
  skip_whitespace (ws ++ inp) 0 = length ws + skip_whitespace inp 0.
Proof.
  intros Hws. unfold skip_whitespace. rewrite !Nat.min_0_l, !drop_0.
  rewrite skip_spaces_app, skip_spaces_all by done. cbn [Nat.add].
  rewrite Nat.ltb_irrefl. rewrite <- (Nat.add_0_r (length ws)) at 1.
  apply skip_spaces_shift.
Qed.

(** X14: white space before a document is ignored: when the entry point
    decodes a document to a value, the document preceded by white space is
    decoded to the same value. *)
Theorem leading_white_space (names : list N -> option char) (stack : nat)
    (inp ws : str) (v : value) :
  parse_json names stack inp = Ret v ->
  forallb is_space ws = true ->
  parse_json names stack (ws ++ inp) = Ret v.
Proof.
  intros H Hws. apply parse_json_Ret_inv in H as (c0 & e & Hc & Hroot & Hv & Hend).
  apply (parse_json_returns names stack _ c0 v (length ws + e)).
  - by rewrite skip_whitespace_lead, char_at_shift.
  - exact Hroot.
  - rewrite skip_whitespace_lead by done.
    apply _parse_json_shift.
    assert (Hfuel : S (length inp) <= S (length (ws ++ inp))).
    { rewrite length_app. lia. }
    pose proof (_parse_json_app names _ _ stack stack inp [] _ _ _ Hfuel (le_n _) Hv)
      as Hv'.
    by rewrite app_nil_r in Hv'.
  - rewrite <- Nat.add_assoc, skip_whitespace_shift, length_app. lia.
Qed.

Lemma leading_white_space_witness :
  parse_json empty_name_table 2 ([32; 10; 9]%N ++ py "{'a': [true]}")
  = Ret (VDict [(py "a", VList [VBool true])]).
Proof. apply leading_white_space; reflexivity. Defined.

(** ** A document inside an array *)



(** ** A comma before the closing bracket *)

(** X16: a comma after the last element of an array is rejected: when the
    entry point decodes a document to a value, the same text as the one
    element of an array, followed by a comma, white space and the closing
    bracket, raises the parse error, when the call stack has room for one
    more level of containers; its offset is one past the comma, whatever
    white space stands before the bracket. *)
Theorem trailing_comma_rejected (names : list N -> option char) (stack : nat)
    (inp ws : str) (v : value) :
  parse_json names stack inp = Ret v ->
  forallb is_space ws = true ->
  parse_json names (S stack) ([chr "["] ++ inp ++ chr "," :: ws ++ [chr "]"])
  = Raise (InvalidJSONError TrailingComma
             (unexpected_token_message
                ([chr "["] ++ inp ++ chr "," :: ws ++ [chr "]"]) (length inp + 2))).
Proof.
  intros H Hws. apply parse_json_Ret_inv in H as (c0 & e & Hc & Hroot & Hv & Hend).
  pose proof (_parse_json_start _ _ _ _ _ _ _ Hv) as He.
  set (t := chr "," :: ws ++ [chr "]"]).
  assert (Hlen : length ([chr "["] ++ inp ++ t) = S (S (length inp + S (length ws)))).
  { unfold t. rewrite !length_app. simpl. rewrite length_app. simpl. lia. }
  assert (H0 : skip_whitespace ([chr "["] ++ inp ++ t) 0 = 0).
  { by apply (skip_whitespace_stay _ 0 (chr "[") (inp ++ t)). }
  assert (Hstart : skip_whitespace ([chr "["] ++ inp ++ t) (0 + 1)
                   = 1 + skip_whitespace inp 0).
  { rewrite <- (skip_then_char_app _ t _ _ Hc).
    exact (skip_whitespace_shift [chr "["] (inp ++ t) 0). }
  assert (Hcomma : skip_whitespace ([chr "["] ++ inp ++ t) (1 + e + 1)
                   = 1 + length inp).
  { rewrite <- Nat.add_assoc.
    transitivity (1 + skip_whitespace (inp ++ t) (e + 1)).
    - exact (skip_whitespace_shift [chr "["] (inp ++ t) (e + 1)).
    - rewrite skip_whitespace_app_end by lia. reflexivity. }
  assert (Hcomma_char : char_at ([chr "["] ++ inp ++ t) (1 + length inp)
                        = Ret (chr ",")).
  { transitivity (char_at (inp ++ t) (length inp)).
    - exact (char_at_shift [chr "["] (inp ++ t) (length inp)).
    - apply char_at_Ret. by apply list_lookup_middle. }
  assert (Hdrop : drop (1 + length inp + 1) ([chr "["] ++ inp ++ t)
                  = ws ++ chr "]" :: []).
  { rewrite <- Nat.add_assoc.
    transitivity (drop (length inp + 1) (inp ++ t)).
    - exact (drop_app_add [chr "["] (inp ++ t) (length inp + 1)).
    - by rewrite drop_app_add. }
  assert (Hpeek : skip_whitespace ([chr "["] ++ inp ++ t) (1 + length inp + 1)
                  = 1 + length inp + 1 + length ws).
  { by apply (skip_whitespace_spaces _ _ ws (chr "]") []). }
  assert (Hpeek_char : char_at ([chr "["] ++ inp ++ t) (1 + length inp + 1 + length ws)
                       = Ret (chr "]")).
  { apply (char_at_drop _ _ _ []). by apply drop_skip. }
  unfold parse_json. rewrite H0, Hlen. cbn [Nat.leb].
  change (char_at ([chr "["] ++ inp ++ t) 0) with (@Ret char (chr "[")).
  cbn [bind]. change (negb (char_in (chr "[") "{[")) with false. cbv iota.
  rewrite _parse_json_S.
  change (char_at ([chr "["] ++ inp ++ t) 0) with (@Ret char (chr "[")).
  cbn [bind]. change (chr "[" =? chr "{")%N with false. rewrite N.eqb_refl.
  unfold parse_array.
  change (char_at ([chr "["] ++ inp ++ t) 0) with (@Ret char (chr "[")).
  cbn [bind]. rewrite N.eqb_refl. cbn [negb array_loop].
  change (char_at ([chr "["] ++ inp ++ t) 0) with (@Ret char (chr "[")).
  cbn [bind]. change (chr "[" =? chr "]")%N with false. cbv iota.
  rewrite Hstart.
  assert (Hfuel : S (length inp) <= S (S (length inp + S (length ws)))) by lia.
  pose proof (_parse_json_context names _ _ stack [chr "["] inp t _ _ _ Hfuel Hv) as Hctx.
  change (length [chr "["]) with 1 in Hctx. rewrite Hctx. cbn [bind].
  rewrite Hcomma, Hcomma_char. cbn [bind]. rewrite N.eqb_refl.
  rewrite Hpeek, Hpeek_char. cbn [bind]. rewrite N.eqb_refl.
  unfold raise_invalid_json_error. cbn [bind except_IndexError].
  by replace (1 + length inp + 1) with (length inp + 2) by lia.
Qed.

Lemma trailing_comma_rejected_witness :
  parse_json empty_name_table 2 ([chr "["] ++ py "[1]" ++ chr "," :: py "  " ++ [chr "]"])
  = Raise (InvalidJSONError TrailingComma
             (unexpected_token_message
                ([chr "["] ++ py "[1]" ++ chr "," :: py "  " ++ [chr "]"]) 5)).
Proof.
  apply (trailing_comma_rejected empty_name_table 1 (py "[1]") (py "  ")
           (VList [VInt 1])); reflexivity.
Defined.
